(** * The session / turn lifecycle controller of the German speech trainer

    A shallow embedding of the [useGeminiLive] hook (hooks/useGeminiLive.ts)
    and of the [Turn] / [ConnectionState] types (types.ts).

    The hook is single-threaded, callback-driven JavaScript.  Every callback
    and every segment of an [async] function between two [await]s runs to
    completion; the model therefore has one function per such segment, acting
    on a [World] that holds the React state, the refs, and the part of the
    browser the hook talks to (clock, timers, pending promises, the trace of
    calls made to external objects). *)

From Stdlib Require Import ZArith NArith List Bool String Ascii Lia.
From Stdlib Require Import DecimalString DecimalZ DecimalPos.
From stdpp Require Import base list.
Import ListNotations.

Local Open Scope Z_scope.

(** ** JavaScript strings

    A JavaScript string is a sequence of UTF-16 code units. *)

Definition jsstring := list N.

(** An ASCII literal of the source as a JavaScript string. *)
Definition lit (s : string) : jsstring :=
  map N_of_ascii (list_ascii_of_string s).

(** Truthiness of a string: every string but the empty one. *)
Definition truthy (s : jsstring) : bool :=
  match s with
  | [] => false
  | _ :: _ => true
  end.

(** Truthiness of a [string | null] (or [string | undefined]) value. *)
Definition truthy_opt (o : option jsstring) : bool :=
  match o with
  | Some s => truthy s
  | None => false
  end.

(** ECMAScript WhiteSpace and LineTerminator code units, the ones that
    [String.prototype.trim] strips. *)
Definition isWhiteSpace (c : N) : bool :=
  ((9 <=? c) && (c <=? 13) || (c =? 32) || (c =? 160) || (c =? 5760)
   || (8192 <=? c) && (c <=? 8202) || (c =? 8232) || (c =? 8233)
   || (c =? 8239) || (c =? 8287) || (c =? 12288) || (c =? 65279))%N.

Fixpoint trimStart (s : jsstring) : jsstring :=
  match s with
  | c :: s' => if isWhiteSpace c then trimStart s' else s
  | [] => []
  end.

Definition trimEnd (s : jsstring) : jsstring := rev (trimStart (rev s)).

Definition trim (s : jsstring) : jsstring := trimEnd (trimStart s).

(** [Number.prototype.toString] on an integer: its decimal numeral. *)
Definition toString (n : Z) : jsstring :=
  lit (NilZero.string_of_int (Z.to_int n)).

(** ** types.ts *)

Record Turn := mkTurn {
  id : jsstring;
  userTranscript : jsstring;
  modelResponse : jsstring;
  isComplete : bool;
  timestamp : Z
}.

Inductive ConnectionState := DISCONNECTED | CONNECTING | CONNECTED | ERROR.

(** [Partial<Turn>]: an absent key is [None]. *)
Record PartialTurn := mkPartial {
  p_id : option jsstring;
  p_userTranscript : option jsstring;
  p_modelResponse : option jsstring;
  p_isComplete : option bool;
  p_timestamp : option Z
}.

(** The object literals the hook passes to [updateTurn]. *)
Definition transcriptUpdate (t : jsstring) : PartialTurn :=
  mkPartial None (Some t) None None None.

Definition feedbackUpdate (r : jsstring) : PartialTurn :=
  mkPartial None None (Some r) (Some true) None.

(** [{ ...t, ...updates }] *)
Definition spread (t : Turn) (updates : PartialTurn) : Turn :=
  {| id := default (id t) (p_id updates);
     userTranscript := default (userTranscript t) (p_userTranscript updates);
     modelResponse := default (modelResponse t) (p_modelResponse updates);
     isComplete := default (isComplete t) (p_isComplete updates);
     timestamp := default (timestamp t) (p_timestamp updates) |}.

(** ** The turn sequence *)

Definition jsstring_eqb (a b : jsstring) : bool := bool_decide (a = b).

(** [Array.prototype.findIndex]: the first index whose element satisfies the
    predicate, [-1] when there is none. *)
Fixpoint findIndex {A} (p : A -> bool) (l : list A) : Z :=
  match l with
  | [] => -1
  | x :: l' =>
      if p x then 0
      else let i := findIndex p l' in if i =? -1 then -1 else i + 1
  end.

(** The updater function that [updateTurn (id, updates)] hands to [setTurns]. *)
Definition updateTurn (i : jsstring) (updates : PartialTurn)
    (prev : list Turn) : list Turn :=
  let index := findIndex (fun t => jsstring_eqb (id t) i) prev in
  if index =? -1 then prev
  else alter (fun t => spread t updates) (Z.to_nat index) prev.

(** The updater function of [createTurn (id)]; [ts] is [Date.now()]. *)
Definition createTurn (i : jsstring) (ts : Z) (prev : list Turn) : list Turn :=
  prev ++ [ {| id := i; userTranscript := []; modelResponse := [];
               isComplete := false; timestamp := ts |} ].

(** ** The hook's state and its environment *)

(** The [useRef] cells.  Objects of the browser and of the SDK (audio
    context, media stream, audio nodes, live session) are represented by
    their identity, a natural number; [setTimeout] handles are positive
    integers. *)
Record Refs := mkRefs {
  audioContextRef : option nat;
  streamRef : option nat;
  processorRef : option nat;
  sourceRef : option nat;
  activeSessionRef : option nat;
  currentTurnIdRef : option jsstring;
  currentInputTransRef : jsstring;
  silenceTimerRef : option positive
}.

(** Calls the hook makes on objects it does not own, in the order made.
    Of the [console.log] calls only the two that mark the start and the
    finalization of a turn are recorded. *)
Inductive Effect :=
| Alert
| ConsoleError (msg : string)
| LogStarted (newId : jsstring)
| LogFinal (finalTranscript : jsstring)
| SessionClose (session : nat)
| TrackStop (stream : nat)
| NodeDisconnect (node : nat)
| ContextClose (context : nat)
| SendRealtimeInput (session : nat) (blob : jsstring)
| GenerateContent (contents : jsstring).

(** A promise the hook is waiting on, with the code that resumes when it
    settles. *)
Inductive Task :=
| ConnectResume (context : nat)
| ConnectGetUserMedia (context : nat)
| SessionThen (session : nat)
| AudioThen (session : nat) (blob : jsstring)
| DisconnectSessionClose
| DisconnectContextClose (context : nat)
| FeedbackGenerate (turnId : jsstring).

(** How a promise settles.  A fulfilled [generateContent] carries
    [response.text], a [string | undefined]; the value is ignored for every
    other promise.  An exception thrown by the awaited call itself is caught
    by the same handler as a rejection and is modelled as one. *)
Inductive Settle :=
| Fulfilled (text : option jsstring)
| Rejected.

Record World := mkWorld {
  (* useState *)
  status : ConnectionState;
  turns : list Turn;
  audioAnalyser : option nat;
  (* useRef *)
  refs : Refs;
  (* environment *)
  now : Z;                          (* Date.now(); never runs backwards *)
  apiKey : bool;                    (* process.env.API_KEY is set *)
  timers : list (positive * Z);     (* armed timeouts and their deadlines *)
  nextTimer : positive;
  nextObject : nat;
  closedContexts : list nat;        (* audio contexts whose state is 'closed' *)
  sessions : list (nat * nat);      (* live session, audio context of its callbacks *)
  processors : list (nat * nat);    (* script processor, session of its handler *)
  pending : list Task;
  trace : list Effect
}.

Definition set_audioContextRef v (r : Refs) : Refs :=
  mkRefs v (streamRef r) (processorRef r) (sourceRef r) (activeSessionRef r)
         (currentTurnIdRef r) (currentInputTransRef r) (silenceTimerRef r).
Definition set_streamRef v (r : Refs) : Refs :=
  mkRefs (audioContextRef r) v (processorRef r) (sourceRef r) (activeSessionRef r)
         (currentTurnIdRef r) (currentInputTransRef r) (silenceTimerRef r).
Definition set_processorRef v (r : Refs) : Refs :=
  mkRefs (audioContextRef r) (streamRef r) v (sourceRef r) (activeSessionRef r)
         (currentTurnIdRef r) (currentInputTransRef r) (silenceTimerRef r).
Definition set_sourceRef v (r : Refs) : Refs :=
  mkRefs (audioContextRef r) (streamRef r) (processorRef r) v (activeSessionRef r)
         (currentTurnIdRef r) (currentInputTransRef r) (silenceTimerRef r).
Definition set_activeSessionRef v (r : Refs) : Refs :=
  mkRefs (audioContextRef r) (streamRef r) (processorRef r) (sourceRef r) v
         (currentTurnIdRef r) (currentInputTransRef r) (silenceTimerRef r).
Definition set_currentTurnIdRef v (r : Refs) : Refs :=
  mkRefs (audioContextRef r) (streamRef r) (processorRef r) (sourceRef r)
         (activeSessionRef r) v (currentInputTransRef r) (silenceTimerRef r).
Definition set_currentInputTransRef v (r : Refs) : Refs :=
  mkRefs (audioContextRef r) (streamRef r) (processorRef r) (sourceRef r)
         (activeSessionRef r) (currentTurnIdRef r) v (silenceTimerRef r).
Definition set_silenceTimerRef v (r : Refs) : Refs :=
  mkRefs (audioContextRef r) (streamRef r) (processorRef r) (sourceRef r)
         (activeSessionRef r) (currentTurnIdRef r) (currentInputTransRef r) v.

Definition setStatus v (w : World) : World :=
  mkWorld v (turns w) (audioAnalyser w) (refs w) (now w) (apiKey w) (timers w)
          (nextTimer w) (nextObject w) (closedContexts w) (sessions w)
          (processors w) (pending w) (trace w).
Definition setTurns (f : list Turn -> list Turn) (w : World) : World :=
  mkWorld (status w) (f (turns w)) (audioAnalyser w) (refs w) (now w) (apiKey w)
          (timers w) (nextTimer w) (nextObject w) (closedContexts w) (sessions w)
          (processors w) (pending w) (trace w).
Definition setAudioAnalyser v (w : World) : World :=
  mkWorld (status w) (turns w) v (refs w) (now w) (apiKey w) (timers w)
          (nextTimer w) (nextObject w) (closedContexts w) (sessions w)
          (processors w) (pending w) (trace w).
Definition with_refs (f : Refs -> Refs) (w : World) : World :=
  mkWorld (status w) (turns w) (audioAnalyser w) (f (refs w)) (now w) (apiKey w)
          (timers w) (nextTimer w) (nextObject w) (closedContexts w) (sessions w)
          (processors w) (pending w) (trace w).
Definition set_now v (w : World) : World :=
  mkWorld (status w) (turns w) (audioAnalyser w) (refs w) v (apiKey w) (timers w)
          (nextTimer w) (nextObject w) (closedContexts w) (sessions w)
          (processors w) (pending w) (trace w).
Definition set_timers v n (w : World) : World :=
  mkWorld (status w) (turns w) (audioAnalyser w) (refs w) (now w) (apiKey w) v
          n (nextObject w) (closedContexts w) (sessions w)
          (processors w) (pending w) (trace w).
Definition set_nextObject v (w : World) : World :=
  mkWorld (status w) (turns w) (audioAnalyser w) (refs w) (now w) (apiKey w)
          (timers w) (nextTimer w) v (closedContexts w) (sessions w)
          (processors w) (pending w) (trace w).
Definition set_closedContexts v (w : World) : World :=
  mkWorld (status w) (turns w) (audioAnalyser w) (refs w) (now w) (apiKey w)
          (timers w) (nextTimer w) (nextObject w) v (sessions w)
          (processors w) (pending w) (trace w).
Definition set_sessions v (w : World) : World :=
  mkWorld (status w) (turns w) (audioAnalyser w) (refs w) (now w) (apiKey w)
          (timers w) (nextTimer w) (nextObject w) (closedContexts w) v
          (processors w) (pending w) (trace w).
Definition set_processors v (w : World) : World :=
  mkWorld (status w) (turns w) (audioAnalyser w) (refs w) (now w) (apiKey w)
          (timers w) (nextTimer w) (nextObject w) (closedContexts w) (sessions w)
          v (pending w) (trace w).
Definition set_pending v (w : World) : World :=
  mkWorld (status w) (turns w) (audioAnalyser w) (refs w) (now w) (apiKey w)
          (timers w) (nextTimer w) (nextObject w) (closedContexts w) (sessions w)
          (processors w) v (trace w).
Definition set_trace v (w : World) : World :=
  mkWorld (status w) (turns w) (audioAnalyser w) (refs w) (now w) (apiKey w)
          (timers w) (nextTimer w) (nextObject w) (closedContexts w) (sessions w)
          (processors w) (pending w) v.

(** A call on an external object. *)
Definition emit (e : Effect) (w : World) : World :=
  set_trace (trace w ++ [e]) w.

(** An [await] (or a [then]): the rest of the function waits for the
    promise. *)
Definition suspend (k : Task) (w : World) : World :=
  set_pending (pending w ++ [k]) w.

(** [setTimeout (callback, delay)]; the handle it returns is [nextTimer w]. *)
Definition setTimeout (delay : Z) (w : World) : World :=
  set_timers (timers w ++ [(nextTimer w, now w + delay)]) (Pos.succ (nextTimer w)) w.

Definition clearTimeout (h : positive) (w : World) : World :=
  set_timers (List.filter (fun p => negb (Pos.eqb (fst p) h)) (timers w))
             (nextTimer w) w.

Fixpoint assoc {A B} (eqb : A -> A -> bool) (k : A) (l : list (A * B)) : option B :=
  match l with
  | [] => None
  | (k', v) :: l' => if eqb k k' then Some v else assoc eqb k l'
  end.

Definition isClosed (c : nat) (w : World) : bool :=
  existsb (Nat.eqb c) (closedContexts w).

(** The state of a freshly mounted hook. *)
Definition initialRefs : Refs :=
  mkRefs None None None None None None [] None.

Definition initial (key : bool) (t0 : Z) : World :=
  mkWorld DISCONNECTED [] None initialRefs t0 key [] 1%positive 0%nat [] [] [] [] [].

(** ** useGeminiLive *)

(** *** disconnect

    [disconnect] has two suspension points, the [await] on the session's
    [close ()] and the [await] on the audio context's [close ()].  Both sit in
    a [try] block whose handler logs the error.  [clearTimeout],
    [MediaStreamTrack.stop ()] and [AudioNode.disconnect ()] do not throw. *)

(** 6. Reset Internal State *)
Definition disconnect_reset (w : World) : World :=
  let w := setStatus DISCONNECTED w in
  let w := setAudioAnalyser None w in
  let w := with_refs (set_currentTurnIdRef None) w in
  with_refs (set_currentInputTransRef []) w.

(** After [await audioContextRef.current.close ()]. *)
Definition disconnect_afterContextClose (r : Settle) (w : World) : World :=
  let w := match r with
           | Fulfilled _ => w
           | Rejected => emit (ConsoleError "Error closing audio context:") w
           end in
  let w := with_refs (set_audioContextRef None) w in
  disconnect_reset w.

(** 3. Stop Microphone Stream *)
Definition disconnect_stopStream (w : World) : World :=
  match streamRef (refs w) with
  | Some stream => with_refs (set_streamRef None) (emit (TrackStop stream) w)
  | None => w
  end.

(** 4. Disconnect Audio Nodes *)
Definition disconnect_processor (w : World) : World :=
  match processorRef (refs w) with
  | Some node => with_refs (set_processorRef None) (emit (NodeDisconnect node) w)
  | None => w
  end.

Definition disconnect_source (w : World) : World :=
  match sourceRef (refs w) with
  | Some node => with_refs (set_sourceRef None) (emit (NodeDisconnect node) w)
  | None => w
  end.

(** 5. Close Audio Context, up to the [await]; then 6. *)
Definition disconnect_closeContext (w : World) : World :=
  match audioContextRef (refs w) with
  | Some c =>
      if isClosed c w
      then disconnect_reset (with_refs (set_audioContextRef None) w)
      else suspend (DisconnectContextClose c) (emit (ContextClose c) w)
  | None => disconnect_reset w
  end.

(** Steps 3 to 6. *)
Definition disconnect_release (w : World) : World :=
  disconnect_closeContext
    (disconnect_source (disconnect_processor (disconnect_stopStream w))).

(** After [await activeSessionRef.current.close ()]. *)
Definition disconnect_afterSessionClose (r : Settle) (w : World) : World :=
  let w := match r with
           | Fulfilled _ => w
           | Rejected => emit (ConsoleError "Error closing Gemini session:") w
           end in
  disconnect_release (with_refs (set_activeSessionRef None) w).

(** 1. Clear timers *)
Definition disconnect_clearTimers (w : World) : World :=
  match silenceTimerRef (refs w) with
  | Some h => with_refs (set_silenceTimerRef None) (clearTimeout h w)
  | None => w
  end.

(** [disconnect ()] up to its first [await]: 1. Clear timers,
    2. Close Gemini Session. *)
Definition disconnect (w : World) : World :=
  let w := disconnect_clearTimers w in
  match activeSessionRef (refs w) with
  | Some s => suspend DisconnectSessionClose (emit (SessionClose s) w)
  | None => disconnect_release w
  end.

(** *** fetchGrammarFeedback *)

Definition errorFeedback : jsstring :=
  lit "Error generating feedback. Please try again.".

(** Up to [await ai.models.generateContent (...)]. *)
Definition fetchGrammarFeedback (text turnId : jsstring) (w : World) : World :=
  if negb (apiKey w) || negb (truthy (trim text)) then w
  else suspend (FeedbackGenerate turnId) (emit (GenerateContent text) w).

(** After the [await]: [feedback = response.text], or the [catch] block. *)
Definition fetchGrammarFeedback_afterGenerate (turnId : jsstring) (r : Settle)
    (w : World) : World :=
  match r with
  | Fulfilled (Some feedback) =>
      if truthy feedback
      then setTurns (updateTurn turnId (feedbackUpdate feedback)) w
      else w
  | Fulfilled None => w
  | Rejected =>
      setTurns (updateTurn turnId (feedbackUpdate errorFeedback))
               (emit (ConsoleError "Error fetching feedback:") w)
  end.

(** *** connect *)

(** The [catch] block of [connect]: [disconnect ()] is called, not awaited,
    so it runs up to its first suspension point before [setStatus] does. *)
Definition connect_catch (w : World) : World :=
  let w := emit (ConsoleError "Connection failed:") w in
  let w := disconnect w in
  setStatus ERROR w.

(** After [await navigator.mediaDevices.getUserMedia (...)]: the stream, the
    source node, the analyser and the live session are new objects.  The
    session promise is not awaited; its first [then] stores the session. *)
Definition connect_afterGetUserMedia (c : nat) (r : Settle) (w : World) : World :=
  match r with
  | Fulfilled _ =>
      let stream := nextObject w in
      let source := S stream in
      let analyser := S source in
      let session := S analyser in
      let w := set_nextObject (S session) w in
      let w := with_refs (set_streamRef (Some stream)) w in
      let w := with_refs (set_sourceRef (Some source)) w in
      let w := setAudioAnalyser (Some analyser) w in
      let w := set_sessions (sessions w ++ [(session, c)]) w in
      suspend (SessionThen session) w
  | Rejected => connect_catch w
  end.

(** After [await audioContext.resume ()]. *)
Definition connect_afterResume (c : nat) (r : Settle) (w : World) : World :=
  match r with
  | Fulfilled _ =>
      suspend (ConnectGetUserMedia c) (with_refs (set_audioContextRef (Some c)) w)
  | Rejected => connect_catch w
  end.

(** Up to [await audioContext.resume ()]; [constructed] tells whether
    [new AudioContext (...)] returned or threw.  The other synchronous calls
    of [connect] ([createMediaStreamSource], [createAnalyser],
    [new GoogleGenAI], [ai.live.connect]) are taken to return. *)
Definition connect (constructed : bool) (w : World) : World :=
  if negb (apiKey w) then emit Alert w
  else
    let w := setStatus CONNECTING w in
    if constructed
    then suspend (ConnectResume (nextObject w)) (set_nextObject (S (nextObject w)) w)
    else connect_catch w.

(** *** The callbacks of the live session *)

(** [sessionPromise.then (session => { activeSessionRef.current = session })] *)
Definition storeSession (s : nat) (w : World) : World :=
  with_refs (set_activeSessionRef (Some s)) w.

(** The [then] callback of [onaudioprocess]; [s] is the session the promise
    of this connection resolved to. *)
Definition sendBlock (s : nat) (pcmBlob : jsstring) (w : World) : World :=
  match activeSessionRef (refs w) with
  | Some a => if Nat.eqb a s then emit (SendRealtimeInput s pcmBlob) w else w
  | None => w
  end.

(** [processor.onaudioprocess]; [pcmBlob] is [createBlob (inputData, rate)]. *)
Definition onaudioprocess (s : nat) (pcmBlob : jsstring) (w : World) : World :=
  match audioContextRef (refs w) with
  | None => w
  | Some c => if isClosed c w then w else suspend (AudioThen s pcmBlob) w
  end.

Definition onopen (s : nat) (w : World) : World :=
  let w := setStatus CONNECTED w in
  let processor := nextObject w in
  let w := set_nextObject (S (S processor)) w in     (* processor, gain node *)
  let w := with_refs (set_processorRef (Some processor)) w in
  set_processors (processors w ++ [(processor, s)]) w.

(** The callback handed to [setTimeout] by [onmessage]. *)
Definition silenceTimeout (w : World) : World :=
  let finalTranscript := currentInputTransRef (refs w) in
  match currentTurnIdRef (refs w) with
  | Some turnId =>
      if truthy turnId && truthy (trim finalTranscript) then
        let w := emit (LogFinal finalTranscript) w in
        let w := setTurns (updateTurn turnId (transcriptUpdate finalTranscript)) w in
        let w := fetchGrammarFeedback finalTranscript turnId w in
        let w := with_refs (set_currentTurnIdRef None) w in
        with_refs (set_currentInputTransRef []) w
      else w
  | None => w
  end.

(** [onmessage]; [inputTxt] is
    [message.serverContent?.inputTranscription?.text].  The id of a new Turn
    is the reading of [Date.now ()] in the handler; its timestamp is read by
    the updater that [createTurn] hands to [setTurns], when React runs that
    updater: [rendered] is this second reading. *)
Definition onmessage (inputTxt : option jsstring) (rendered : Z) (w : World) : World :=
  match inputTxt with
  | Some txt =>
      if truthy txt then
        let w := match silenceTimerRef (refs w) with
                 | Some h => clearTimeout h w
                 | None => w
                 end in
        let w := if negb (truthy_opt (currentTurnIdRef (refs w))) then
                   let newId := toString (now w) in
                   let w := with_refs (set_currentTurnIdRef (Some newId)) w in
                   let w := with_refs (set_currentInputTransRef []) w in
                   let w := setTurns (createTurn newId rendered) w in
                   emit (LogStarted newId) w
                 else w in
        let w := with_refs (fun r => set_currentInputTransRef
                                       (currentInputTransRef r ++ txt) r) w in
        with_refs (set_silenceTimerRef (Some (nextTimer w))) (setTimeout 3000 w)
      else w
  | None => w
  end.

Definition onclose (w : World) : World :=
  match activeSessionRef (refs w) with
  | Some _ => disconnect w
  | None => w
  end.

Definition onerror (w : World) : World :=
  let w := emit (ConsoleError "Session error:") w in
  let w := disconnect w in
  setStatus ERROR w.

(** ** The event loop *)

Inductive Event :=
| EvAdvance (t : Z)                       (* the clock reaches [t] *)
| EvConnect (constructed : bool)          (* the application calls connect () *)
| EvDisconnect                            (* the application calls disconnect () *)
| EvSettle (n : nat) (r : Settle)         (* the n-th pending promise settles *)
| EvOpen (session : nat)
| EvMessage (inputTxt : option jsstring)  (* updaters run in the same clock reading *)
| EvClose
| EvError
| EvAudio (processor : nat) (pcmBlob : jsstring)
| EvTimer (h : positive)                  (* a timeout that is due fires *)
| EvMessageLate (inputTxt : option jsstring) (rendered : Z).

(** The code that runs when a pending promise settles. *)
Definition settle (k : Task) (r : Settle) (w : World) : World :=
  match k, r with
  | ConnectResume c, _ => connect_afterResume c r w
  | ConnectGetUserMedia c, _ => connect_afterGetUserMedia c r w
  | SessionThen s, Fulfilled _ => storeSession s w
  | SessionThen _, Rejected => w
  | AudioThen s pcmBlob, Fulfilled _ => sendBlock s pcmBlob w
  | AudioThen _ _, Rejected => w
  | DisconnectSessionClose, _ => disconnect_afterSessionClose r w
  | DisconnectContextClose c, Fulfilled _ =>
      disconnect_afterContextClose r
        (set_closedContexts (c :: closedContexts w) w)
  | DisconnectContextClose _, Rejected => disconnect_afterContextClose r w
  | FeedbackGenerate turnId, _ => fetchGrammarFeedback_afterGenerate turnId r w
  end.

(** One turn of the event loop.  An event that cannot happen in [w] (a
    promise, session, processor or timeout that does not exist, a timeout
    that is not due) leaves [w] as it is.  A timeout that fires is no longer
    armed when its callback runs.  A message is handled at the reading the
    clock shows; React runs the updater of a new Turn either within that
    reading ([EvMessage]) or when the clock has reached [rendered]
    ([EvMessageLate]), which is then the reading the clock shows. *)
Definition step (e : Event) (w : World) : World :=
  match e with
  | EvAdvance t => set_now (Z.max (now w) t) w
  | EvConnect constructed => connect constructed w
  | EvDisconnect => disconnect w
  | EvSettle n r =>
      match pending w !! n with
      | Some k => settle k r (set_pending (delete n (pending w)) w)
      | None => w
      end
  | EvOpen s =>
      match assoc Nat.eqb s (sessions w) with
      | Some _ => onopen s w
      | None => w
      end
  | EvMessage inputTxt => onmessage inputTxt (now w) w
  | EvClose => onclose w
  | EvError => onerror w
  | EvAudio p pcmBlob =>
      match assoc Nat.eqb p (processors w) with
      | Some s => onaudioprocess s pcmBlob w
      | None => w
      end
  | EvTimer h =>
      match assoc Pos.eqb h (timers w) with
      | Some deadline =>
          if deadline <=? now w then silenceTimeout (clearTimeout h w) else w
      | None => w
      end
  | EvMessageLate inputTxt rendered =>
      let r := Z.max (now w) rendered in
      set_now r (onmessage inputTxt r w)
  end.

(** The events of [es] happen one after the other, first to last. *)
Definition run (es : list Event) (w : World) : World :=
  fold_left (fun w e => step e w) es w.

(** * The vocabulary of the properties *)

(** ** Turn sequences *)

(** The position [updateTurn] writes to, if any. *)
Definition target (i : jsstring) (prev : list Turn) : Z :=
  findIndex (fun t => jsstring_eqb (id t) i) prev.

(** Every Turn of [l] is still at its position in [l'], with the id and the
    timestamp it had. *)
Definition identity_stable (l l' : list Turn) : Prop :=
  forall (n : nat) (t : Turn), l !! n = Some t ->
    exists t', l' !! n = Some t' /\ id t' = id t /\ timestamp t' = timestamp t.

(** A Turn is open from its creation until the silence timer writes its
    transcript. *)
Definition unfinalized (t : Turn) : bool := negb (truthy (userTranscript t)).

(** [l'] is [l] with [response] written into the first Turn whose id is
    [turnId], which is thereby complete. *)
Definition written (response turnId : jsstring) (l l' : list Turn) : Prop :=
  exists (n : nat) (t : Turn),
    l !! n = Some t /\ id t = turnId
    /\ (forall m u, l !! m = Some u -> (m < n)%nat -> id u <> turnId)
    /\ l' = <[n := {| id := id t; userTranscript := userTranscript t;
                      modelResponse := response; isComplete := true;
                      timestamp := timestamp t |}]> l.

(** ** Strings *)

(** Empty or made of white space only. *)
Definition blank (s : jsstring) : bool := forallb isWhiteSpace s.

(** ** Teardown *)

(** [disconnect ()] with nothing else scheduled until it returns: the promise
    of the first [await] it reaches settles as [r1], the promise of the second
    one, if there is one, as [r2].  The task of [disconnect] is the last one
    pending, at index [length (pending w)]; once [disconnect] has returned no
    task is there and the remaining events do nothing. *)
Definition disconnect_completes (r1 r2 : Settle) (w : World) : World :=
  let n := length (pending w) in
  run [EvDisconnect; EvSettle n r1; EvSettle n r2] w.

(** State and refs as [disconnect] leaves them. *)
Definition torn_down (w : World) : Prop :=
  status w = DISCONNECTED /\ audioAnalyser w = None /\ refs w = initialRefs.

(** The call made on the object a ref holds, none if the ref is null. *)
Definition effect_of {A} (f : A -> Effect) (o : option A) : list Effect :=
  match o with
  | Some x => [f x]
  | None => []
  end.

(** What a completed teardown of [w] has done by the time it ends in [w']. *)
Record teardown_of (w w' : World) : Prop := {
  td_state : torn_down w';
  td_turns : turns w' = turns w;
  td_pending : pending w' = pending w;
  td_timer : forall h, silenceTimerRef (refs w) = Some h ->
                       assoc Pos.eqb h (timers w') = None;
  td_session : forall s, activeSessionRef (refs w) = Some s ->
                         In (SessionClose s) (trace w');
  td_stream : forall x, streamRef (refs w) = Some x -> In (TrackStop x) (trace w');
  td_processor : forall x, processorRef (refs w) = Some x ->
                           In (NodeDisconnect x) (trace w');
  td_source : forall x, sourceRef (refs w) = Some x ->
                        In (NodeDisconnect x) (trace w');
  td_context : forall c, audioContextRef (refs w) = Some c -> isClosed c w = false ->
                         In (ContextClose c) (trace w')
}.

(** ** Analysis requests *)

(** The analysis requests made so far. *)
Fixpoint requests (tr : list Effect) : list jsstring :=
  match tr with
  | [] => []
  | GenerateContent text :: tr' => text :: requests tr'
  | _ :: tr' => requests tr'
  end.

(** ** Ideal timers *)

(** The armed timeout with the least deadline, the one armed first among
    equals. *)
Fixpoint earliest (l : list (positive * Z)) : option (positive * Z) :=
  match l with
  | [] => None
  | p :: l' =>
      match earliest l' with
      | Some q => if snd p <=? snd q then Some p else Some q
      | None => Some p
      end
  end.

(** The clock moves to the next deadline, the timeout fires, and so on until
    none is due by [t]; at most [fuel] firings. *)
Fixpoint elapse (fuel : nat) (t : Z) (w : World) : World :=
  match fuel with
  | O => step (EvAdvance t) w
  | S fuel' =>
      match earliest (timers w) with
      | Some (h, deadline) =>
          if deadline <=? t
          then elapse fuel' t (step (EvTimer h) (step (EvAdvance deadline) w))
          else step (EvAdvance t) w
      | None => step (EvAdvance t) w
      end
  end.

(** The clock runs to [t] with nothing else happening: every timeout due by
    then fires at its deadline, in order.  The callback arms no timeout, so
    there are no more firings than timeouts armed at the start. *)
Definition advanceTo (t : Z) (w : World) : World :=
  elapse (length (timers w)) t w.

(** ** Sessions *)

(** Promises whose code neither starts nor tears down a session. *)
Definition benign (k : Task) : bool :=
  match k with
  | SessionThen _ | AudioThen _ _ | FeedbackGenerate _ => true
  | _ => false
  end.

(** What happens while a session stays up: anything but a call of [connect]
    or [disconnect] and the [onclose] and [onerror] callbacks. *)
Definition inSession (e : Event) : bool :=
  match e with
  | EvConnect _ | EvDisconnect | EvClose | EvError => false
  | _ => true
  end.

(** ** Scenarios *)

(** A connected world: session 4 is active, the processor created by
    [onopen] is 5. *)
Definition connected : World :=
  run [EvConnect true; EvSettle 0 (Fulfilled None); EvSettle 0 (Fulfilled None);
       EvSettle 0 (Fulfilled None); EvOpen 4] (initial true 0).

(** A fresh hook to which one finalized Turn has been given. *)
Definition oneTurn : World :=
  setTurns (fun _ => [mkTurn (lit "1") (lit "Hallo") [] false 1]) (initial true 5).

(** On a connected session, a fragment of one space, then three seconds of
    silence. *)
Definition blankFragment : World :=
  run [EvMessage (Some (lit " ")); EvAdvance 3000] connected.

(** On a connected session, a paragraph has been finalized and its analysis
    requested. *)
Definition awaitingFeedback : World :=
  run [EvMessage (Some (lit "Hallo")); EvAdvance 3000; EvTimer 1] connected.

(** The Turn created at time 0 in [w0] is open: the clock shows [t], [buffer]
    has been accumulated, and the timeout armed by the last fragment has
    handle [h]. *)
Definition accumulating (w0 : World) (t : Z) (buffer : jsstring) (h : positive) : World :=
  mkWorld (status w0) [mkTurn (lit "0") [] [] false 0] (audioAnalyser w0)
          (mkRefs (audioContextRef (refs w0)) (streamRef (refs w0))
                  (processorRef (refs w0)) (sourceRef (refs w0))
                  (activeSessionRef (refs w0)) (Some (lit "0")) buffer (Some h))
          t (apiKey w0) [(h, t + 3000)] (Pos.succ h) (nextObject w0)
          (closedContexts w0) (sessions w0) (processors w0) (pending w0)
          (trace w0 ++ [LogStarted (lit "0")]).

(** * The transcript card and the application shell

    [TranscriptCard] (components/TranscriptCard.tsx) and the parts of [App]
    that read or drive the hook (App.tsx).  What a component renders is
    represented by a value that keeps the choices the component makes and
    the text it shows, not the markup. *)

(** ** The string operations the card uses *)

(** [String.prototype.startsWith] *)
Fixpoint startsWith (searchString s : jsstring) : bool :=
  match searchString, s with
  | [], _ => true
  | c :: p, x :: s' => (x =? c)%N && startsWith p s'
  | _ :: _, [] => false
  end.

(** [String.prototype.includes] *)
Fixpoint includes (searchString s : jsstring) : bool :=
  match s with
  | [] => startsWith searchString []
  | _ :: s' => startsWith searchString s || includes searchString s'
  end.

(** [String.prototype.split] for a separator of one code unit: the pieces
    between the separators, empty pieces included. *)
Fixpoint split (separator : N) (s : jsstring) : list jsstring :=
  match s with
  | [] => [[]]
  | c :: s' =>
      if (c =? separator)%N then [] :: split separator s'
      else match split separator s' with
           | piece :: pieces => (c :: piece) :: pieces
           | [] => [[c]]
           end
  end.

(** The regular expressions of the card are a sequence of characters, some
    of them optional ([c?]). *)
Inductive Atom :=
| Chr (c : N)
| Opt (c : N).

(** A match of the pattern at the start of [s], the text after the match.
    An optional character is taken when it is there and the rest of the
    pattern then matches; otherwise it is skipped. *)
Fixpoint matchHere (pattern : list Atom) (s : jsstring) : option jsstring :=
  match pattern with
  | [] => Some s
  | Chr c :: pattern' =>
      match s with
      | x :: s' => if (x =? c)%N then matchHere pattern' s' else None
      | [] => None
      end
  | Opt c :: pattern' =>
      match match s with
            | x :: s' => if (x =? c)%N then matchHere pattern' s' else None
            | [] => None
            end with
      | Some rest => Some rest
      | None => matchHere pattern' s
      end
  end.

(** [s.replace (pattern, '')]: the leftmost match is removed; without a match
    the string is returned as it is. *)
Fixpoint replace (pattern : list Atom) (s : jsstring) : jsstring :=
  match matchHere pattern s with
  | Some rest => rest
  | None =>
      match s with
      | [] => []
      | x :: s' => x :: replace pattern s'
      end
  end.

(** [/-? ?label:/] *)
Definition labelPattern (label : string) : list Atom :=
  Opt 45 :: Opt 32 :: map Chr (lit label).

(** ** TranscriptCard.tsx *)

Inductive Label := ErrorLabel | CorrectLabel | NativeLabel.

(** The elements [formatFeedback] produces; [key] is the React key. *)
Inductive Element :=
| Heading (key : nat)
| Labelled (key : nat) (label : Label) (body : jsstring)
| Line (key : nat) (line : jsstring).

(** The callback [formatFeedback] maps over the sections; [None] is
    [null]. *)
Definition formatLine (idx : nat) (line : jsstring) : option Element :=
  if startsWith (lit "Transcript:") line then None
  else if startsWith (lit "Feedback:") line then Some (Heading idx)
  else if includes (lit "Error explanation") line then
    Some (Labelled idx ErrorLabel
            (trim (replace (labelPattern "Error explanation (English):") line)))
  else if includes (lit "Corrected version") line then
    Some (Labelled idx CorrectLabel
            (trim (replace (labelPattern "Corrected version (German):") line)))
  else if includes (lit "Improved natural version") line then
    Some (Labelled idx NativeLabel
            (trim (replace (labelPattern "Improved natural version (German):") line)))
  else Some (Line idx line).

(** What [formatFeedback] returns: one paragraph that shows the text as it
    is, or one entry per section. *)
Inductive Formatted :=
| Paragraph (text : jsstring)
| Sections (entries : list (option Element)).

Definition formatFeedback (text : jsstring) : Formatted :=
  let sections :=
    List.filter (fun line => negb (bool_decide (trim line = []))) (split 10 text) in
  let isStructured :=
    includes (lit "Transcript:") text && includes (lit "Feedback:") text in
  if negb isStructured then Paragraph text
  else Sections (imap formatLine sections).

(** The feedback bubble: it pulses or not, and shows the formatted response
    or, with [None], the three bouncing dots. *)
Record FeedbackBubble := mkFeedbackBubble {
  pulse : bool;
  content : option Formatted
}.

(** The card: whether it is at full opacity, the transcript in the user
    bubble ([None] is the placeholder 'Listening...'), and the feedback
    bubble if there is one. *)
Record Card := mkCard {
  highlighted : bool;
  userBubble : option jsstring;
  feedbackBubble : option FeedbackBubble
}.

Definition TranscriptCard (turn : Turn) (isCurrent : bool) : Card :=
  {| highlighted := isCurrent;
     userBubble := if truthy (userTranscript turn)
                   then Some (userTranscript turn) else None;
     feedbackBubble :=
       if truthy (modelResponse turn) || isCurrent then
         Some {| pulse := isCurrent && negb (truthy (modelResponse turn));
                 content := if truthy (modelResponse turn)
                            then Some (formatFeedback (modelResponse turn))
                            else None |}
       else None |}.

(** ** App.tsx *)

(** [turns.map ((turn, index) => <TranscriptCard key turn isCurrent />)]:
    each card with its key. *)
Definition cards (turns : list Turn) : list (jsstring * Card) :=
  imap (fun index turn =>
          (id turn,
           TranscriptCard turn
             (Nat.eqb index (length turns - 1) && negb (isComplete turn))))
       turns.

(** [handleToggleConnection]; [constructed] is passed on to [connect]. *)
Definition handleToggleConnection (constructed : bool) (w : World) : World :=
  match status w with
  | CONNECTED | CONNECTING => disconnect w
  | _ => connect constructed w
  end.

(** A click on the control button, which is disabled while the state is
    CONNECTING. *)
Definition click (constructed : bool) (w : World) : World :=
  match status w with
  | CONNECTING => w
  | _ => handleToggleConnection constructed w
  end.

(** ** What the card shows *)

(** The React key of an element. *)
Definition key (e : Element) : nat :=
  match e with
  | Heading k | Labelled k _ _ | Line k _ => k
  end.

(** What the optional part of a label pattern can match. *)
Definition bullets : list jsstring := [lit "- "; lit "-"; lit " "; []].

(** [Array.prototype.join] with a separator of one code unit. *)
Fixpoint join (separator : N) (pieces : list jsstring) : jsstring :=
  match pieces with
  | [] => []
  | [piece] => piece
  | piece :: pieces' => piece ++ separator :: join separator pieces'
  end.

(** A reply in the structured format: the transcript line, the heading and
    the three labelled lines. *)
Definition structuredReply (t e c n : jsstring) : jsstring :=
  join 10 [lit "Transcript:" ++ t;
           lit "Feedback:";
           lit "- " ++ lit "Error explanation (English):" ++ e;
           lit "- " ++ lit "Corrected version (German):" ++ c;
           lit "- " ++ lit "Improved natural version (German):" ++ n].

(** ** Turns over time *)

(** A Turn is complete exactly when it has a response. *)
Definition settled (t : Turn) : Prop := isComplete t = truthy (modelResponse t).

(** [w'] has the credential of [w] and has made the analysis requests of
    [w], no other. *)
Definition keeps (w w' : World) : Prop :=
  apiKey w' = apiKey w /\ requests (trace w') = requests (trace w).

(** The sessions on which [close ()] was called, in the order of the
    calls. *)
Fixpoint sessionCloses (tr : list Effect) : list nat :=
  match tr with
  | [] => []
  | SessionClose s :: tr' => s :: sessionCloses tr'
  | _ :: tr' => sessionCloses tr'
  end.

(** ** What holds of the hook at all times *)

(** The ids are decimal numerals, in non-decreasing order along the
    sequence. *)
Definition ascending (l : list Turn) : Prop :=
  forall (m n : nat) (a b : Turn) (ca cb : Z),
    l !! m = Some a -> l !! n = Some b -> (m < n)%nat ->
    id a = toString ca -> id b = toString cb -> ca <= cb.

(** Every id is the decimal of a clock reading that is not in the future,
    and in the past if the Turn has its transcript; the ids are in order; no
    timeout is armed but the one whose handle is tracked, and at most one is;
    a tracked id is the decimal of a reading [ts0] that is not in the future,
    earlier than the deadline of the armed timeout and later than the reading
    of every Turn that has its transcript, and it is the id of some Turn. *)
Record Coherent (w : World) : Prop := {
  co_ids : forall t, In t (turns w) ->
             exists c, id t = toString c /\ c <= now w
                       /\ (userTranscript t <> [] -> c < now w);
  co_sorted : ascending (turns w);
  co_timers : forall p, In p (timers w) -> silenceTimerRef (refs w) = Some (fst p);
  co_single : (length (timers w) <= 1)%nat;
  co_tracked : forall i, currentTurnIdRef (refs w) = Some i ->
                 exists ts0, i = toString ts0 /\ ts0 <= now w
                   /\ (forall p, In p (timers w) -> ts0 < snd p)
                   /\ In i (map id (turns w))
                   /\ forall t c, In t (turns w) -> id t = toString c ->
                                  userTranscript t <> [] -> c < ts0
}.

(** A Turn without its transcript is the last one and the tracked one. *)
Definition tidy (w : World) : Prop :=
  forall (n : nat) (t : Turn),
    turns w !! n = Some t -> userTranscript t = [] ->
    S n = length (turns w) /\ currentTurnIdRef (refs w) = Some (id t).

(** [w'] has the turns and the clock of [w]; the tracked id is the one of
    [w] or none; the timeouts and the tracked handle are those of [w], or no
    handle is tracked and no timeout that [w] tracked is armed. *)
Definition calm (w w' : World) : Prop :=
  turns w' = turns w /\ now w' = now w
  /\ (currentTurnIdRef (refs w') = currentTurnIdRef (refs w)
      \/ currentTurnIdRef (refs w') = None)
  /\ ((timers w' = timers w /\ silenceTimerRef (refs w') = silenceTimerRef (refs w))
      \/ (silenceTimerRef (refs w') = None
          /\ forall p, In p (timers w') ->
               In p (timers w) /\ silenceTimerRef (refs w) <> Some (fst p))).

(** ** Audio on a session *)

(** The payloads sent on session [s] so far. *)
Fixpoint sentOn (s : nat) (tr : list Effect) : list jsstring :=
  match tr with
  | [] => []
  | SendRealtimeInput s' pcmBlob :: tr' =>
      if Nat.eqb s' s then pcmBlob :: sentOn s tr' else sentOn s tr'
  | _ :: tr' => sentOn s tr'
  end.

(** Session [s] has been created, and the callback that stores it in
    [activeSessionRef] has run or will never run. *)
Definition allocated (s : nat) (w : World) : Prop :=
  ~ In (SessionThen s) (pending w) /\ (s < nextObject w)%nat.

(** From [w] to [w'] session [s] stays as [allocated] has it; and if it was
    not the active one it is not the active one now, and nothing was sent on
    it in between. *)
Definition stale (s : nat) (w w' : World) : Prop :=
  allocated s w ->
  allocated s w'
  /\ (activeSessionRef (refs w) <> Some s ->
      activeSessionRef (refs w') <> Some s
      /\ sentOn s (trace w') = sentOn s (trace w)).

(** ** Sessions without a teardown *)

(** From [w] to [w'] the turn sequence and the tracked id are the same. *)
Definition steady (w w' : World) : Prop :=
  turns w' = turns w /\ currentTurnIdRef (refs w') = currentTurnIdRef (refs w).

(** The fragment an event delivers, if it is a message. *)
Definition fragment (e : Event) : option jsstring :=
  match e with
  | EvMessage inputTxt | EvMessageLate inputTxt _ => inputTxt
  | _ => None
  end.

(** * Properties *)

(** ** Blank strings *)

Lemma trimStart_nil_iff s : trimStart s = [] <-> blank s = true.
Proof.
  induction s as [|c s IH]; simpl; [tauto|].
  destruct (isWhiteSpace c); simpl; [exact IH|]. split; discriminate.
Qed.

Lemma trimStart_keeps s s' c :
  isWhiteSpace c = false -> trimStart (s ++ c :: s') <> [].
Proof.
  intros Hc. induction s as [|d s IH]; simpl.
  - rewrite Hc. discriminate.
  - destruct (isWhiteSpace d); [exact IH | discriminate].
Qed.

Lemma trimStart_head s c s' : trimStart s = c :: s' -> isWhiteSpace c = false.
Proof.
  induction s as [|d s IH]; simpl; [discriminate|].
  destruct (isWhiteSpace d) eqn:Hd; [exact IH | congruence].
Qed.

Lemma trim_nil_iff s : trim s = [] <-> blank s = true.
Proof.
  rewrite <- trimStart_nil_iff. unfold trim, trimEnd.
  destruct (trimStart s) as [|c s'] eqn:E; [simpl; tauto|].
  split; [|discriminate]. intros H. exfalso.
  apply (f_equal (@rev N)) in H. rewrite rev_involutive in H. simpl in H.
  revert H. apply trimStart_keeps. eapply trimStart_head, E.
Qed.

Lemma truthy_trim s : truthy (trim s) = negb (blank s).
Proof.
  destruct (blank s) eqn:E.
  - apply trim_nil_iff in E. rewrite E. reflexivity.
  - destruct (trim s) eqn:T; [|reflexivity].
    apply trim_nil_iff in T. congruence.
Qed.

Lemma blank_nil_false s : blank s = false -> s <> [].
Proof. intros H ->. discriminate H. Qed.

(** ** Turn ids *)

Lemma lit_inj s s' : lit s = lit s' -> s = s'.
Proof.
  unfold lit. intros H.
  rewrite <- (string_of_list_ascii_of_string s), <- (string_of_list_ascii_of_string s').
  f_equal. revert H. generalize (list_ascii_of_string s') as l'.
  induction (list_ascii_of_string s) as [|a l IH]; intros [|a' l']; simpl;
    try discriminate; [reflexivity|].
  intros [= Ha Hl]. f_equal; [|apply IH, Hl].
  rewrite <- (ascii_N_embedding a), <- (ascii_N_embedding a'). congruence.
Qed.

Lemma to_int_nonnil (a : Z) :
  Z.to_int a <> Decimal.Pos Decimal.Nil /\ Z.to_int a <> Decimal.Neg Decimal.Nil.
Proof.
  destruct a as [|p|p]; simpl; split; try discriminate;
    intros [= H]; exact (DecimalPos.Unsigned.to_uint_nonnil p H).
Qed.

Lemma to_int_parses (a : Z) :
  NilZero.int_of_string (NilZero.string_of_int (Z.to_int a)) = Some (Z.to_int a).
Proof. apply NilZero.isi; apply to_int_nonnil. Qed.

Lemma toString_inj a b : toString a = toString b -> a = b.
Proof.
  unfold toString. intros H. apply lit_inj in H.
  apply DecimalZ.to_int_inj.
  assert (Some (Z.to_int a) = Some (Z.to_int b)) as E; [|congruence].
  rewrite <- (to_int_parses a), <- (to_int_parses b), H. reflexivity.
Qed.

Lemma toString_truthy a : truthy (toString a) = true.
Proof.
  destruct (toString a) eqn:E; [|reflexivity]. exfalso.
  unfold toString in E. change (@nil N) with (lit "") in E. apply lit_inj in E.
  pose proof (to_int_parses a) as H. rewrite E in H. discriminate H.
Qed.

(** ** findIndex and updateTurn *)

Section FindIndex.

Context {A : Type} (p : A -> bool).

Lemma findIndex_range (l : list A) :
  -1 <= findIndex p l < Z.of_nat (length l).
Proof.
  induction l as [|x l IH]; simpl; [lia|].
  destruct (p x); [lia|].
  destruct (Z.eqb_spec (findIndex p l) (-1)); lia.
Qed.

Lemma findIndex_absent (l : list A) :
  findIndex p l = -1 <-> Forall (fun x => p x = false) l.
Proof.
  induction l as [|x l IH]; simpl.
  - split; [constructor | reflexivity].
  - destruct (p x) eqn:Hx.
    + split; [lia | intros HF; inversion HF; congruence].
    + pose proof (findIndex_range l).
      destruct (Z.eqb_spec (findIndex p l) (-1)) as [E|E].
      * split; [intros _; constructor; [exact Hx | apply IH, E] | reflexivity].
      * split; [lia | intros HF; inversion HF; subst; tauto].
Qed.

Lemma findIndex_found (l : list A) :
  findIndex p l <> -1 ->
  exists x, l !! Z.to_nat (findIndex p l) = Some x /\ p x = true.
Proof.
  induction l as [|x l IH]; simpl; [lia|].
  destruct (p x) eqn:Hx.
  - intros _. exists x. split; [reflexivity | exact Hx].
  - pose proof (findIndex_range l).
    destruct (Z.eqb_spec (findIndex p l) (-1)) as [E|E]; [lia|].
    intros _. destruct (IH E) as (y & Hy & Hp). exists y. split; [|exact Hp].
    replace (Z.to_nat (findIndex p l + 1)) with (S (Z.to_nat (findIndex p l))) by lia.
    exact Hy.
Qed.

Lemma findIndex_first (l : list A) (n : nat) (x : A) :
  l !! n = Some x -> Z.of_nat n < findIndex p l -> p x = false.
Proof.
  revert n. induction l as [|y l IH]; intros n; simpl; [discriminate|].
  destruct (p y) eqn:Hy.
  - lia.
  - pose proof (findIndex_range l).
    destruct (Z.eqb_spec (findIndex p l) (-1)) as [E|E]; [lia|].
    destruct n as [|n]; simpl.
    + intros [= <-] _. exact Hy.
    + intros Hn Hlt. apply (IH n Hn). lia.
Qed.

End FindIndex.

Lemma jsstring_eqb_eq (a b : jsstring) : jsstring_eqb a b = true <-> a = b.
Proof. unfold jsstring_eqb. apply bool_decide_eq_true. Qed.

Lemma jsstring_eqb_neq (a b : jsstring) : jsstring_eqb a b = false <-> a <> b.
Proof. unfold jsstring_eqb. apply bool_decide_eq_false. Qed.

Lemma updateTurn_length i u prev : length (updateTurn i u prev) = length prev.
Proof.
  unfold updateTurn. destruct (_ =? -1); [reflexivity | apply length_alter].
Qed.

Lemma updateTurn_unknown i u prev :
  ~ In i (map id prev) -> updateTurn i u prev = prev.
Proof.
  intros Hn. unfold updateTurn.
  destruct (Z.eqb_spec (findIndex (fun t => jsstring_eqb (id t) i) prev) (-1)) as [E|E];
    [reflexivity|].
  destruct (findIndex_found _ _ E) as (t & Ht & Hi).
  apply jsstring_eqb_eq in Hi. exfalso. apply Hn. apply in_map_iff.
  exists t. split; [exact Hi|]. apply list_elem_of_In. eapply list_elem_of_lookup_2, Ht.
Qed.

(** What [updateTurn] leaves at each position. *)
Lemma updateTurn_lookup i u prev (n : nat) (t : Turn) :
  prev !! n = Some t ->
  updateTurn i u prev !! n
  = Some (if decide (target i prev = Z.of_nat n) then spread t u else t).
Proof.
  intros Hn. unfold updateTurn, target.
  pose proof (findIndex_range (fun t => jsstring_eqb (id t) i) prev) as Hr.
  destruct (Z.eqb_spec (findIndex (fun t => jsstring_eqb (id t) i) prev) (-1)) as [E|E].
  - rewrite E. destruct (decide _) as [D|D]; [lia | exact Hn].
  - destruct (decide _) as [D|D].
    + rewrite D, Nat2Z.id. rewrite list_lookup_alter_eq, Hn. reflexivity.
    + rewrite list_lookup_alter_ne by lia. exact Hn.
Qed.

Lemma target_id i prev (n : nat) (t : Turn) :
  prev !! n = Some t -> target i prev = Z.of_nat n -> id t = i.
Proof.
  intros Hn E. unfold target in E.
  assert (findIndex (fun t => jsstring_eqb (id t) i) prev <> -1) as Hne by lia.
  destruct (findIndex_found _ _ Hne) as (t' & Ht' & Hi).
  rewrite E, Nat2Z.id, Hn in Ht'. injection Ht' as <-.
  apply jsstring_eqb_eq, Hi.
Qed.

Lemma updateTurn_ids i u prev :
  p_id u = None -> map id (updateTurn i u prev) = map id prev.
Proof.
  intros Hu. apply list_eq. intros n.
  change (map id) with (fmap (M:=list) id). rewrite !list_lookup_fmap.
  destruct (prev !! n) as [t|] eqn:Hn.
  - rewrite (updateTurn_lookup _ _ _ _ _ Hn). simpl.
    destruct (decide _); [|reflexivity].
    unfold spread. simpl. rewrite Hu. reflexivity.
  - replace (updateTurn i u prev !! n) with (@None Turn); [reflexivity|].
    symmetry. apply lookup_ge_None. rewrite updateTurn_length.
    apply lookup_ge_None, Hn.
Qed.

Lemma updateTurn_cons i u x l :
  updateTurn i u (x :: l)
  = if jsstring_eqb (id x) i then spread x u :: l else x :: updateTurn i u l.
Proof.
  unfold updateTurn. simpl.
  pose proof (findIndex_range (fun t => jsstring_eqb (id t) i) l) as Hr.
  destruct (jsstring_eqb (id x) i); [reflexivity|].
  destruct (Z.eqb_spec (findIndex (fun t => jsstring_eqb (id t) i) l) (-1)) as [E|E];
    [reflexivity|].
  destruct (Z.eqb_spec (findIndex (fun t => jsstring_eqb (id t) i) l + 1) (-1)); [lia|].
  replace (Z.to_nat (findIndex (fun t => jsstring_eqb (id t) i) l + 1))
    with (S (Z.to_nat (findIndex (fun t => jsstring_eqb (id t) i) l))) by lia.
  reflexivity.
Qed.

(** With distinct ids, [updateTurn] rewrites the Turn that has the id. *)
Lemma updateTurn_map i u l :
  List.NoDup (map id l) ->
  updateTurn i u l = map (fun t => if jsstring_eqb (id t) i then spread t u else t) l.
Proof.
  induction l as [|x l IH]; [reflexivity|].
  simpl. intros Hnd. apply NoDup_cons_iff in Hnd as [Hx Hnd].
  rewrite updateTurn_cons. destruct (jsstring_eqb (id x) i) eqn:E.
  - f_equal. apply jsstring_eqb_eq in E. subst i.
    clear IH Hnd. induction l as [|y l IH]; [reflexivity|]. simpl in *.
    destruct (jsstring_eqb (id y) (id x)) eqn:Ey.
    + apply jsstring_eqb_eq in Ey. tauto.
    + f_equal. apply IH. tauto.
  - f_equal. apply IH, Hnd.
Qed.

Lemma updateTurn_written response turnId l :
  In turnId (map id l) ->
  written response turnId l (updateTurn turnId (feedbackUpdate response) l).
Proof.
  intros Hin. unfold written, updateTurn.
  pose proof (findIndex_range (fun t => jsstring_eqb (id t) turnId) l) as Hr.
  destruct (Z.eqb_spec (findIndex (fun t => jsstring_eqb (id t) turnId) l) (-1)) as [E|E].
  - exfalso. apply findIndex_absent in E. apply in_map_iff in Hin as (t & Ht & Hin).
    rewrite Forall_forall in E. apply list_elem_of_In in Hin. specialize (E t Hin).
    apply jsstring_eqb_neq in E. congruence.
  - destruct (findIndex_found _ _ E) as (t & Ht & Hi).
    exists (Z.to_nat (findIndex (fun t => jsstring_eqb (id t) turnId) l)), t.
    split; [exact Ht|]. split; [apply jsstring_eqb_eq, Hi|]. split.
    + intros m u Hm Hlt. apply jsstring_eqb_neq.
      apply (findIndex_first (fun t => jsstring_eqb (id t) turnId) l m u Hm). lia.
    + apply list_eq. intros m.
      destruct (decide (m = Z.to_nat (findIndex (fun t => jsstring_eqb (id t) turnId) l)))
        as [->|Hne].
      * rewrite list_lookup_alter_eq, Ht.
        rewrite list_lookup_insert_eq by (eapply lookup_lt_Some, Ht). reflexivity.
      * rewrite list_lookup_alter_ne, list_lookup_insert_ne by congruence. reflexivity.
Qed.

(** C9, in the form that holds of the code.  For every turn sequence, id and
    updates, [updateTurn] keeps the length of the sequence and leaves every
    position but the one it writes to with the Turn it held, hence inserts,
    deletes and reorders nothing; it keeps the list of ids when the updates
    carry no [id] key (every object literal the hook passes is of this kind);
    and when no Turn has the given id the sequence comes back as it was. *)
Theorem C9_updateTurn_preserves_sequence
    (prev : list Turn) (i : jsstring) (updates : PartialTurn) :
  length (updateTurn i updates prev) = length prev
  /\ (forall (n : nat) (t : Turn), prev !! n = Some t ->
        updateTurn i updates prev !! n
        = Some (if decide (target i prev = Z.of_nat n) then spread t updates else t))
  /\ (p_id updates = None -> map id (updateTurn i updates prev) = map id prev)
  /\ (~ In i (map id prev) -> updateTurn i updates prev = prev).
Proof.
  split; [apply updateTurn_length|].
  split; [apply updateTurn_lookup|].
  split; [apply updateTurn_ids | apply updateTurn_unknown].
Qed.

Lemma C9_witness :
  let prev := [mkTurn (lit "1") [] [] false 1; mkTurn (lit "2") [] [] false 2] in
  let updates := feedbackUpdate (lit "ok") in
  (updateTurn (lit "2") updates prev !! 0%nat = Some (mkTurn (lit "1") [] [] false 1)
   /\ updateTurn (lit "2") updates prev !! 1%nat
      = Some (mkTurn (lit "2") [] (lit "ok") true 2))
  /\ map id (updateTurn (lit "2") updates prev) = map id prev
  /\ updateTurn (lit "3") updates prev = prev.
Proof.
  intros prev updates.
  destruct (C9_updateTurn_preserves_sequence prev (lit "2") updates)
    as (_ & Hpos & Hids & _).
  destruct (C9_updateTurn_preserves_sequence prev (lit "3") updates)
    as (_ & _ & _ & Hunknown).
  split; [split|split].
  - exact (Hpos 0%nat (mkTurn (lit "1") [] [] false 1) eq_refl).
  - exact (Hpos 1%nat (mkTurn (lit "2") [] [] false 2) eq_refl).
  - apply Hids. reflexivity.
  - apply Hunknown. vm_compute. intros [H|[H|[]]]; discriminate H.
Defined.

(** Updates that carry an [id] key replace the id of the Turn they reach. *)
Lemma C9_counterexample :
  let prev := [mkTurn (lit "1") [] [] false 1; mkTurn (lit "2") [] [] false 2] in
  let updates := mkPartial (Some (lit "3")) None None None None in
  map id prev = [lit "1"; lit "2"]
  /\ map id (updateTurn (lit "1") updates prev) = [lit "3"; lit "2"].
Proof. split; reflexivity. Qed.

(** ** Which handlers touch the turn sequence *)

Ltac same_turns lemmas :=
  intros; repeat case_match; rewrite ?lemmas; reflexivity.

Lemma disconnect_reset_turns w : turns (disconnect_reset w) = turns w.
Proof. reflexivity. Qed.

Lemma disconnect_afterContextClose_turns r w :
  turns (disconnect_afterContextClose r w) = turns w.
Proof. destruct r; reflexivity. Qed.

Lemma disconnect_release_turns w : turns (disconnect_release w) = turns w.
Proof.
  unfold disconnect_release, disconnect_closeContext, disconnect_source,
    disconnect_processor, disconnect_stopStream.
  same_turns disconnect_reset_turns.
Qed.

Lemma disconnect_afterSessionClose_turns r w :
  turns (disconnect_afterSessionClose r w) = turns w.
Proof.
  unfold disconnect_afterSessionClose. rewrite disconnect_release_turns.
  destruct r; reflexivity.
Qed.

Lemma disconnect_turns w : turns (disconnect w) = turns w.
Proof.
  unfold disconnect, disconnect_clearTimers.
  same_turns disconnect_release_turns.
Qed.

Lemma connect_catch_turns w : turns (connect_catch w) = turns w.
Proof. unfold connect_catch. simpl. rewrite disconnect_turns. reflexivity. Qed.

Lemma connect_turns b w : turns (connect b w) = turns w.
Proof. unfold connect. same_turns connect_catch_turns. Qed.

Lemma connect_afterResume_turns c r w : turns (connect_afterResume c r w) = turns w.
Proof. unfold connect_afterResume. same_turns connect_catch_turns. Qed.

Lemma connect_afterGetUserMedia_turns c r w :
  turns (connect_afterGetUserMedia c r w) = turns w.
Proof. unfold connect_afterGetUserMedia. same_turns connect_catch_turns. Qed.

Lemma onopen_turns s w : turns (onopen s w) = turns w.
Proof. reflexivity. Qed.

Lemma onclose_turns w : turns (onclose w) = turns w.
Proof. unfold onclose. same_turns disconnect_turns. Qed.

Lemma onerror_turns w : turns (onerror w) = turns w.
Proof. unfold onerror. simpl. rewrite disconnect_turns. reflexivity. Qed.

Lemma onaudioprocess_turns s b w : turns (onaudioprocess s b w) = turns w.
Proof. unfold onaudioprocess. same_turns disconnect_turns. Qed.

Lemma sendBlock_turns s b w : turns (sendBlock s b w) = turns w.
Proof. unfold sendBlock. same_turns disconnect_turns. Qed.

Lemma fetchGrammarFeedback_turns text turnId w :
  turns (fetchGrammarFeedback text turnId w) = turns w.
Proof. unfold fetchGrammarFeedback. same_turns disconnect_turns. Qed.

Lemma afterGenerate_turns turnId r w :
  turns (fetchGrammarFeedback_afterGenerate turnId r w) = turns w
  \/ exists response,
       turns (fetchGrammarFeedback_afterGenerate turnId r w)
       = updateTurn turnId (feedbackUpdate response) (turns w).
Proof.
  unfold fetchGrammarFeedback_afterGenerate.
  destruct r as [[feedback|]|]; [destruct (truthy feedback)| |]; eauto.
Qed.

Lemma silenceTimeout_turns w :
  turns (silenceTimeout w) = turns w
  \/ exists turnId,
       currentTurnIdRef (refs w) = Some turnId
       /\ truthy (trim (currentInputTransRef (refs w))) = true
       /\ turns (silenceTimeout w)
          = updateTurn turnId (transcriptUpdate (currentInputTransRef (refs w))) (turns w).
Proof.
  unfold silenceTimeout.
  destruct (currentTurnIdRef (refs w)) as [turnId|]; [|left; reflexivity].
  destruct (truthy turnId); [|left; reflexivity].
  destruct (truthy (trim _)) eqn:E; [|left; reflexivity].
  right. exists turnId. simpl. rewrite fetchGrammarFeedback_turns. auto.
Qed.

Lemma onmessage_turns inputTxt rendered w :
  turns (onmessage inputTxt rendered w) = turns w
  \/ (truthy_opt (currentTurnIdRef (refs w)) = false
      /\ turns (onmessage inputTxt rendered w)
         = createTurn (toString (now w)) rendered (turns w)).
Proof.
  unfold onmessage.
  destruct inputTxt as [txt|]; [|left; reflexivity].
  destruct (truthy txt); [|left; reflexivity].
  destruct (silenceTimerRef (refs w)); simpl;
    destruct (truthy_opt (currentTurnIdRef (refs w))); simpl; auto.
Qed.

(** ** Identity and creation time of a Turn *)

Lemma identity_stable_refl l : identity_stable l l.
Proof. intros n t H. eauto. Qed.

Lemma identity_stable_eq l l' : l' = l -> identity_stable l l'.
Proof. intros ->. apply identity_stable_refl. Qed.

Lemma identity_stable_createTurn i ts l : identity_stable l (createTurn i ts l).
Proof.
  intros n t H. exists t. unfold createTurn.
  rewrite lookup_app_l by (eapply lookup_lt_Some, H). auto.
Qed.

Lemma identity_stable_updateTurn i u l :
  p_id u = None -> p_timestamp u = None -> identity_stable l (updateTurn i u l).
Proof.
  intros Hi Ht n t H. rewrite (updateTurn_lookup _ _ _ _ _ H).
  eexists. split; [reflexivity|].
  destruct (decide _); [|auto]. unfold spread. simpl. rewrite Hi, Ht. auto.
Qed.

Lemma settle_turns k r w :
  turns (settle k r w) = turns w
  \/ exists turnId response,
       turns (settle k r w) = updateTurn turnId (feedbackUpdate response) (turns w).
Proof.
  destruct k; simpl.
  - left. apply connect_afterResume_turns.
  - left. apply connect_afterGetUserMedia_turns.
  - left. destruct r; reflexivity.
  - left. destruct r; [apply sendBlock_turns | reflexivity].
  - left. apply disconnect_afterSessionClose_turns.
  - left. destruct r; rewrite disconnect_afterContextClose_turns; reflexivity.
  - destruct (afterGenerate_turns turnId r w) as [E|[response E]]; eauto.
Qed.

Lemma step_identity_stable e w : identity_stable (turns w) (turns (step e w)).
Proof.
  destruct e; simpl.
  - apply identity_stable_refl.
  - apply identity_stable_eq, connect_turns.
  - apply identity_stable_eq, disconnect_turns.
  - destruct (pending w !! n) as [k|]; [|apply identity_stable_refl].
    destruct (settle_turns k r (set_pending (delete n (pending w)) w))
      as [E|(turnId & response & E)]; rewrite E; simpl.
    + apply identity_stable_refl.
    + apply identity_stable_updateTurn; reflexivity.
  - destruct (assoc _ _ _); [|apply identity_stable_refl].
    apply identity_stable_eq, onopen_turns.
  - destruct (onmessage_turns inputTxt (now w) w) as [E|[_ E]]; rewrite E.
    + apply identity_stable_refl.
    + apply identity_stable_createTurn.
  - apply identity_stable_eq, onclose_turns.
  - apply identity_stable_eq, onerror_turns.
  - destruct (assoc _ _ _); [|apply identity_stable_refl].
    apply identity_stable_eq, onaudioprocess_turns.
  - destruct (assoc _ _ _) as [deadline|]; [|apply identity_stable_refl].
    destruct (deadline <=? now w); [|apply identity_stable_refl].
    destruct (silenceTimeout_turns (clearTimeout h w)) as [E|(turnId & _ & _ & E)];
      rewrite E.
    + apply identity_stable_refl.
    + apply identity_stable_updateTurn; reflexivity.
  - change (turns (set_now ?r ?x)) with (turns x).
    destruct (onmessage_turns inputTxt (Z.max (now w) rendered) w) as [E|[_ E]];
      rewrite E.
    + apply identity_stable_refl.
    + apply identity_stable_createTurn.
Qed.

Lemma identity_stable_trans l1 l2 l3 :
  identity_stable l1 l2 -> identity_stable l2 l3 -> identity_stable l1 l3.
Proof.
  intros H12 H23 n t H. destruct (H12 n t H) as (t2 & H2 & Hi2 & Ht2).
  destruct (H23 n t2 H2) as (t3 & H3 & Hi3 & Ht3).
  exists t3. repeat split; congruence.
Qed.

Lemma run_identity_stable es w : identity_stable (turns w) (turns (run es w)).
Proof.
  revert w. induction es as [|e es IH]; intros w; simpl.
  - apply identity_stable_refl.
  - eapply identity_stable_trans; [apply step_identity_stable | apply IH].
Qed.

(** C8.  Whatever happens after a Turn exists, in any number and order of
    events, the Turn keeps its position, its id and its timestamp; and when
    an analysis call for [turnId] completes, every Turn keeps its id,
    timestamp and transcript, and a Turn that changed at all is the first one
    whose id is [turnId]. *)
Theorem C8_turn_identity_stable (w : World) (n : nat) (t : Turn) :
  turns w !! n = Some t ->
  (forall es : list Event, exists t',
      turns (run es w) !! n = Some t'
      /\ id t' = id t /\ timestamp t' = timestamp t)
  /\ (forall (turnId : jsstring) (r : Settle), exists t',
        turns (fetchGrammarFeedback_afterGenerate turnId r w) !! n = Some t'
        /\ id t' = id t /\ timestamp t' = timestamp t
        /\ userTranscript t' = userTranscript t
        /\ (t' <> t -> id t = turnId /\ target turnId (turns w) = Z.of_nat n)).
Proof.
  intros H. split.
  - intros es. apply run_identity_stable, H.
  - intros turnId r.
    destruct (afterGenerate_turns turnId r w) as [E|[response E]]; rewrite E.
    + exists t. repeat split; try assumption; try reflexivity; congruence.
    + rewrite (updateTurn_lookup _ _ _ _ _ H). eexists. split; [reflexivity|].
      destruct (decide _) as [D|D].
      * repeat split; try reflexivity; [eapply target_id; eassumption | exact D].
      * repeat split; try reflexivity; congruence.
Qed.

(** A third paragraph begins and is finalized while two analysis calls
    complete in the reverse order of their turns: each writes to its own
    Turn. *)
Lemma C8_witness :
  let w := setTurns (fun _ => [mkTurn (lit "1") (lit "eins") [] false 1;
                               mkTurn (lit "2") (lit "zwei") [] false 2])
                    (initial true 5) in
  (exists t', turns (run [EvMessage (Some (lit "drei")); EvAdvance 3005; EvTimer 1] w)
                !! 1%nat = Some t'
              /\ id t' = lit "2" /\ timestamp t' = 2)
  /\ turns (fetchGrammarFeedback_afterGenerate (lit "1") Rejected
              (fetchGrammarFeedback_afterGenerate (lit "2")
                 (Fulfilled (Some (lit "Feedback: b"))) w))
     = [mkTurn (lit "1") (lit "eins") errorFeedback true 1;
        mkTurn (lit "2") (lit "zwei") (lit "Feedback: b") true 2].
Proof.
  intros w. split.
  - apply (C8_turn_identity_stable w 1 (mkTurn (lit "2") (lit "zwei") [] false 2)).
    reflexivity.
  - reflexivity.
Defined.

(** ** The feedback call *)

Lemma requests_app tr tr' : requests (tr ++ tr') = requests tr ++ requests tr'.
Proof.
  induction tr as [|e tr IH]; [reflexivity|].
  destruct e; simpl; rewrite IH; reflexivity.
Qed.

(** C7, in the form that holds of the code.  With the credential present
    and text that is not blank the call issues one request and waits.  When
    the request fulfils with a non-empty text, that text is written into the
    Turn and the Turn is complete; when it rejects, the fixed error string is
    written and the Turn is complete; when it fulfils with no text or an
    empty one, nothing changes.  No outcome issues another request.  Without
    the credential, or with text that is empty after trimming, the call does
    nothing. *)
Theorem C7_analysis_outcomes (text turnId : jsstring) (w : World) :
  (apiKey w = false \/ trim text = [] -> fetchGrammarFeedback text turnId w = w)
  /\ (apiKey w = true -> trim text <> [] ->
      fetchGrammarFeedback text turnId w
      = suspend (FeedbackGenerate turnId) (emit (GenerateContent text) w))
  /\ (forall feedback, In turnId (map id (turns w)) -> feedback <> [] ->
        written feedback turnId (turns w)
          (turns (fetchGrammarFeedback_afterGenerate turnId
                    (Fulfilled (Some feedback)) w)))
  /\ (In turnId (map id (turns w)) ->
        written errorFeedback turnId (turns w)
          (turns (fetchGrammarFeedback_afterGenerate turnId Rejected w)))
  /\ fetchGrammarFeedback_afterGenerate turnId (Fulfilled None) w = w
  /\ fetchGrammarFeedback_afterGenerate turnId (Fulfilled (Some [])) w = w
  /\ (forall r, let w' := fetchGrammarFeedback_afterGenerate turnId r w in
                pending w' = pending w /\ requests (trace w') = requests (trace w)).
Proof.
  repeat split.
  - intros [H|H]; unfold fetchGrammarFeedback; rewrite H; simpl;
      [reflexivity | rewrite orb_true_r; reflexivity].
  - intros Hk Ht. unfold fetchGrammarFeedback. rewrite Hk.
    destruct (trim text); [congruence | reflexivity].
  - intros feedback Hin Hne. unfold fetchGrammarFeedback_afterGenerate.
    destruct feedback; [congruence|]. simpl. apply updateTurn_written, Hin.
  - intros Hin. simpl. apply updateTurn_written, Hin.
  - destruct r as [[feedback|]|]; simpl; try reflexivity.
    destruct (truthy feedback); reflexivity.
  - destruct r as [[feedback|]|]; simpl; try reflexivity.
    + destruct (truthy feedback); reflexivity.
    + rewrite requests_app. simpl. apply app_nil_r.
Qed.

Lemma C7_witness :
  fetchGrammarFeedback (lit "   ") (lit "1") oneTurn = oneTurn
  /\ pending (fetchGrammarFeedback (lit "Hallo") (lit "1") oneTurn)
     = [FeedbackGenerate (lit "1")]
  /\ written (lit "Feedback: ok") (lit "1") (turns oneTurn)
       (turns (fetchGrammarFeedback_afterGenerate (lit "1")
                 (Fulfilled (Some (lit "Feedback: ok"))) oneTurn))
  /\ written errorFeedback (lit "1") (turns oneTurn)
       (turns (fetchGrammarFeedback_afterGenerate (lit "1") Rejected oneTurn)).
Proof.
  destruct (C7_analysis_outcomes (lit "   ") (lit "1") oneTurn) as (H1 & _).
  destruct (C7_analysis_outcomes (lit "Hallo") (lit "1") oneTurn)
    as (_ & H2 & H3 & H4 & _).
  split; [apply H1; right; reflexivity|].
  split; [rewrite H2; [reflexivity | reflexivity | discriminate]|].
  split; [apply H3; [left; reflexivity | discriminate]|].
  apply H4. left. reflexivity.
Defined.

(** A paragraph is finalized and its analysis requested; the request fulfils
    with a response that has no text: the Turn is neither given a feedback
    nor the error string, and it is not complete. *)
Lemma C7_counterexample :
  let w := step (EvSettle 0 (Fulfilled None)) awaitingFeedback in
  turns awaitingFeedback = [mkTurn (lit "0") (lit "Hallo") [] false 0]
  /\ requests (trace awaitingFeedback) = [lit "Hallo"]
  /\ pending awaitingFeedback = [FeedbackGenerate (lit "0")]
  /\ pending w = []
  /\ turns w = [mkTurn (lit "0") (lit "Hallo") [] false 0].
Proof. vm_compute. repeat split. Qed.

(** ** Running disconnect to completion *)

Lemma lookup_snoc {A} (l : list A) (x : A) : (l ++ [x]) !! length l = Some x.
Proof. apply list_lookup_middle. reflexivity. Qed.

Lemma delete_snoc {A} (l : list A) (x : A) : delete (length l) (l ++ [x]) = l.
Proof. induction l as [|y l IH]; simpl; [reflexivity | f_equal; exact IH]. Qed.

Lemma lookup_length {A} (l : list A) : l !! length l = None.
Proof. apply lookup_ge_None. lia. Qed.

Lemma set_pending_suspend k w : set_pending (pending w) (suspend k w) = w.
Proof. destruct w. reflexivity. Qed.

(** The promise a function has just suspended on settles next. *)
Lemma step_settle_suspended n k r w :
  n = length (pending w) ->
  step (EvSettle n r) (suspend k w) = settle k r w.
Proof.
  intros ->. simpl. rewrite lookup_snoc, delete_snoc.
  f_equal. apply set_pending_suspend.
Qed.

(** Nothing is pending at an index past the end. *)
Lemma step_settle_idle n r w : n = length (pending w) -> step (EvSettle n r) w = w.
Proof. intros ->. simpl. rewrite lookup_length. reflexivity. Qed.

Lemma stopStream_eq w :
  disconnect_stopStream w
  = with_refs (set_streamRef None)
      (set_trace (trace w ++ effect_of TrackStop (streamRef (refs w))) w).
Proof.
  destruct w as [? ? ? [? sr ? ? ? ? ? ?] ? ? ? ? ? ? ? ? ? ?].
  unfold disconnect_stopStream. simpl. destruct sr; simpl; rewrite ?app_nil_r; reflexivity.
Qed.

Lemma processor_eq w :
  disconnect_processor w
  = with_refs (set_processorRef None)
      (set_trace (trace w ++ effect_of NodeDisconnect (processorRef (refs w))) w).
Proof.
  destruct w as [? ? ? [? ? pr ? ? ? ? ?] ? ? ? ? ? ? ? ? ? ?].
  unfold disconnect_processor. simpl. destruct pr; simpl; rewrite ?app_nil_r; reflexivity.
Qed.

Lemma source_eq w :
  disconnect_source w
  = with_refs (set_sourceRef None)
      (set_trace (trace w ++ effect_of NodeDisconnect (sourceRef (refs w))) w).
Proof.
  destruct w as [? ? ? [? ? ? so ? ? ? ?] ? ? ? ? ? ? ? ? ? ?].
  unfold disconnect_source. simpl. destruct so; simpl; rewrite ?app_nil_r; reflexivity.
Qed.

Lemma clearTimers_eq w :
  disconnect_clearTimers w
  = with_refs (set_silenceTimerRef None)
      (set_timers match silenceTimerRef (refs w) with
                  | Some h => List.filter (fun p => negb (Pos.eqb (fst p) h)) (timers w)
                  | None => timers w
                  end (nextTimer w) w).
Proof.
  destruct w as [? ? ? [? ? ? ? ? ? ? ti] ? ? ? ? ? ? ? ? ? ?].
  unfold disconnect_clearTimers. simpl. destruct ti; reflexivity.
Qed.

Lemma assoc_filter_out (h : positive) (l : list (positive * Z)) :
  assoc Pos.eqb h (List.filter (fun p => negb (Pos.eqb (fst p) h)) l) = None.
Proof.
  induction l as [|[h' d] l IH]; [reflexivity|].
  simpl. destruct (Pos.eqb_spec h' h) as [E|E]; simpl.
  - exact IH.
  - destruct (Pos.eqb_spec h h'); [congruence | exact IH].
Qed.

Ltac in_trace := simpl; rewrite ?in_app_iff; simpl; tauto.

Ltac td_auto :=
  unfold torn_down; repeat split; try reflexivity;
  try solve [ intros x [= ->]; in_trace
            | intros; in_trace
            | intros x [= <-]; unfold isClosed; simpl; congruence
            | discriminate ].

(** Steps 3 to 6 of [disconnect], the second [await] included. *)
Lemma release_completes (r : Settle) (v : World) :
  activeSessionRef (refs v) = None ->
  silenceTimerRef (refs v) = None ->
  let v' := step (EvSettle (length (pending v)) r) (disconnect_release v) in
  torn_down v' /\ turns v' = turns v /\ pending v' = pending v
  /\ timers v' = timers v
  /\ (forall e, In e (trace v) -> In e (trace v'))
  /\ (forall x, streamRef (refs v) = Some x -> In (TrackStop x) (trace v'))
  /\ (forall x, processorRef (refs v) = Some x -> In (NodeDisconnect x) (trace v'))
  /\ (forall x, sourceRef (refs v) = Some x -> In (NodeDisconnect x) (trace v'))
  /\ (forall c, audioContextRef (refs v) = Some c -> isClosed c v = false ->
                In (ContextClose c) (trace v')).
Proof.
  intros Hs Ht.
  unfold disconnect_release. rewrite stopStream_eq, processor_eq, source_eq.
  destruct v as [st tu an [ac sr pr so se ct bu ti] nw ak tms nt no cl ss ps pd tr].
  simpl in Hs, Ht. subst se ti.
  unfold disconnect_closeContext, isClosed.
  cbn [refs audioContextRef with_refs set_trace set_sourceRef set_processorRef
       set_streamRef closedContexts].
  destruct ac as [c|].
  - destruct (existsb (Nat.eqb c) cl) eqn:Hc.
    + rewrite step_settle_idle by reflexivity. td_auto.
    + rewrite step_settle_suspended by reflexivity. destruct r; td_auto.
  - rewrite step_settle_idle by reflexivity. td_auto.
Qed.

Lemma disconnect_completes_spec r1 r2 w :
  teardown_of w (disconnect_completes r1 r2 w).
Proof.
  unfold disconnect_completes, run. cbn [fold_left].
  change (step EvDisconnect w) with (disconnect w).
  unfold disconnect. rewrite clearTimers_eq.
  cbn [refs with_refs activeSessionRef set_silenceTimerRef set_timers].
  destruct (activeSessionRef (refs w)) as [s|] eqn:Hs.
  - rewrite step_settle_suspended by reflexivity.
    cbn [settle]. unfold disconnect_afterSessionClose.
    match goal with |- context [disconnect_release ?x] => set (v := x) end.
    assert (trace v = trace w ++ [SessionClose s]
            \/ trace v = (trace w ++ [SessionClose s]) ++
                         [ConsoleError "Error closing Gemini session:"]) as Htr
      by (destruct r1; [left | right]; reflexivity).
    assert (refs v = set_activeSessionRef None (set_silenceTimerRef None (refs w))
            /\ turns v = turns w /\ pending v = pending w
            /\ closedContexts v = closedContexts w
            /\ timers v = match silenceTimerRef (refs w) with
                          | Some h => List.filter (fun p => negb (Pos.eqb (fst p) h)) (timers w)
                          | None => timers w
                          end) as (Hr & Htu & Hp & Hcl & Hti)
      by (destruct r1; repeat split; reflexivity).
    destruct (release_completes r2 v) as (T & Tu & P & Ti & Tr & St & Pr & So & Cx);
      [rewrite Hr; reflexivity .. |].
    rewrite Hp in *. clearbody v.
    constructor; try congruence.
    + intros h Hh. rewrite Ti, Hti, Hh. apply assoc_filter_out.
    + intros s' Hs'. apply Tr. rewrite Hs in Hs'. injection Hs' as <-.
      destruct Htr as [-> | ->]; in_trace.
    + intros x Hx. apply St. rewrite Hr. exact Hx.
    + intros x Hx. apply Pr. rewrite Hr. exact Hx.
    + intros x Hx. apply So. rewrite Hr. exact Hx.
    + intros c Hc Hcc. apply Cx; [rewrite Hr; exact Hc|].
      unfold isClosed in *. rewrite Hcl. exact Hcc.
  - match goal with |- context [disconnect_release ?x] => set (v := x) end.
    assert (refs v = set_silenceTimerRef None (refs w)
            /\ turns v = turns w /\ pending v = pending w
            /\ closedContexts v = closedContexts w /\ trace v = trace w
            /\ timers v = match silenceTimerRef (refs w) with
                          | Some h => List.filter (fun p => negb (Pos.eqb (fst p) h)) (timers w)
                          | None => timers w
                          end) as (Hr & Htu & Hp & Hcl & Htr & Hti)
      by (repeat split; reflexivity).
    destruct (release_completes r1 v) as (T & Tu & P & Ti & Tr & St & Pr & So & Cx);
      [rewrite Hr; simpl; try exact Hs; reflexivity .. |].
    rewrite Hp in *. clearbody v.
    rewrite (step_settle_idle _ r2) by (rewrite P; reflexivity).
    constructor; try congruence.
    + intros h Hh. rewrite Ti, Hti, Hh. apply assoc_filter_out.
    + intros x Hx. apply St. rewrite Hr. exact Hx.
    + intros x Hx. apply Pr. rewrite Hr. exact Hx.
    + intros x Hx. apply So. rewrite Hr. exact Hx.
    + intros c Hc Hcc. apply Cx; [rewrite Hr; exact Hc|].
      unfold isClosed in *. rewrite Hcl. exact Hcc.
Qed.

Lemma disconnect_torn_down w : torn_down w -> disconnect w = w.
Proof.
  destruct w as [st tu an rf nw ak tms nt no cl ss ps pd tr].
  intros (Hst & Han & Hrf). simpl in *. subst. reflexivity.
Qed.

Lemma disconnect_completes_torn_down r1 r2 w :
  torn_down w -> disconnect_completes r1 r2 w = w.
Proof.
  intros H. unfold disconnect_completes, run. cbn [fold_left].
  change (step EvDisconnect w) with (disconnect w).
  rewrite (disconnect_torn_down w H).
  rewrite (step_settle_idle _ r1 w) by reflexivity.
  rewrite (step_settle_idle _ r2 w) by reflexivity. reflexivity.
Qed.

(** ** Teardown, stale sessions and the error state *)

(** C10.  No segment of [disconnect] touches the turn sequence: not the code
    up to the first [await], not the code after either [await]; a teardown
    run to completion returns the sequence it found, the Turn left open
    included, while state and refs are reset.  Nor does any segment of
    [connect], or [onopen], touch it. *)
Theorem C10_disconnect_keeps_turns (r1 r2 : Settle) (w : World) :
  turns (disconnect w) = turns w
  /\ turns (disconnect_afterSessionClose r1 w) = turns w
  /\ turns (disconnect_afterContextClose r2 w) = turns w
  /\ turns (disconnect_completes r1 r2 w) = turns w
  /\ torn_down (disconnect_completes r1 r2 w)
  /\ (forall (b : bool) (c s : nat),
        turns (connect b w) = turns w
        /\ turns (connect_afterResume c r1 w) = turns w
        /\ turns (connect_afterGetUserMedia c r1 w) = turns w
        /\ turns (onopen s w) = turns w).
Proof.
  split; [apply disconnect_turns|].
  split; [apply disconnect_afterSessionClose_turns|].
  split; [apply disconnect_afterContextClose_turns|].
  destruct (disconnect_completes_spec r1 r2 w) as [T Tu _ _ _ _ _ _ _].
  split; [exact Tu|]. split; [exact T|]. intros b c s.
  split; [apply connect_turns|].
  split; [apply connect_afterResume_turns|].
  split; [apply connect_afterGetUserMedia_turns | apply onopen_turns].
Qed.

(** C5, in the form that holds of the code.  Whatever state [disconnect] is
    called in and however its two [close ()] promises settle, a teardown that
    runs to completion with no other callback in between leaves the state
    DISCONNECTED and every ref cleared, has made the release call of every
    resource it found, and has returned; a second teardown right after it
    changes nothing. *)
Theorem C5_disconnect_idempotent (r1 r2 r3 r4 : Settle) (w : World) :
  let w1 := disconnect_completes r1 r2 w in
  let w2 := disconnect_completes r3 r4 w1 in
  teardown_of w w1 /\ w2 = w1.
Proof.
  intros w1 w2. pose proof (disconnect_completes_spec r1 r2 w) as H.
  split; [exact H|]. apply disconnect_completes_torn_down. apply H.
Qed.

(** A [disconnect ()] issued while [connect ()] waits for the microphone: the
    teardown returns (nothing of it is pending), yet the stream and source
    refs hold the objects the resumed [connect] stored meanwhile, and the
    session it went on to open takes the state to CONNECTED. *)
Lemma C5_counterexample :
  let w := run [EvConnect true; EvSettle 0 (Fulfilled None);
                EvDisconnect;
                EvSettle 0 (Fulfilled None);
                EvSettle 0 (Fulfilled None)] (initial true 0) in
  pending w = [SessionThen 4]
  /\ status w = DISCONNECTED
  /\ streamRef (refs w) = Some 1%nat
  /\ sourceRef (refs w) = Some 2%nat
  /\ status (run [EvSettle 0 (Fulfilled None); EvOpen 4] w) = CONNECTED.
Proof. vm_compute. repeat split. Qed.

(** Two calls of [disconnect] on a connected session, the second one made
    while the first waits for the session to close: however the four
    [close ()] promises settle, in the order they were made, everything is
    cleared in the end. *)
Lemma disconnect_overlapping (r1 r2 r3 r4 : Settle) :
  let w := run [EvDisconnect; EvDisconnect; EvSettle 0 r1; EvSettle 0 r2;
                EvSettle 0 r3; EvSettle 0 r4] connected in
  torn_down w /\ pending w = [].
Proof.
  destruct r1, r2, r3, r4; vm_compute; repeat split.
Qed.

(** What [onerror] and the [catch] block of [connect] have in common: a
    teardown is started and ERROR is set at once.  If the teardown has to
    wait, for the session or for an audio context that is not closed yet, its
    last step sets DISCONNECTED after ERROR was set; if it has nothing to
    wait for, ERROR stays. *)
Lemma error_then_teardown (r1 r2 : Settle) (w : World) :
  let n := length (pending w) in
  let w' := run [EvSettle n r1; EvSettle n r2] (setStatus ERROR (disconnect w)) in
  pending w' = pending w
  /\ (activeSessionRef (refs w) <> None
      \/ (exists c, audioContextRef (refs w) = Some c /\ isClosed c w = false) ->
      status w' = DISCONNECTED)
  /\ (activeSessionRef (refs w) = None ->
      (forall c, audioContextRef (refs w) = Some c -> isClosed c w = true) ->
      status w' = ERROR).
Proof.
  unfold run. cbn [fold_left].
  unfold disconnect. rewrite clearTimers_eq.
  cbn [refs with_refs activeSessionRef set_silenceTimerRef set_timers].
  destruct (activeSessionRef (refs w)) as [s|] eqn:Hs.
  - match goal with |- context [setStatus ERROR (suspend ?k ?x)] =>
      change (setStatus ERROR (suspend k x)) with (suspend k (setStatus ERROR x)) end.
    rewrite step_settle_suspended by reflexivity.
    cbn [settle]. unfold disconnect_afterSessionClose.
    match goal with |- context [disconnect_release ?x] => set (v := x) end.
    assert (pending v = pending w) as Hp by (destruct r1; reflexivity).
    destruct (release_completes r2 v) as ((T & _) & _ & P & _);
      [destruct r1; reflexivity .. |].
    rewrite Hp in *. clearbody v.
    split; [exact P|]. split; [intros _; exact T | congruence].
  - unfold disconnect_release. rewrite stopStream_eq, processor_eq, source_eq.
    unfold disconnect_closeContext, isClosed.
    cbn [refs audioContextRef with_refs set_trace set_sourceRef set_processorRef
         set_streamRef closedContexts set_silenceTimerRef set_timers].
    destruct (audioContextRef (refs w)) as [c|] eqn:Hc.
    + destruct (existsb (Nat.eqb c) (closedContexts w)) eqn:Hcl.
      * rewrite (step_settle_idle _ r1) by reflexivity.
        rewrite (step_settle_idle _ r2) by reflexivity.
        split; [reflexivity|]. split; [|reflexivity].
        intros [Hn|(c' & [= <-] & Hopen)]; [congruence|].
        unfold isClosed in Hopen. congruence.
      * match goal with |- context [setStatus ERROR (suspend ?k ?x)] =>
          change (setStatus ERROR (suspend k x)) with (suspend k (setStatus ERROR x)) end.
        rewrite step_settle_suspended by reflexivity.
        rewrite (step_settle_idle _ r2) by (destruct r1; reflexivity).
        split; [destruct r1; reflexivity|]. split; [intros _; destruct r1; reflexivity|].
        intros _ Hcl'. specialize (Hcl' c eq_refl). unfold isClosed in Hcl'. congruence.
    + rewrite (step_settle_idle _ r1) by reflexivity.
      rewrite (step_settle_idle _ r2) by reflexivity.
      split; [reflexivity|]. split; [|reflexivity].
      intros [Hn|(c' & Hc' & _)]; congruence.
Qed.

(** C6.  [getUserMedia] is refused: the [catch] block of [connect] sets
    ERROR while the teardown it started waits for the audio context to
    close, and the teardown, once through, sets DISCONNECTED.  The same
    happens after [onerror] on a connected session. *)
Theorem C6_teardown_overwrites_error :
  let failed := run [EvConnect true; EvSettle 0 (Fulfilled None);
                     EvSettle 0 Rejected] (initial true 0) in
  let errored := step EvError connected in
  (status failed = ERROR
   /\ pending failed = [DisconnectContextClose 0]
   /\ status (step (EvSettle 0 (Fulfilled None)) failed) = DISCONNECTED
   /\ pending (step (EvSettle 0 (Fulfilled None)) failed) = [])
  /\ (status errored = ERROR
      /\ pending errored = [DisconnectSessionClose]
      /\ status (run [EvSettle 0 (Fulfilled None); EvSettle 0 (Fulfilled None)] errored)
         = DISCONNECTED
      /\ pending (run [EvSettle 0 (Fulfilled None); EvSettle 0 (Fulfilled None)] errored)
         = [])
  /\ step (EvConnect true) (initial false 0) = emit Alert (initial false 0).
Proof. vm_compute. repeat split. Qed.

(** ** The silence timer *)

(** C3, in the form that holds of the code.  When the timer fires while the
    buffer is empty or all whitespace, the callback changes nothing: no
    transcript is written, no analysis is requested, and the open-turn id and
    the buffer stay as they are.  The event as a whole only removes the timer
    that fired. *)
Theorem C3_blank_buffer_timeout (w : World) (h : positive) :
  blank (currentInputTransRef (refs w)) = true ->
  silenceTimeout w = w
  /\ (step (EvTimer h) w = w \/ step (EvTimer h) w = clearTimeout h w).
Proof.
  intros H. apply trim_nil_iff in H.
  assert (forall v, refs v = refs w -> silenceTimeout v = v) as Hidle.
  { intros v Hv. unfold silenceTimeout. rewrite Hv, H.
    destruct (currentTurnIdRef (refs w)) as [turnId|]; [|reflexivity].
    rewrite andb_false_r. reflexivity. }
  split; [apply Hidle; reflexivity|].
  simpl. destruct (assoc Pos.eqb h (timers w)) as [deadline|]; [|left; reflexivity].
  destruct (deadline <=? now w); [|left; reflexivity].
  right. apply Hidle. reflexivity.
Qed.

Lemma C3_witness :
  silenceTimeout blankFragment = blankFragment
  /\ turns (step (EvTimer 1) blankFragment) = [mkTurn (lit "0") [] [] false 0]
  /\ requests (trace (step (EvTimer 1) blankFragment)) = [].
Proof.
  destruct (C3_blank_buffer_timeout blankFragment 1 eq_refl) as (H & _).
  split; [exact H|]. split; reflexivity.
Defined.

(** After the timer fired on the blank buffer the machine still tracks the
    Turn and still holds the buffer. *)
Lemma C3_counterexample :
  let w := step (EvTimer 1) blankFragment in
  timers blankFragment = [(1%positive, 3000)]
  /\ timers w = []
  /\ blank (currentInputTransRef (refs blankFragment)) = true
  /\ currentTurnIdRef (refs w) = Some (lit "0")
  /\ currentInputTransRef (refs w) = lit " ".
Proof. vm_compute. repeat split. Qed.

Lemma earliest_In l p : earliest l = Some p -> In p l.
Proof.
  revert p. induction l as [|q l IH]; simpl; [discriminate|].
  intros p. destruct (earliest l) as [q'|].
  - destruct (snd q <=? snd q'); intros [= <-]; auto.
  - intros [= <-]. auto.
Qed.

(** While no timeout is due, time just passes. *)
Lemma advanceTo_idle t w :
  Forall (fun p => t < snd p) (timers w) -> advanceTo t w = step (EvAdvance t) w.
Proof.
  intros H. unfold advanceTo. destruct (length (timers w)); [reflexivity|].
  simpl. destruct (earliest (timers w)) as [[h d]|] eqn:E; [|reflexivity].
  apply earliest_In in E. rewrite Forall_forall in H.
  apply list_elem_of_In in E. specialize (H _ E). simpl in H.
  destruct (Z.leb_spec d t); [lia | reflexivity].
Qed.

Lemma silenceTimeout_finalizes w turnId :
  currentTurnIdRef (refs w) = Some turnId ->
  turnId <> [] ->
  blank (currentInputTransRef (refs w)) = false ->
  silenceTimeout w
  = with_refs (set_currentInputTransRef [])
      (with_refs (set_currentTurnIdRef None)
         (fetchGrammarFeedback (currentInputTransRef (refs w)) turnId
            (setTurns (updateTurn turnId (transcriptUpdate (currentInputTransRef (refs w))))
               (emit (LogFinal (currentInputTransRef (refs w))) w)))).
Proof.
  intros Hid Hne Hb. unfold silenceTimeout. rewrite Hid, truthy_trim, Hb.
  destruct turnId; [congruence | reflexivity].
Qed.

Lemma accumulating_first w0 c txt :
  turns w0 = [] -> timers w0 = [] -> currentTurnIdRef (refs w0) = None ->
  now w0 = 0 ->
  step (EvMessage (Some (c :: txt))) w0 = accumulating w0 0 (c :: txt) (nextTimer w0).
Proof.
  destruct w0 as [st tu an [ac sr pr so se ct bu ti] nw ak tms nt no cl ss ps pd tr].
  simpl. intros -> -> -> ->. destruct ti; reflexivity.
Qed.

Ltac eval_handlers :=
  cbv beta iota zeta delta
    [with_refs setTimeout clearTimeout set_now set_timers
     set_currentInputTransRef set_silenceTimerRef emit set_trace setTurns
     set_currentTurnIdRef truthy_opt negb createTurn
     refs status turns audioAnalyser now apiKey timers nextTimer nextObject
     closedContexts sessions processors pending trace
     audioContextRef streamRef processorRef sourceRef activeSessionRef
     currentTurnIdRef currentInputTransRef silenceTimerRef
     List.filter fst].

Lemma accumulating_next w0 t buffer h c txt t' :
  t <= t' ->
  step (EvMessage (Some (c :: txt))) (step (EvAdvance t') (accumulating w0 t buffer h))
  = accumulating w0 t' (buffer ++ c :: txt) (Pos.succ h).
Proof.
  intros Hle. unfold accumulating.
  assert (truthy (lit "0") = true) as Hi by reflexivity.
  revert Hi. generalize (lit "0"). intros i Hi.
  unfold step, onmessage. change (truthy (c :: txt)) with true. cbv iota.
  eval_handlers.
  rewrite Pos.eqb_refl, Hi.
  eval_handlers.
  rewrite Z.max_r by lia. reflexivity.
Qed.

Lemma accumulating_fires w0 t buffer h :
  blank buffer = false ->
  let w := advanceTo (t + 3000) (accumulating w0 t buffer h) in
  turns w = [mkTurn (lit "0") buffer [] false 0]
  /\ timers w = []
  /\ currentTurnIdRef (refs w) = None
  /\ currentInputTransRef (refs w) = []
  /\ trace w = (trace w0 ++ [LogStarted (lit "0")])
                ++ LogFinal buffer
                   :: (if apiKey w0 then [GenerateContent buffer] else []).
Proof.
  intros Hb.
  set (v := clearTimeout h (step (EvAdvance (t + 3000)) (accumulating w0 t buffer h))).
  assert (advanceTo (t + 3000) (accumulating w0 t buffer h)
          = step (EvAdvance (t + 3000)) (silenceTimeout v)) as ->.
  { unfold advanceTo, accumulating. cbv [timers length elapse earliest snd].
    rewrite Z.leb_refl. unfold step at 2 3.
    cbv [timers set_now now assoc]. rewrite Pos.eqb_refl.
    destruct (Z.leb_spec (t + 3000) (Z.max t (t + 3000))); [reflexivity | lia]. }
  rewrite (silenceTimeout_finalizes v (lit "0")) by easy.
  change (currentInputTransRef (refs v)) with buffer.
  unfold fetchGrammarFeedback. rewrite truthy_trim, Hb.
  change (apiKey _) with (apiKey w0).
  assert (timers v = []) as Hti.
  { unfold v, accumulating. cbv [step set_now clearTimeout timers set_timers List.filter fst].
    rewrite Pos.eqb_refl. reflexivity. }
  destruct (apiKey w0); cbv [negb orb];
    (split; [reflexivity|]); (split; [exact Hti|]);
    (split; [reflexivity|]); (split; [reflexivity|]).
  - change (((trace w0 ++ [LogStarted (lit "0")]) ++ [LogFinal buffer])
            ++ [GenerateContent buffer]
            = (trace w0 ++ [LogStarted (lit "0")])
              ++ [LogFinal buffer; GenerateContent buffer]).
    rewrite <- app_assoc. reflexivity.
  - reflexivity.
Qed.

(** C2, in the form that holds of the code.  In a state with no Turn, no
    tracked id and no timeout armed, at
    time 0, three non-empty fragments arrive at 0, 1000 and 1500 ms, the
    clock running in between.  Each fragment leaves exactly one timeout
    armed, a new one, due 3000 ms after the fragment.  At no time before
    4500 ms is anything finalized: the one Turn has no transcript and nothing
    but its creation is logged.  At 4500 ms, unless the three fragments are
    all whitespace, the Turn carries their concatenation, in order of
    arrival, the analysis is requested if the credential is there, and the
    machine tracks no Turn. *)
Theorem C2_debounce (w0 : World) (f1 f2 f3 : jsstring) :
  turns w0 = [] -> timers w0 = [] -> currentTurnIdRef (refs w0) = None ->
  now w0 = 0 ->
  f1 <> [] -> f2 <> [] -> f3 <> [] ->
  let w1 := step (EvMessage (Some f1)) w0 in
  let w2 := step (EvMessage (Some f2)) (advanceTo 1000 w1) in
  let w3 := step (EvMessage (Some f3)) (advanceTo 1500 w2) in
  let h := nextTimer w0 in
  let open := [mkTurn (lit "0") [] [] false 0] in
  let started := trace w0 ++ [LogStarted (lit "0")] in
  (timers w1 = [(h, 3000)]
   /\ timers w2 = [(Pos.succ h, 4000)]
   /\ timers w3 = [(Pos.succ (Pos.succ h), 4500)])
  /\ (forall t, 0 <= t < 1000 ->
        turns (advanceTo t w1) = open /\ trace (advanceTo t w1) = started)
  /\ (forall t, 1000 <= t < 1500 ->
        turns (advanceTo t w2) = open /\ trace (advanceTo t w2) = started)
  /\ (forall t, 1500 <= t < 4500 ->
        turns (advanceTo t w3) = open /\ trace (advanceTo t w3) = started)
  /\ (blank (f1 ++ f2 ++ f3) = false ->
      turns (advanceTo 4500 w3) = [mkTurn (lit "0") (f1 ++ f2 ++ f3) [] false 0]
      /\ timers (advanceTo 4500 w3) = []
      /\ currentTurnIdRef (refs (advanceTo 4500 w3)) = None
      /\ currentInputTransRef (refs (advanceTo 4500 w3)) = []
      /\ trace (advanceTo 4500 w3)
         = started ++ LogFinal (f1 ++ f2 ++ f3)
                      :: (if apiKey w0 then [GenerateContent (f1 ++ f2 ++ f3)] else [])).
Proof.
  intros Htu Hti Hcur Hnow H1 H2 H3.
  destruct f1 as [|c1 f1]; [congruence|].
  destruct f2 as [|c2 f2]; [congruence|].
  destruct f3 as [|c3 f3]; [congruence|].
  intros w1 w2 w3 h open started.
  assert (w1 = accumulating w0 0 (c1 :: f1) h) as W1
    by (apply accumulating_first; assumption).
  assert (advanceTo 1000 w1 = step (EvAdvance 1000) w1) as A1.
  { apply advanceTo_idle. rewrite W1. repeat constructor. }
  assert (w2 = accumulating w0 1000 ((c1 :: f1) ++ c2 :: f2) (Pos.succ h)) as W2.
  { unfold w2. rewrite A1, W1. apply accumulating_next. lia. }
  assert (advanceTo 1500 w2 = step (EvAdvance 1500) w2) as A2.
  { apply advanceTo_idle. rewrite W2. repeat constructor. }
  assert (w3 = accumulating w0 1500 ((c1 :: f1) ++ (c2 :: f2) ++ c3 :: f3)
                            (Pos.succ (Pos.succ h))) as W3.
  { unfold w3. rewrite A2, W2, (app_assoc (c1 :: f1)). apply accumulating_next. lia. }
  clearbody w1 w2 w3. subst w1 w2 w3.
  split; [repeat split; reflexivity|].
  split.
  { intros t Ht. rewrite advanceTo_idle by (repeat constructor; simpl; lia).
    split; reflexivity. }
  split.
  { intros t Ht. rewrite advanceTo_idle by (repeat constructor; simpl; lia).
    split; reflexivity. }
  split.
  { intros t Ht. rewrite advanceTo_idle by (repeat constructor; simpl; lia).
    split; reflexivity. }
  intros Hb. exact (accumulating_fires w0 1500 _ _ Hb).
Qed.

Lemma C2_witness :
  let w1 := step (EvMessage (Some (lit "Ich"))) connected in
  let w2 := step (EvMessage (Some (lit " habe"))) (advanceTo 1000 w1) in
  let w3 := step (EvMessage (Some (lit " einen Fehler gemacht"))) (advanceTo 1500 w2) in
  turns (advanceTo 4499 w3) = [mkTurn (lit "0") [] [] false 0]
  /\ turns (advanceTo 4500 w3)
     = [mkTurn (lit "0") (lit "Ich habe einen Fehler gemacht") [] false 0].
Proof.
  destruct (C2_debounce connected (lit "Ich") (lit " habe") (lit " einen Fehler gemacht"))
    as (_ & _ & _ & Hbefore & Hat);
    [reflexivity .. | discriminate | discriminate | discriminate |].
  split.
  - apply (Hbefore 4499). lia.
  - apply (Hat eq_refl).
Defined.

(** Three fragments of one space each: nothing is finalized at 4500 ms, nor
    later; the Turn stays open and the buffer stays. *)
Lemma C2_counterexample :
  let w1 := step (EvMessage (Some (lit " "))) connected in
  let w2 := step (EvMessage (Some (lit " "))) (advanceTo 1000 w1) in
  let w3 := step (EvMessage (Some (lit " "))) (advanceTo 1500 w2) in
  timers w3 = [(3%positive, 4500)]
  /\ timers (advanceTo 4500 w3) = []
  /\ turns (advanceTo 4500 w3) = [mkTurn (lit "0") [] [] false 0]
  /\ trace (advanceTo 4500 w3) = [LogStarted (lit "0")]
  /\ currentTurnIdRef (refs (advanceTo 4500 w3)) = Some (lit "0")
  /\ currentInputTransRef (refs (advanceTo 4500 w3)) = lit "   "
  /\ turns (advanceTo 60000 w3) = [mkTurn (lit "0") [] [] false 0].
Proof. vm_compute. repeat split. Qed.

(** ** Every timeout that is due fires *)

Lemma earliest_None l : earliest l = None -> l = [].
Proof.
  destruct l as [|x l]; [reflexivity|]. simpl.
  destruct (earliest l) as [q|]; [destruct (_ <=? _)|]; discriminate.
Qed.

Lemma earliest_least l q : earliest l = Some q -> forall p, In p l -> snd q <= snd p.
Proof.
  revert q. induction l as [|x l IH]; intros q; simpl; [discriminate|].
  destruct (earliest l) as [q'|] eqn:E.
  - destruct (Z.leb_spec (snd x) (snd q')) as [Hle|Hlt]; intros [= <-] p [<-|Hp];
      try lia; specialize (IH q' eq_refl p Hp); lia.
  - intros [= <-] p [<-|Hp]; [lia|]. apply earliest_None in E. subst l. destruct Hp.
Qed.

Lemma assoc_NoDup h d (l : list (positive * Z)) :
  List.NoDup (map fst l) -> In (h, d) l -> assoc Pos.eqb h l = Some d.
Proof.
  induction l as [|[h' d'] l IH]; simpl; [tauto|].
  intros Hnd. apply NoDup_cons_iff in Hnd as [Hx Hnd]. intros [[= -> ->]|Hin].
  - rewrite Pos.eqb_refl. reflexivity.
  - destruct (Pos.eqb_spec h h') as [->|_]; [|apply IH; assumption].
    exfalso. apply Hx. apply (in_map fst) in Hin. exact Hin.
Qed.

Lemma silenceTimeout_timers w : timers (silenceTimeout w) = timers w.
Proof.
  unfold silenceTimeout. destruct (currentTurnIdRef (refs w)); [|reflexivity].
  destruct (_ && _); [|reflexivity].
  unfold fetchGrammarFeedback. destruct (_ || _); reflexivity.
Qed.

Lemma cleared_shorter h d (l : list (positive * Z)) :
  In (h, d) l ->
  (length (List.filter (fun p => negb (Pos.eqb (fst p) h)) l) < length l)%nat.
Proof.
  induction l as [|[h' d'] l IH]; simpl; [tauto|].
  pose proof (filter_length_le (fun p => negb (Pos.eqb (fst p) h)) l) as Hle.
  intros [[= -> ->]|Hin].
  - rewrite Pos.eqb_refl. simpl. lia.
  - specialize (IH Hin). destruct (negb _); simpl; lia.
Qed.

Lemma cleared_NoDup h (l : list (positive * Z)) :
  List.NoDup (map fst l) ->
  List.NoDup (map fst (List.filter (fun p => negb (Pos.eqb (fst p) h)) l)).
Proof.
  induction l as [|x l IH]; simpl; [auto|].
  intros Hnd. apply NoDup_cons_iff in Hnd as [Hx Hnd].
  destruct (negb _); [|auto]. simpl. constructor; [|auto].
  intros Hin. apply Hx. apply in_map_iff in Hin as (p & Hp & Hin).
  apply filter_In in Hin as [Hin _]. rewrite <- Hp. apply in_map, Hin.
Qed.

Lemma elapse_fires_due fuel t w :
  List.NoDup (map fst (timers w)) ->
  (length (timers w) <= fuel)%nat ->
  forall p, In p (timers (elapse fuel t w)) -> t < snd p.
Proof.
  revert w. induction fuel as [|fuel IH]; intros w Hnd Hlen p.
  - simpl. destruct (timers w); [intros [] | simpl in Hlen; lia].
  - cbn [elapse]. destruct (earliest (timers w)) as [[h d]|] eqn:E.
    + pose proof (earliest_least _ _ E) as Hmin. apply earliest_In in E.
      destruct (Z.leb_spec d t) as [Hd|Hd].
      * assert (step (EvTimer h) (step (EvAdvance d) w)
                = silenceTimeout (clearTimeout h (step (EvAdvance d) w))) as ->.
        { cbn [step timers set_now now]. rewrite (assoc_NoDup h d _ Hnd E).
          destruct (Z.leb_spec d (Z.max (now w) d)); [reflexivity | lia]. }
        apply IH; rewrite silenceTimeout_timers; simpl.
        -- apply cleared_NoDup, Hnd.
        -- pose proof (cleared_shorter h d _ E). lia.
      * simpl. intros Hp. specialize (Hmin p Hp). simpl in Hmin. lia.
    + simpl. apply earliest_None in E. rewrite E. intros [].
Qed.

(** When handles are distinct, no timeout due by [t] is left armed once the
    clock has reached [t]. *)
Lemma advanceTo_fires_due t w :
  List.NoDup (map fst (timers w)) ->
  forall p, In p (timers (advanceTo t w)) -> t < snd p.
Proof. intros Hnd. apply elapse_fires_due; [exact Hnd | lia]. Qed.

(** ** Lists, timers and projections *)

Lemma In_delete {A} (x : A) (n : nat) (l : list A) : In x (delete n l) -> In x l.
Proof.
  revert n. induction l as [|y l IH]; intros [|n]; simpl; auto.
  intros [H|H]; eauto.
Qed.

Lemma In_clearTimeout p h w : In p (timers (clearTimeout h w)) -> In p (timers w).
Proof.
  simpl. intros H. apply filter_In in H. apply H.
Qed.

(** All armed timeouts carry the tracked handle, so clearing it clears all. *)
Lemma tracked_cleared h w :
  (forall p, In p (timers w) -> silenceTimerRef (refs w) = Some (fst p)) ->
  silenceTimerRef (refs w) = Some h ->
  timers (clearTimeout h w) = [].
Proof.
  intros Ht Hs. simpl. induction (timers w) as [|p l IH]; [reflexivity|].
  simpl. assert (fst p = h) as ->.
  { specialize (Ht p (or_introl eq_refl)). congruence. }
  rewrite Pos.eqb_refl. simpl. apply IH. intros q Hq. apply Ht. right. exact Hq.
Qed.

Lemma assoc_In {B} h (l : list (positive * B)) d :
  assoc Pos.eqb h l = Some d -> In (h, d) l.
Proof.
  induction l as [|[h' d'] l IH]; simpl; [discriminate|].
  destruct (Pos.eqb_spec h h') as [->|_]; [intros [= ->]; auto | auto].
Qed.

Ltac proj :=
  cbn [status turns audioAnalyser refs now apiKey timers nextTimer nextObject
       closedContexts sessions processors pending trace
       setStatus setTurns setAudioAnalyser with_refs set_now set_timers
       set_nextObject set_closedContexts set_sessions set_processors set_pending
       set_trace emit suspend setTimeout
       audioContextRef streamRef processorRef sourceRef activeSessionRef
       currentTurnIdRef currentInputTransRef silenceTimerRef
       set_audioContextRef set_streamRef set_processorRef set_sourceRef
       set_activeSessionRef set_currentTurnIdRef set_currentInputTransRef
       set_silenceTimerRef] in *.

Lemma unfinalized_spec t : unfinalized t = true <-> userTranscript t = [].
Proof. unfold unfinalized. destruct (userTranscript t); simpl; split; congruence. Qed.

(** * The card, the button, and the hook over time *)

(** ** Searching in strings *)

Lemma startsWith_spec p s : startsWith p s = true <-> exists r, s = p ++ r.
Proof.
  revert s. induction p as [|c p IH]; intros s; simpl.
  - split; eauto.
  - destruct s as [|x s].
    + split; [discriminate | intros [r H]; discriminate H].
    + rewrite andb_true_iff, N.eqb_eq, IH. split.
      * intros [-> [r ->]]. eauto.
      * intros [r [= -> ->]]. eauto.
Qed.

Lemma includes_spec p s : includes p s = true <-> exists a b, s = a ++ p ++ b.
Proof.
  induction s as [|x s IH]; simpl.
  - rewrite startsWith_spec. split.
    + intros [r H]. exists [], r. exact H.
    + intros (a & b & H). symmetry in H. apply app_eq_nil in H as [-> H].
      exists b. symmetry. exact H.
  - rewrite orb_true_iff, startsWith_spec, IH. split.
    + intros [[r H]|(a & b & ->)].
      * exists [], r. exact H.
      * exists (x :: a), b. reflexivity.
    + intros (a & b & H). destruct a as [|y a].
      * left. exists b. exact H.
      * right. injection H as -> ->. eauto.
Qed.

Lemma includes_false p s :
  includes p s = false <-> forall a b, s <> a ++ p ++ b.
Proof.
  rewrite <- not_true_iff_false, includes_spec. split.
  - intros H a b E. apply H. eauto.
  - intros H (a & b & E). exact (H a b E).
Qed.

(** ** formatFeedback *)



Lemma nonblank_trim (line : jsstring) :
  negb (bool_decide (trim line = [])) = negb (blank line).
Proof.
  f_equal. destruct (blank line) eqn:E.
  - apply bool_decide_eq_true, trim_nil_iff, E.
  - apply bool_decide_eq_false. rewrite trim_nil_iff. congruence.
Qed.

Lemma formatLine_key idx line e : formatLine idx line = Some e -> key e = idx.
Proof.
  unfold formatLine. repeat case_match; intros [= <-]; reflexivity.
Qed.

Lemma formatLine_null idx line :
  formatLine idx line = None <-> startsWith (lit "Transcript:") line = true.
Proof.
  unfold formatLine. repeat case_match; split; congruence.
Qed.

(** X2.  When both markers occur in the text, [formatFeedback] returns one
    entry for each line that is not blank, in order: [null] for a line that
    starts with 'Transcript:', and otherwise an element whose key is the
    position of the line among the lines that are not blank. *)
Theorem formatFeedback_sections (text : jsstring) :
  (exists a b, text = a ++ lit "Transcript:" ++ b) ->
  (exists a b, text = a ++ lit "Feedback:" ++ b) ->
  let lines := List.filter (fun line => negb (blank line)) (split 10 text) in
  exists entries,
    formatFeedback text = Sections entries
    /\ length entries = length lines
    /\ forall (k : nat) (line : jsstring), lines !! k = Some line ->
         ((exists r, line = lit "Transcript:" ++ r) -> entries !! k = Some None)
         /\ ((forall r, line <> lit "Transcript:" ++ r) ->
             exists e, entries !! k = Some (Some e) /\ key e = k).
Proof.
  intros HT HF lines. apply includes_spec in HT, HF.
  unfold formatFeedback. rewrite HT, HF. cbn [andb negb].
  rewrite (filter_ext _ _ nonblank_trim). fold lines.
  eexists. split; [reflexivity|]. split; [apply length_imap|].
  intros k line Hk. rewrite list_lookup_imap, Hk. cbn [fmap option_fmap option_map].
  split.
  - intros Hr. apply startsWith_spec in Hr. f_equal. apply formatLine_null, Hr.
  - intros Hr. destruct (formatLine k line) as [e|] eqn:E.
    + exists e. split; [reflexivity|]. eapply formatLine_key, E.
    + apply formatLine_null, startsWith_spec in E as [r E]. destruct (Hr r E).
Qed.

Lemma formatFeedback_sections_witness :
  let text := join 10 [lit "Transcript: Hallo"; []; lit "Feedback:"; lit "Gut"] in
  exists entries,
    formatFeedback text = Sections entries /\ length entries = 3%nat
    /\ entries !! 0%nat = Some None
    /\ exists e, entries !! 2%nat = Some (Some e) /\ key e = 2%nat.
Proof.
  intros text.
  destruct (formatFeedback_sections text) as (entries & E & L & H).
  - exists [], (lit " Hallo" ++ 10%N :: join 10 [[]; lit "Feedback:"; lit "Gut"]).
    reflexivity.
  - exists (join 10 [lit "Transcript: Hallo"; []] ++ [10%N]), (10%N :: lit "Gut").
    reflexivity.
  - exists entries. split; [exact E|]. split; [exact L|]. split.
    + apply (H 0%nat (lit "Transcript: Hallo") eq_refl). exists (lit " Hallo"). reflexivity.
    + apply (H 2%nat (lit "Gut") eq_refl). intros r Hr. discriminate Hr.
Defined.

(** ** The labelled lines *)

Lemma matchHere_literal (p s r : jsstring) :
  matchHere (map Chr p) s = Some r <-> s = p ++ r.
Proof.
  revert s. induction p as [|c p IH]; intros s; simpl.
  - split; congruence.
  - destruct s as [|x s]; [split; discriminate|].
    destruct (N.eqb_spec x c) as [->|Hne].
    + rewrite IH. split; congruence.
    + split; [discriminate | congruence].
Qed.

Lemma matchHere_label (label : string) (s r : jsstring) :
  matchHere (labelPattern label) s = Some r ->
  exists bullet, In bullet bullets /\ s = bullet ++ lit label ++ r.
Proof.
  unfold labelPattern, bullets. cbn [matchHere].
  set (p := map Chr (lit label)).
  assert (forall s r, matchHere p s = Some r -> s = lit label ++ r) as Hp
    by (intros ? ?; apply matchHere_literal).
  assert (forall s r,
    match match s with
          | x :: s' => if (x =? 32)%N then matchHere p s' else None
          | [] => None
          end with
    | Some rest => Some rest
    | None => matchHere p s
    end = Some r -> s = lit " " ++ lit label ++ r \/ s = lit label ++ r) as Hsp.
  { clear s r. intros s r. destruct s as [|x s]; [intros H; right; apply Hp, H|].
    destruct (N.eqb_spec x 32) as [->|Hne];
      [destruct (matchHere p s) as [r'|] eqn:E|]; intros H.
    - injection H as ->. left. apply Hp in E. rewrite E. reflexivity.
    - right. apply Hp, H.
    - right. apply Hp, H. }
  destruct s as [|x s].
  - intros H. apply Hp in H. exists []. split; [simpl; tauto | exact H].
  - destruct (N.eqb_spec x 45) as [->|Hne].
    + match goal with |- match ?m with _ => _ end = _ -> _ => destruct m as [r'|] eqn:E end.
      * intros [= ->]. apply Hsp in E as [E|E]; rewrite E.
        -- exists (lit "- "). split; [simpl; tauto | reflexivity].
        -- exists (lit "-"). split; [simpl; tauto | reflexivity].
      * intros H. apply (Hsp (45%N :: s) r) in H as [H|H]; rewrite H.
        -- exists (lit " "). split; [simpl; tauto | reflexivity].
        -- exists []. split; [simpl; tauto | reflexivity].
    + intros H. apply (Hsp (x :: s) r) in H as [H|H]; rewrite H.
      * exists (lit " "). split; [simpl; tauto | reflexivity].
      * exists []. split; [simpl; tauto | reflexivity].
Qed.

Lemma replace_unmatched (pattern : list Atom) (s : jsstring) :
  (forall a b, s = a ++ b -> matchHere pattern b = None) -> replace pattern s = s.
Proof.
  induction s as [|x s IH]; intros H; simpl.
  - rewrite (H [] []); reflexivity.
  - rewrite (H [] (x :: s)) by reflexivity. f_equal. apply IH.
    intros a b ->. apply (H (x :: a) b). reflexivity.
Qed.

Lemma replace_without_label (label : string) (s : jsstring) :
  includes (lit label) s = false -> replace (labelPattern label) s = s.
Proof.
  intros H. apply replace_unmatched. intros a b ->.
  destruct (matchHere (labelPattern label) b) as [r|] eqn:E; [|reflexivity].
  apply matchHere_label in E as (bullet & _ & ->).
  rewrite includes_false in H. destruct (H (a ++ bullet) r).
  rewrite <- app_assoc. reflexivity.
Qed.

Lemma replace_at_start (pattern : list Atom) (s r : jsstring) :
  matchHere pattern s = Some r -> replace pattern s = r.
Proof. intros H. destruct s; simpl; rewrite H; reflexivity. Qed.

(** The tests [formatLine] makes on a line that begins with a bullet and a
    label: no test looks beyond the label unless it has to search the whole
    line, and then the search continues in the body. *)
Ltac label_tests label body :=
  repeat match goal with
  | |- context [startsWith ?p (?b ++ lit label ++ body)] =>
      change (startsWith p (b ++ lit label ++ body)) with false
  | |- context [includes ?p (?b ++ lit label ++ body)] =>
      first [ change (includes p (b ++ lit label ++ body)) with true
            | change (includes p (b ++ lit label ++ body)) with (includes p body) ]
  end.

Lemma strips_label (idx : nat) (bullet body : jsstring) :
  In bullet bullets ->
  formatLine idx (bullet ++ lit "Error explanation (English):" ++ body)
  = Some (Labelled idx ErrorLabel (trim body))
  /\ (includes (lit "Error explanation") body = false ->
      formatLine idx (bullet ++ lit "Corrected version (German):" ++ body)
      = Some (Labelled idx CorrectLabel (trim body)))
  /\ (includes (lit "Error explanation") body = false ->
      includes (lit "Corrected version") body = false ->
      formatLine idx (bullet ++ lit "Improved natural version (German):" ++ body)
      = Some (Labelled idx NativeLabel (trim body))).
Proof.
  intros Hb.
  assert (bullet = lit "- " \/ bullet = lit "-" \/ bullet = lit " " \/ bullet = [])
    as [->|[->|[->| ->]]]
    by (unfold bullets in Hb; destruct Hb as [<-|[<-|[<-|[<-|[]]]]]; auto).
  all: split; [|split]; try intros HE; try intros HC; unfold formatLine.
  all: try label_tests ("Error explanation (English):"%string) body.
  all: try label_tests ("Corrected version (German):"%string) body.
  all: try label_tests ("Improved natural version (German):"%string) body.
  all: rewrite ?HE, ?HC; cbn [andb orb negb]; erewrite replace_at_start; reflexivity.
Qed.

(** X3.  A line made of a bullet ('- ', '-', one space, or nothing), one of
    the three labels with its language tag, and a body is shown under that
    label with the bullet and the label removed and the body trimmed.  The
    labels are tried in the order Error, Corrected, Improved, each by a search
    of the whole line, so the body of a Corrected line must not contain
    'Error explanation', and the body of an Improved line neither that nor
    'Corrected version'. *)
Theorem formatLine_strips_label (idx : nat) (bullet body : jsstring) :
  In bullet bullets ->
  formatLine idx (bullet ++ lit "Error explanation (English):" ++ body)
  = Some (Labelled idx ErrorLabel (trim body))
  /\ (includes (lit "Error explanation") body = false ->
      formatLine idx (bullet ++ lit "Corrected version (German):" ++ body)
      = Some (Labelled idx CorrectLabel (trim body)))
  /\ (includes (lit "Error explanation") body = false ->
      includes (lit "Corrected version") body = false ->
      formatLine idx (bullet ++ lit "Improved natural version (German):" ++ body)
      = Some (Labelled idx NativeLabel (trim body))).
Proof. apply strips_label. Qed.

Lemma formatLine_strips_label_witness :
  formatLine 2 (lit "- Error explanation (English): kein Verb ")
  = Some (Labelled 2 ErrorLabel (lit "kein Verb"))
  /\ formatLine 3 (lit "-Corrected version (German): Ich gehe.")
     = Some (Labelled 3 CorrectLabel (lit "Ich gehe.")).
Proof.
  split.
  - exact (proj1 (formatLine_strips_label 2 (lit "- ") (lit " kein Verb ")
                    (or_introl eq_refl))).
  - exact (proj1 (proj2 (formatLine_strips_label 3 (lit "-") (lit " Ich gehe.")
                           (or_intror (or_introl eq_refl)))) eq_refl).
Defined.

(** X4.  For a line that starts neither with 'Transcript:' nor with
    'Feedback:'.  If it contains 'Error explanation' but not
    'Error explanation (English):', it is shown under the error label in full,
    only trimmed: the pattern finds nothing to remove.  Likewise if it does
    not contain 'Error explanation' and contains 'Corrected version' but not
    'Corrected version (German):'; and if it contains neither of these two
    label words and contains 'Improved natural version' but not
    'Improved natural version (German):'.  If it contains none of the three
    label words it is shown as a plain line, as it is. *)
Theorem formatLine_keeps_unlabelled (idx : nat) (line : jsstring) :
  startsWith (lit "Transcript:") line = false ->
  startsWith (lit "Feedback:") line = false ->
  (includes (lit "Error explanation") line = true ->
   includes (lit "Error explanation (English):") line = false ->
   formatLine idx line = Some (Labelled idx ErrorLabel (trim line)))
  /\ (includes (lit "Error explanation") line = false ->
      includes (lit "Corrected version") line = true ->
      includes (lit "Corrected version (German):") line = false ->
      formatLine idx line = Some (Labelled idx CorrectLabel (trim line)))
  /\ (includes (lit "Error explanation") line = false ->
      includes (lit "Corrected version") line = false ->
      includes (lit "Improved natural version") line = true ->
      includes (lit "Improved natural version (German):") line = false ->
      formatLine idx line = Some (Labelled idx NativeLabel (trim line)))
  /\ (includes (lit "Error explanation") line = false ->
      includes (lit "Corrected version") line = false ->
      includes (lit "Improved natural version") line = false ->
      formatLine idx line = Some (Line idx line)).
Proof.
  intros HT HF. unfold formatLine. rewrite HT, HF.
  repeat split; intros; repeat match goal with H : includes _ _ = _ |- _ => rewrite H end;
    rewrite ?replace_without_label by assumption; reflexivity.
Qed.

Lemma formatLine_keeps_unlabelled_witness :
  formatLine 2 (lit "Error explanation: kein Verb")
  = Some (Labelled 2 ErrorLabel (lit "Error explanation: kein Verb"))
  /\ formatLine 3 (lit "Gut gemacht!") = Some (Line 3 (lit "Gut gemacht!")).
Proof.
  split.
  - refine (proj1 (formatLine_keeps_unlabelled 2 _ _ _) _ _); reflexivity.
  - refine (proj2 (proj2 (proj2 (formatLine_keeps_unlabelled 3 _ _ _))) _ _ _);
      reflexivity.
Defined.

(** ** Lines *)

Lemma split_piece (sep : N) (a b : jsstring) :
  ~ In sep a -> split sep (a ++ sep :: b) = a :: split sep b.
Proof.
  induction a as [|x a IH]; intros H; simpl.
  - rewrite N.eqb_refl. reflexivity.
  - destruct (N.eqb_spec x sep) as [->|_]; [destruct H; left; reflexivity|].
    rewrite IH by (intros Hin; apply H; right; exact Hin). reflexivity.
Qed.

Lemma split_whole (sep : N) (a : jsstring) : ~ In sep a -> split sep a = [a].
Proof.
  induction a as [|x a IH]; intros H; simpl; [reflexivity|].
  destruct (N.eqb_spec x sep) as [->|_]; [destruct H; left; reflexivity|].
  rewrite IH by (intros Hin; apply H; right; exact Hin). reflexivity.
Qed.

Lemma split_join (sep : N) (pieces : list jsstring) :
  pieces <> [] -> (forall p, In p pieces -> ~ In sep p) ->
  split sep (join sep pieces) = pieces.
Proof.
  induction pieces as [|p pieces IH]; intros Hne H; [congruence|].
  destruct pieces as [|q pieces].
  - apply split_whole, H. left. reflexivity.
  - change (join sep (p :: q :: pieces)) with (p ++ sep :: join sep (q :: pieces)).
    rewrite split_piece by (apply H; left; reflexivity).
    f_equal. apply IH; [discriminate|]. intros r Hr. apply H. right. exact Hr.
Qed.

Lemma join_split (sep : N) (s : jsstring) : join sep (split sep s) = s.
Proof.
  induction s as [|x s IH]; [reflexivity|]. simpl.
  destruct (N.eqb_spec x sep) as [->|_].
  - destruct (split sep s) as [|p ps] eqn:E; simpl in *; [|congruence].
    destruct s; simpl in E; [discriminate|]. destruct (_ =? _)%N, (split sep _); discriminate.
  - destruct (split sep s) as [|p ps] eqn:E; simpl in *; [congruence|].
    destruct ps; simpl in *; congruence.
Qed.

Lemma not_In_app (x : N) (a b : jsstring) : ~ In x a -> ~ In x b -> ~ In x (a ++ b).
Proof. intros Ha Hb H. apply in_app_or in H as [H|H]; auto. Qed.

Lemma not_In_lit (x : N) (l : string) :
  forallb (fun y => negb (y =? x)%N) (lit l) = true -> ~ In x (lit l).
Proof.
  intros H Hin. rewrite forallb_forall in H. specialize (H _ Hin).
  rewrite N.eqb_refl in H. discriminate H.
Qed.

(** ** A reply in the structured format *)

(** X5.  For texts [t], [e], [c] and [n] without a line feed, where [c]
    does not contain 'Error explanation' and [n] contains neither
    'Error explanation' nor 'Corrected version': the reply made of the five
    lines 'Transcript:' [t], 'Feedback:', '- Error explanation (English):'
    [e], '- Corrected version (German):' [c] and
    '- Improved natural version (German):' [n], joined by line feeds, is shown
    as: nothing for the transcript line, the heading, and the three labelled
    lines, each with the text after its label, trimmed. *)
Theorem formatFeedback_structured_reply (t e c n : jsstring) :
  ~ In 10%N t -> ~ In 10%N e -> ~ In 10%N c -> ~ In 10%N n ->
  includes (lit "Error explanation") c = false ->
  includes (lit "Error explanation") n = false ->
  includes (lit "Corrected version") n = false ->
  formatFeedback (structuredReply t e c n)
  = Sections [None; Some (Heading 1);
              Some (Labelled 2 ErrorLabel (trim e));
              Some (Labelled 3 CorrectLabel (trim c));
              Some (Labelled 4 NativeLabel (trim n))].
Proof.
  intros Ht He Hc Hn HEc HEn HCn. unfold formatFeedback.
  assert (includes (lit "Transcript:") (structuredReply t e c n) = true) as ->.
  { apply includes_spec. exists []. eexists. unfold structuredReply, join.
    rewrite <- app_assoc. reflexivity. }
  assert (includes (lit "Feedback:") (structuredReply t e c n) = true) as ->.
  { apply includes_spec. exists (lit "Transcript:" ++ t ++ [10%N]). eexists.
    unfold structuredReply, join. rewrite <- !app_assoc. reflexivity. }
  cbn [andb negb]. f_equal.
  unfold structuredReply. rewrite split_join; [|discriminate|].
  - rewrite (filter_ext _ _ nonblank_trim).
    match goal with |- imap _ ?l = _ =>
      assert (l = [lit "Transcript:" ++ t; lit "Feedback:";
                   lit "- " ++ lit "Error explanation (English):" ++ e;
                   lit "- " ++ lit "Corrected version (German):" ++ c;
                   lit "- " ++ lit "Improved natural version (German):" ++ n]) as ->
        by reflexivity
    end.
    cbn [imap compose].
    assert (In (lit "- ") bullets) as Hb by (left; reflexivity).
    rewrite (proj1 (strips_label 2 _ e Hb)).
    rewrite (proj1 (proj2 (strips_label 3 _ c Hb)) HEc).
    rewrite (proj2 (proj2 (strips_label 4 _ n Hb)) HEn HCn).
    reflexivity.
  - intros p [<-|[<-|[<-|[<-|[<-|[]]]]]];
      repeat first [ assumption | apply not_In_app | apply not_In_lit; reflexivity ].
Qed.

Lemma formatFeedback_structured_reply_witness :
  formatFeedback (structuredReply (lit " Ich gehen") (lit " verb form")
                                  (lit " Ich gehe.") (lit " Ich gehe los."))
  = Sections [None; Some (Heading 1);
              Some (Labelled 2 ErrorLabel (lit "verb form"));
              Some (Labelled 3 CorrectLabel (lit "Ich gehe."));
              Some (Labelled 4 NativeLabel (lit "Ich gehe los."))].
Proof.
  apply (formatFeedback_structured_reply (lit " Ich gehen") (lit " verb form")
           (lit " Ich gehe.") (lit " Ich gehe los."));
    first [ reflexivity | apply not_In_lit; reflexivity ].
Defined.

(** ** How an event changes the turn sequence *)

Lemma afterGenerate_response turnId r w :
  turns (fetchGrammarFeedback_afterGenerate turnId r w) = turns w
  \/ exists response,
       truthy response = true
       /\ turns (fetchGrammarFeedback_afterGenerate turnId r w)
          = updateTurn turnId (feedbackUpdate response) (turns w).
Proof.
  unfold fetchGrammarFeedback_afterGenerate.
  destruct r as [[feedback|]|]; [destruct (truthy feedback) eqn:E| |]; auto.
  - right. exists feedback. auto.
  - right. exists errorFeedback. split; reflexivity.
Qed.

Lemma settle_response k r w :
  turns (settle k r w) = turns w
  \/ exists turnId response,
       truthy response = true
       /\ turns (settle k r w) = updateTurn turnId (feedbackUpdate response) (turns w).
Proof.
  destruct k as [c|c|s|s b| |c|turnId]; cbn [settle].
  - left. apply connect_afterResume_turns.
  - left. apply connect_afterGetUserMedia_turns.
  - left. destruct r; reflexivity.
  - left. destruct r; [apply sendBlock_turns | reflexivity].
  - left. apply disconnect_afterSessionClose_turns.
  - left. destruct r; rewrite disconnect_afterContextClose_turns; reflexivity.
  - destruct (afterGenerate_response turnId r w) as [E|(response & Hr & E)]; eauto.
Qed.

(** An event leaves the sequence as it is, appends a new Turn, writes a
    transcript that is not blank, or writes a response that is not empty. *)
Lemma step_turns e w :
  turns (step e w) = turns w
  \/ (exists ts, turns (step e w) = createTurn (toString (now w)) ts (turns w))
  \/ (exists turnId final,
        truthy (trim final) = true
        /\ turns (step e w) = updateTurn turnId (transcriptUpdate final) (turns w))
  \/ (exists turnId response,
        truthy response = true
        /\ turns (step e w) = updateTurn turnId (feedbackUpdate response) (turns w)).
Proof.
  destruct e; cbn [step].
  - auto.
  - left. apply connect_turns.
  - left. apply disconnect_turns.
  - destruct (pending w !! n) as [k|]; [|auto].
    destruct (settle_response k r (set_pending (delete n (pending w)) w))
      as [E|(turnId & response & Hr & E)]; [left; exact E|].
    right. right. right. eauto.
  - destruct (assoc _ _ _); auto.
  - destruct (onmessage_turns inputTxt (now w) w) as [E|[_ E]]; eauto.
  - left. apply onclose_turns.
  - left. apply onerror_turns.
  - destruct (assoc _ _ _); [|auto]. left. apply onaudioprocess_turns.
  - destruct (assoc _ _ _) as [deadline|]; [|auto].
    destruct (deadline <=? now w); [|auto].
    destruct (silenceTimeout_turns (clearTimeout h w)) as [E|(turnId & _ & Ht & E)];
      [left; exact E|].
    right. right. left. eauto.
  - change (turns (set_now ?r ?x)) with (turns x).
    destruct (onmessage_turns inputTxt (Z.max (now w) rendered) w) as [E|[_ E]]; eauto.
Qed.

Lemma In_updateTurn i u l t' :
  In t' (updateTurn i u l) -> In t' l \/ exists t, In t l /\ t' = spread t u.
Proof.
  intros H. apply list_elem_of_In, list_elem_of_lookup in H as [n H].
  assert (n < length l)%nat as Hn
    by (rewrite <- (updateTurn_length i u l); eapply lookup_lt_Some, H).
  apply lookup_lt_is_Some in Hn as [t Ht].
  rewrite (updateTurn_lookup _ _ _ _ _ Ht) in H. injection H as <-.
  assert (In t l) by (apply list_elem_of_In; eapply list_elem_of_lookup_2, Ht).
  destruct (decide _); eauto.
Qed.

(** ** Complete means answered *)

Lemma settled_step e w :
  (forall t, In t (turns w) -> settled t) ->
  forall t, In t (turns (step e w)) -> settled t.
Proof.
  intros H t.
  destruct (step_turns e w)
    as [E|[[ts E]|[(turnId & final & _ & E)|(turnId & response & Hr & E)]]]; rewrite E.
  - apply H.
  - intros Hin. apply in_app_iff in Hin as [Hin|[<-|[]]]; [apply H, Hin | reflexivity].
  - intros Hin. apply In_updateTurn in Hin as [Hin|(t0 & Hin & ->)]; [apply H, Hin|].
    apply (H t0 Hin).
  - intros Hin. apply In_updateTurn in Hin as [Hin|(t0 & Hin & ->)]; [apply H, Hin|].
    unfold settled. simpl. rewrite Hr. reflexivity.
Qed.

Lemma settled_run es w :
  (forall t, In t (turns w) -> settled t) ->
  forall t, In t (turns (run es w)) -> settled t.
Proof.
  revert w. induction es as [|e es IH]; intros w H; [exact H|].
  apply (IH (step e w)). apply settled_step, H.
Qed.

(** X6.  Whatever happens (any events, in any order, teardowns and
    reconnections included), a Turn is marked complete exactly when it has a
    response: [isComplete] and a non-empty [modelResponse] are only ever
    written together, and the response written is never empty. *)
Theorem complete_iff_answered (w : World) (es : list Event) :
  (forall t, In t (turns w) -> isComplete t = truthy (modelResponse t)) ->
  forall t, In t (turns (run es w)) -> isComplete t = truthy (modelResponse t).
Proof. apply settled_run. Qed.

Lemma complete_iff_answered_witness :
  let t := mkTurn (lit "0") (lit "Hallo") errorFeedback true 0 in
  turns (run [EvSettle 0 Rejected] awaitingFeedback) = [t]
  /\ isComplete t = truthy (modelResponse t).
Proof.
  intros t.
  assert (turns awaitingFeedback = [mkTurn (lit "0") (lit "Hallo") [] false 0]) as E
    by (vm_compute; reflexivity).
  assert (turns (run [EvSettle 0 Rejected] awaitingFeedback) = [t]) as E'
    by (vm_compute; reflexivity).
  split; [exact E'|].
  pose proof (complete_iff_answered awaitingFeedback [EvSettle 0 Rejected]) as H.
  rewrite E, E' in H. apply H.
  - intros t0 [<-|[]]. reflexivity.
  - left. reflexivity.
Defined.

(** ** A response is not taken back *)

Lemma answered_step e w (n : nat) (t : Turn) :
  turns w !! n = Some t -> isComplete t = true -> modelResponse t <> [] ->
  exists t', turns (step e w) !! n = Some t'
             /\ isComplete t' = true /\ modelResponse t' <> [].
Proof.
  intros H Hc Hm.
  destruct (step_turns e w)
    as [E|[[ts E]|[(turnId & final & _ & E)|(turnId & response & Hr & E)]]]; rewrite E.
  - eauto.
  - exists t. unfold createTurn. rewrite lookup_app_l by (eapply lookup_lt_Some, H). auto.
  - rewrite (updateTurn_lookup _ _ _ _ _ H). eexists. split; [reflexivity|].
    destruct (decide _); auto.
  - rewrite (updateTurn_lookup _ _ _ _ _ H). eexists. split; [reflexivity|].
    destruct (decide _); [|auto]. simpl. split; [reflexivity|].
    destruct response; [discriminate Hr | discriminate].
Qed.

(** X7.  A Turn that is complete and has a response stays at its position,
    complete and with a response, whatever happens afterwards: no event
    clears a response or resets the flag. *)
Theorem answered_stays_answered (w : World) (es : list Event) (n : nat) (t : Turn) :
  turns w !! n = Some t -> isComplete t = true -> modelResponse t <> [] ->
  exists t', turns (run es w) !! n = Some t'
             /\ isComplete t' = true /\ modelResponse t' <> [].
Proof.
  revert w t. induction es as [|e es IH]; intros w t H Hc Hm; [eauto|].
  destruct (answered_step e w n t H Hc Hm) as (t1 & H1 & Hc1 & Hm1).
  apply (IH (step e w) t1 H1 Hc1 Hm1).
Qed.

Lemma answered_stays_answered_witness :
  let w := setTurns (fun _ => [mkTurn (lit "1") (lit "eins") (lit "gut") true 1])
                    (initial true 5) in
  exists t', turns (run [EvDisconnect; EvMessage (Some (lit "zwei"))] w) !! 0%nat = Some t'
             /\ isComplete t' = true /\ modelResponse t' <> [].
Proof.
  intros w.
  apply (answered_stays_answered w _ 0 (mkTurn (lit "1") (lit "eins") (lit "gut") true 1));
    [reflexivity | reflexivity | discriminate].
Defined.

(** ** Who makes analysis requests *)

Lemma keeps_refl w : keeps w w.
Proof. split; reflexivity. Qed.

Lemma keeps_trans w1 w2 w3 : keeps w1 w2 -> keeps w2 w3 -> keeps w1 w3.
Proof. intros [A B] [C D]. split; congruence. Qed.

Section Keeps.
Variables w x : World.
Hypothesis H : keeps w x.

Lemma keeps_setStatus v : keeps w (setStatus v x).
Proof. exact H. Qed.
Lemma keeps_setTurns f : keeps w (setTurns f x).
Proof. exact H. Qed.
Lemma keeps_setAudioAnalyser v : keeps w (setAudioAnalyser v x).
Proof. exact H. Qed.
Lemma keeps_with_refs f : keeps w (with_refs f x).
Proof. exact H. Qed.
Lemma keeps_set_now v : keeps w (set_now v x).
Proof. exact H. Qed.
Lemma keeps_set_nextObject v : keeps w (set_nextObject v x).
Proof. exact H. Qed.
Lemma keeps_set_closedContexts v : keeps w (set_closedContexts v x).
Proof. exact H. Qed.
Lemma keeps_set_sessions v : keeps w (set_sessions v x).
Proof. exact H. Qed.
Lemma keeps_set_processors v : keeps w (set_processors v x).
Proof. exact H. Qed.
Lemma keeps_set_pending v : keeps w (set_pending v x).
Proof. exact H. Qed.
Lemma keeps_suspend k : keeps w (suspend k x).
Proof. exact H. Qed.
Lemma keeps_setTimeout d : keeps w (setTimeout d x).
Proof. exact H. Qed.
Lemma keeps_clearTimeout h : keeps w (clearTimeout h x).
Proof. exact H. Qed.
Lemma keeps_emit e : requests [e] = [] -> keeps w (emit e x).
Proof.
  intros He. destruct H as [A B]. split; [exact A|].
  simpl. rewrite requests_app, He, app_nil_r. exact B.
Qed.
End Keeps.

Create HintDb keeps.
#[local] Hint Resolve keeps_refl keeps_setStatus keeps_setTurns keeps_setAudioAnalyser
  keeps_with_refs keeps_set_now keeps_set_nextObject keeps_set_closedContexts
  keeps_set_sessions keeps_set_processors keeps_set_pending keeps_suspend
  keeps_setTimeout keeps_clearTimeout : keeps.
#[local] Hint Extern 1 (keeps _ (emit _ _)) => apply keeps_emit; [|reflexivity] : keeps.

Ltac keeps_tac := intros; cbv zeta; repeat case_match; auto 30 with keeps.

Lemma keeps_disconnect_reset w x : keeps w x -> keeps w (disconnect_reset x).
Proof. unfold disconnect_reset. keeps_tac. Qed.
#[local] Hint Resolve keeps_disconnect_reset : keeps.

Lemma keeps_disconnect_afterContextClose w r x :
  keeps w x -> keeps w (disconnect_afterContextClose r x).
Proof. unfold disconnect_afterContextClose. keeps_tac. Qed.

Lemma keeps_disconnect_release w x : keeps w x -> keeps w (disconnect_release x).
Proof.
  intros H. unfold disconnect_release.
  assert (forall y, keeps w y -> keeps w (disconnect_stopStream y)) as H1
    by (unfold disconnect_stopStream; keeps_tac).
  assert (forall y, keeps w y -> keeps w (disconnect_processor y)) as H2
    by (unfold disconnect_processor; keeps_tac).
  assert (forall y, keeps w y -> keeps w (disconnect_source y)) as H3
    by (unfold disconnect_source; keeps_tac).
  assert (forall y, keeps w y -> keeps w (disconnect_closeContext y)) as H4
    by (unfold disconnect_closeContext; keeps_tac).
  auto.
Qed.
#[local] Hint Resolve keeps_disconnect_afterContextClose keeps_disconnect_release : keeps.

Lemma keeps_disconnect_afterSessionClose w r x :
  keeps w x -> keeps w (disconnect_afterSessionClose r x).
Proof. unfold disconnect_afterSessionClose. keeps_tac. Qed.

Lemma keeps_disconnect w x : keeps w x -> keeps w (disconnect x).
Proof. unfold disconnect, disconnect_clearTimers. keeps_tac. Qed.
#[local] Hint Resolve keeps_disconnect_afterSessionClose keeps_disconnect : keeps.

Lemma keeps_connect_catch w x : keeps w x -> keeps w (connect_catch x).
Proof. unfold connect_catch. keeps_tac. Qed.
#[local] Hint Resolve keeps_connect_catch : keeps.

Lemma keeps_connect w b x : keeps w x -> keeps w (connect b x).
Proof. unfold connect. keeps_tac. Qed.

Lemma keeps_connect_afterResume w c r x :
  keeps w x -> keeps w (connect_afterResume c r x).
Proof. unfold connect_afterResume. keeps_tac. Qed.

Lemma keeps_connect_afterGetUserMedia w c r x :
  keeps w x -> keeps w (connect_afterGetUserMedia c r x).
Proof. unfold connect_afterGetUserMedia. keeps_tac. Qed.

Lemma keeps_sendBlock w s b x : keeps w x -> keeps w (sendBlock s b x).
Proof. unfold sendBlock. keeps_tac. Qed.

Lemma keeps_onaudioprocess w s b x : keeps w x -> keeps w (onaudioprocess s b x).
Proof. unfold onaudioprocess. keeps_tac. Qed.

Lemma keeps_onopen w s x : keeps w x -> keeps w (onopen s x).
Proof. unfold onopen. keeps_tac. Qed.

Lemma keeps_onclose w x : keeps w x -> keeps w (onclose x).
Proof. unfold onclose. keeps_tac. Qed.

Lemma keeps_onerror w x : keeps w x -> keeps w (onerror x).
Proof. unfold onerror. keeps_tac. Qed.

Lemma keeps_afterGenerate w turnId r x :
  keeps w x -> keeps w (fetchGrammarFeedback_afterGenerate turnId r x).
Proof. unfold fetchGrammarFeedback_afterGenerate. keeps_tac. Qed.

Lemma keeps_onmessage w inputTxt rendered x :
  keeps w x -> keeps w (onmessage inputTxt rendered x).
Proof. unfold onmessage. keeps_tac. Qed.
#[local] Hint Resolve keeps_connect keeps_connect_afterResume
  keeps_connect_afterGetUserMedia keeps_sendBlock keeps_onaudioprocess keeps_onopen
  keeps_onclose keeps_onerror keeps_afterGenerate keeps_onmessage : keeps.

Lemma keeps_settle w k r x : keeps w x -> keeps w (settle k r x).
Proof. unfold settle, storeSession. keeps_tac. Qed.
#[local] Hint Resolve keeps_settle : keeps.

(** The one place a request is made: the silence timer finalizes a Turn,
    with the credential present. *)
Lemma silenceTimeout_requests w :
  keeps w (silenceTimeout w)
  \/ (apiKey w = true
      /\ apiKey (silenceTimeout w) = true
      /\ exists turnId,
           currentTurnIdRef (refs w) = Some turnId
           /\ truthy (trim (currentInputTransRef (refs w))) = true
           /\ turns (silenceTimeout w)
              = updateTurn turnId (transcriptUpdate (currentInputTransRef (refs w)))
                           (turns w)
           /\ requests (trace (silenceTimeout w))
              = requests (trace w) ++ [currentInputTransRef (refs w)]).
Proof.
  unfold silenceTimeout.
  destruct (currentTurnIdRef (refs w)) as [turnId|]; [|left; apply keeps_refl].
  destruct (truthy turnId); [|left; apply keeps_refl].
  destruct (truthy (trim (currentInputTransRef (refs w)))) eqn:Ht;
    [|left; apply keeps_refl].
  cbn [andb]. cbv zeta. unfold fetchGrammarFeedback.
  cbn [apiKey setTurns emit set_trace]. rewrite Ht.
  destruct (apiKey w) eqn:Hk; cbn [negb orb].
  - right. split; [reflexivity|]. split; [exact Hk|]. exists turnId.
    split; [reflexivity|]. split; [reflexivity|]. split; [reflexivity|].
    cbn. rewrite !requests_app. cbn. rewrite app_nil_r. reflexivity.
  - left. split; [reflexivity|]. cbn. rewrite requests_app. apply app_nil_r.
Qed.

Lemma step_requests e w :
  keeps w (step e w)
  \/ (apiKey w = true
      /\ apiKey (step e w) = true
      /\ exists turnId,
           currentTurnIdRef (refs w) = Some turnId
           /\ truthy (trim (currentInputTransRef (refs w))) = true
           /\ turns (step e w)
              = updateTurn turnId (transcriptUpdate (currentInputTransRef (refs w)))
                           (turns w)
           /\ requests (trace (step e w))
              = requests (trace w) ++ [currentInputTransRef (refs w)]).
Proof.
  destruct e; cbn [step]; try solve [left; keeps_tac].
  destruct (assoc Pos.eqb h (timers w)) as [deadline|]; [|left; apply keeps_refl].
  destruct (deadline <=? now w); [|left; apply keeps_refl].
  destruct (silenceTimeout_requests (clearTimeout h w)) as [[A B]|R].
  - left. split; assumption.
  - right. exact R.
Qed.

(** X8.  Without the credential no analysis request is ever made, whatever
    happens: the list of requests stays as it was, also when paragraphs are
    finalized. *)
Theorem no_credential_no_request (w : World) (es : list Event) :
  apiKey w = false ->
  requests (trace (run es w)) = requests (trace w) /\ apiKey (run es w) = false.
Proof.
  revert w. induction es as [|e es IH]; intros w Hk; [auto|].
  destruct (step_requests e w) as [[A B]|(Hk' & _)]; [|congruence].
  destruct (IH (step e w)) as [C D]; [congruence|].
  split; [|exact D]. cbn [run fold_left] in *. unfold run in C. congruence.
Qed.

(** A paragraph is finalized without the credential: the Turn has its
    transcript, no request was made. *)
Lemma no_credential_no_request_witness :
  let es := [EvMessage (Some (lit "Hallo")); EvAdvance 3000; EvTimer 1] in
  requests (trace (run es (initial false 0))) = []
  /\ turns (run es (initial false 0)) = [mkTurn (lit "0") (lit "Hallo") [] false 0].
Proof.
  intros es. split; [|vm_compute; reflexivity].
  exact (proj1 (no_credential_no_request (initial false 0) es eq_refl)).
Defined.

(** ** What one event does to the turns and to the requests *)

Lemma silenceTimeout_cases w :
  silenceTimeout w = w
  \/ exists turnId,
       currentTurnIdRef (refs w) = Some turnId
       /\ truthy (trim (currentInputTransRef (refs w))) = true
       /\ turns (silenceTimeout w)
          = updateTurn turnId (transcriptUpdate (currentInputTransRef (refs w))) (turns w)
       /\ apiKey (silenceTimeout w) = apiKey w
       /\ requests (trace (silenceTimeout w))
          = requests (trace w)
            ++ (if apiKey w then [currentInputTransRef (refs w)] else []).
Proof.
  unfold silenceTimeout.
  destruct (currentTurnIdRef (refs w)) as [turnId|]; [|left; reflexivity].
  destruct (truthy turnId); [|left; reflexivity].
  destruct (truthy (trim (currentInputTransRef (refs w)))) eqn:Ht; [|left; reflexivity].
  right. exists turnId. split; [reflexivity|]. split; [reflexivity|].
  cbn [andb]. cbv zeta. unfold fetchGrammarFeedback.
  cbn [apiKey setTurns emit set_trace]. rewrite Ht.
  split; [destruct (negb (apiKey w) || negb true); reflexivity|].
  split; [destruct (negb (apiKey w) || negb true); reflexivity|].
  destruct (apiKey w); cbn; rewrite !requests_app; cbn; rewrite ?app_nil_r;
    reflexivity.
Qed.

(** An event is quiet, or creates a Turn, or finalizes the tracked Turn (and
    requests its analysis if the credential is there), or writes a response. *)
Lemma step_cases e w :
  (turns (step e w) = turns w /\ keeps w (step e w))
  \/ (truthy_opt (currentTurnIdRef (refs w)) = false
      /\ (exists ts, turns (step e w) = createTurn (toString (now w)) ts (turns w))
      /\ keeps w (step e w))
  \/ (exists turnId,
        currentTurnIdRef (refs w) = Some turnId
        /\ truthy (trim (currentInputTransRef (refs w))) = true
        /\ turns (step e w)
           = updateTurn turnId (transcriptUpdate (currentInputTransRef (refs w)))
                        (turns w)
        /\ apiKey (step e w) = apiKey w
        /\ requests (trace (step e w))
           = requests (trace w)
             ++ (if apiKey w then [currentInputTransRef (refs w)] else []))
  \/ (exists turnId response,
        truthy response = true
        /\ turns (step e w) = updateTurn turnId (feedbackUpdate response) (turns w)
        /\ keeps w (step e w)).
Proof.
  destruct e; cbn [step].
  - left. split; [reflexivity | keeps_tac].
  - left. split; [apply connect_turns | keeps_tac].
  - left. split; [apply disconnect_turns | keeps_tac].
  - destruct (pending w !! n) as [k|]; [|left; split; [reflexivity | apply keeps_refl]].
    assert (keeps w (settle k r (set_pending (delete n (pending w)) w))) as K
      by keeps_tac.
    destruct (settle_response k r (set_pending (delete n (pending w)) w))
      as [E|(turnId & response & Hr & E)]; [left; split; [exact E | exact K]|].
    right. right. right. exists turnId, response. auto.
  - destruct (assoc _ _ _); left; (split; [reflexivity | keeps_tac]).
  - assert (keeps w (onmessage inputTxt (now w) w)) as K by keeps_tac.
    destruct (onmessage_turns inputTxt (now w) w) as [E|[F E]];
      [left; auto | right; left; eauto].
  - left. split; [apply onclose_turns | keeps_tac].
  - left. split; [apply onerror_turns | keeps_tac].
  - destruct (assoc _ _ _); left; (split; [|keeps_tac]);
      [apply onaudioprocess_turns | reflexivity].
  - destruct (assoc Pos.eqb h (timers w)) as [deadline|];
      [|left; split; [reflexivity | apply keeps_refl]].
    destruct (deadline <=? now w); [|left; split; [reflexivity | apply keeps_refl]].
    destruct (silenceTimeout_cases (clearTimeout h w)) as [E|(turnId & R)].
    + rewrite E. left. split; [reflexivity | keeps_tac].
    + right. right. left. exists turnId. exact R.
  - assert (keeps w (set_now (Z.max (now w) rendered)
                       (onmessage inputTxt (Z.max (now w) rendered) w))) as K
      by keeps_tac.
    cbv zeta. change (turns (set_now ?r ?x)) with (turns x).
    destruct (onmessage_turns inputTxt (Z.max (now w) rendered) w) as [E|[F E]];
      [left; auto | right; left; eauto].
Qed.

(** ** Handlers that leave the segmentation alone *)

Lemma calm_refl w : calm w w.
Proof. repeat split; auto. Qed.

Lemma calm_trans w1 w2 w3 : calm w1 w2 -> calm w2 w3 -> calm w1 w3.
Proof.
  intros (T1 & N1 & C1 & S1) (T2 & N2 & C2 & S2).
  split; [congruence|]. split; [congruence|]. split.
  - destruct C1 as [C1|C1], C2 as [C2|C2]; auto; left + right; congruence.
  - destruct S1 as [[A1 B1]|[A1 B1]], S2 as [[A2 B2]|[A2 B2]].
    + left. split; congruence.
    + right. split; [exact A2|]. intros p Hp. destruct (B2 p Hp) as [Hin Hne].
      rewrite A1 in Hin. rewrite B1 in Hne. auto.
    + right. split; [congruence|]. intros p Hp. apply B1. rewrite <- A2. exact Hp.
    + right. split; [exact A2|]. intros p Hp. apply B1. apply (B2 p Hp).
Qed.

Section Calm.
Variables w x : World.
Hypothesis H : calm w x.

Lemma calm_setStatus v : calm w (setStatus v x).
Proof. exact H. Qed.
Lemma calm_setAudioAnalyser v : calm w (setAudioAnalyser v x).
Proof. exact H. Qed.
Lemma calm_set_nextObject v : calm w (set_nextObject v x).
Proof. exact H. Qed.
Lemma calm_set_closedContexts v : calm w (set_closedContexts v x).
Proof. exact H. Qed.
Lemma calm_set_sessions v : calm w (set_sessions v x).
Proof. exact H. Qed.
Lemma calm_set_processors v : calm w (set_processors v x).
Proof. exact H. Qed.
Lemma calm_set_pending v : calm w (set_pending v x).
Proof. exact H. Qed.
Lemma calm_suspend k : calm w (suspend k x).
Proof. exact H. Qed.
Lemma calm_emit e : calm w (emit e x).
Proof. exact H. Qed.
Lemma calm_audioContextRef v : calm w (with_refs (set_audioContextRef v) x).
Proof. exact H. Qed.
Lemma calm_streamRef v : calm w (with_refs (set_streamRef v) x).
Proof. exact H. Qed.
Lemma calm_processorRef v : calm w (with_refs (set_processorRef v) x).
Proof. exact H. Qed.
Lemma calm_sourceRef v : calm w (with_refs (set_sourceRef v) x).
Proof. exact H. Qed.
Lemma calm_activeSessionRef v : calm w (with_refs (set_activeSessionRef v) x).
Proof. exact H. Qed.
Lemma calm_currentInputTransRef v : calm w (with_refs (set_currentInputTransRef v) x).
Proof. exact H. Qed.

Lemma calm_currentTurnIdRef : calm w (with_refs (set_currentTurnIdRef None) x).
Proof.
  destruct H as (T & N & C & S). split; [exact T|]. split; [exact N|].
  split; [right; reflexivity | exact S].
Qed.

Lemma calm_clearTimers : calm w (disconnect_clearTimers x).
Proof.
  apply (calm_trans w x); [exact H|]. clear H.
  unfold disconnect_clearTimers.
  destruct (silenceTimerRef (refs x)) as [h|] eqn:Hs; [|apply calm_refl].
  split; [reflexivity|]. split; [reflexivity|]. split; [left; reflexivity|].
  right. split; [reflexivity|]. intros p Hp. apply filter_In in Hp as [Hin Hne].
  split; [exact Hin|]. rewrite Hs. intros [= ->]. rewrite Pos.eqb_refl in Hne.
  discriminate Hne.
Qed.
End Calm.

Create HintDb calm.
#[local] Hint Resolve calm_refl calm_setStatus calm_setAudioAnalyser calm_set_nextObject
  calm_set_closedContexts calm_set_sessions calm_set_processors calm_set_pending
  calm_suspend calm_emit calm_audioContextRef calm_streamRef calm_processorRef
  calm_sourceRef calm_activeSessionRef calm_currentInputTransRef calm_currentTurnIdRef
  calm_clearTimers : calm.

Ltac calm_tac := intros; cbv zeta; repeat case_match; auto 30 with calm.

Lemma calm_disconnect_reset w x : calm w x -> calm w (disconnect_reset x).
Proof. unfold disconnect_reset. calm_tac. Qed.
#[local] Hint Resolve calm_disconnect_reset : calm.

Lemma calm_disconnect_afterContextClose w r x :
  calm w x -> calm w (disconnect_afterContextClose r x).
Proof. unfold disconnect_afterContextClose. calm_tac. Qed.

Lemma calm_disconnect_release w x : calm w x -> calm w (disconnect_release x).
Proof.
  intros H. unfold disconnect_release.
  assert (forall y, calm w y -> calm w (disconnect_stopStream y)) as H1
    by (unfold disconnect_stopStream; calm_tac).
  assert (forall y, calm w y -> calm w (disconnect_processor y)) as H2
    by (unfold disconnect_processor; calm_tac).
  assert (forall y, calm w y -> calm w (disconnect_source y)) as H3
    by (unfold disconnect_source; calm_tac).
  assert (forall y, calm w y -> calm w (disconnect_closeContext y)) as H4
    by (unfold disconnect_closeContext; calm_tac).
  auto.
Qed.
#[local] Hint Resolve calm_disconnect_afterContextClose calm_disconnect_release : calm.

Lemma calm_disconnect_afterSessionClose w r x :
  calm w x -> calm w (disconnect_afterSessionClose r x).
Proof. unfold disconnect_afterSessionClose. calm_tac. Qed.

Lemma calm_disconnect w x : calm w x -> calm w (disconnect x).
Proof. unfold disconnect. calm_tac. Qed.
#[local] Hint Resolve calm_disconnect_afterSessionClose calm_disconnect : calm.

Lemma calm_connect_catch w x : calm w x -> calm w (connect_catch x).
Proof. unfold connect_catch. calm_tac. Qed.
#[local] Hint Resolve calm_connect_catch : calm.

Lemma calm_connect w b x : calm w x -> calm w (connect b x).
Proof. unfold connect. calm_tac. Qed.

Lemma calm_connect_afterResume w c r x :
  calm w x -> calm w (connect_afterResume c r x).
Proof. unfold connect_afterResume. calm_tac. Qed.

Lemma calm_connect_afterGetUserMedia w c r x :
  calm w x -> calm w (connect_afterGetUserMedia c r x).
Proof. unfold connect_afterGetUserMedia. calm_tac. Qed.

Lemma calm_sendBlock w s b x : calm w x -> calm w (sendBlock s b x).
Proof. unfold sendBlock. calm_tac. Qed.

Lemma calm_onaudioprocess w s b x : calm w x -> calm w (onaudioprocess s b x).
Proof. unfold onaudioprocess. calm_tac. Qed.

Lemma calm_onopen w s x : calm w x -> calm w (onopen s x).
Proof. unfold onopen. calm_tac. Qed.

Lemma calm_onclose w x : calm w x -> calm w (onclose x).
Proof. unfold onclose. calm_tac. Qed.

Lemma calm_onerror w x : calm w x -> calm w (onerror x).
Proof. unfold onerror. calm_tac. Qed.
#[local] Hint Resolve calm_connect calm_connect_afterResume
  calm_connect_afterGetUserMedia calm_sendBlock calm_onaudioprocess calm_onopen
  calm_onclose calm_onerror : calm.

(** Every promise but the one of an analysis request. *)
Lemma calm_settle w k r x :
  (forall turnId, k <> FeedbackGenerate turnId) -> calm w x -> calm w (settle k r x).
Proof.
  intros Hk H. destruct k; try (destruct (Hk turnId eq_refl));
    unfold settle, storeSession; calm_tac.
Qed.

(** ** What holds of the hook at all times *)

(** A field that the updates do not carry is the same in every Turn. *)
Lemma updateTurn_field {B} (f : Turn -> B) i u l :
  (forall t, f (spread t u) = f t) -> map f (updateTurn i u l) = map f l.
Proof.
  intros Hu. apply list_eq. intros n.
  change (map f) with (fmap (M:=list) f). rewrite !list_lookup_fmap.
  destruct (l !! n) as [t|] eqn:Hn.
  - rewrite (updateTurn_lookup _ _ _ _ _ Hn). simpl.
    destruct (decide _); [|reflexivity]. rewrite Hu. reflexivity.
  - rewrite (proj2 (lookup_ge_None _ _)); [reflexivity|].
    rewrite updateTurn_length. apply lookup_ge_None, Hn.
Qed.

Lemma lookup_map_eq {B} (f : Turn -> B) (l l' : list Turn) n t' :
  map f l' = map f l -> l' !! n = Some t' ->
  exists t, l !! n = Some t /\ f t = f t'.
Proof.
  intros E H.
  assert (map f l' !! n = Some (f t')) as H'
    by (change (map f) with (fmap (M:=list) f); rewrite list_lookup_fmap, H; reflexivity).
  rewrite E in H'. change (map f) with (fmap (M:=list) f) in H'.
  rewrite list_lookup_fmap in H'. destruct (l !! n) as [t|]; [|discriminate].
  injection H' as H'. eauto.
Qed.

Lemma lookup_In {A} (l : list A) n x : l !! n = Some x -> In x l.
Proof. intros H. apply list_elem_of_In. eapply list_elem_of_lookup_2, H. Qed.

Lemma In_lookup {A} (l : list A) x : In x l -> exists n, l !! n = Some x.
Proof. intros H. apply list_elem_of_In, list_elem_of_lookup in H. exact H. Qed.

(** Turns that agree in id and transcript, position by position. *)
Lemma same_text_lookup (l l' : list Turn) n t' :
  map id l' = map id l -> map userTranscript l' = map userTranscript l ->
  l' !! n = Some t' ->
  exists t, l !! n = Some t /\ id t = id t' /\ userTranscript t = userTranscript t'.
Proof.
  intros Ei Eu H.
  destruct (lookup_map_eq id l l' n t' Ei H) as (t & Ht & Hi).
  destruct (lookup_map_eq userTranscript l l' n t' Eu H) as (t0 & Ht0 & Hu).
  rewrite Ht in Ht0. injection Ht0 as <-. eauto.
Qed.

Lemma ascending_ids (l l' : list Turn) :
  map id l' = map id l -> ascending l -> ascending l'.
Proof.
  intros E H m n a b ca cb Ha Hb Hmn Ia Ib.
  destruct (lookup_map_eq id l l' m a E Ha) as (a0 & Ha0 & Ea).
  destruct (lookup_map_eq id l l' n b E Hb) as (b0 & Hb0 & Eb).
  apply (H m n a0 b0 ca cb Ha0 Hb0 Hmn); congruence.
Qed.

(** The invariant reads the turns through id and transcript only. *)
Lemma Coherent_view w w' :
  map id (turns w') = map id (turns w) ->
  map userTranscript (turns w') = map userTranscript (turns w) ->
  now w <= now w' ->
  (currentTurnIdRef (refs w') = currentTurnIdRef (refs w)
   \/ currentTurnIdRef (refs w') = None) ->
  (forall p, In p (timers w') ->
     In p (timers w) /\ silenceTimerRef (refs w') = Some (fst p)) ->
  (length (timers w') <= 1)%nat ->
  Coherent w -> Coherent w'.
Proof.
  intros Ei Eu Hnow Hcur Hti Hlen [Hids Hso Htm Hsi Htr]. constructor.
  - intros t' Hin. apply In_lookup in Hin as [n Hn].
    destruct (same_text_lookup _ _ n t' Ei Eu Hn) as (t & Ht & Hi & Hu).
    destruct (Hids t (lookup_In _ _ _ Ht)) as (c & Hc & Hle & Hlt).
    exists c. split; [congruence|]. split; [lia|]. intros Hne.
    rewrite <- Hu in Hne. specialize (Hlt Hne). lia.
  - apply (ascending_ids (turns w)); assumption.
  - intros p Hp. apply Hti, Hp.
  - exact Hlen.
  - intros i Hi. destruct Hcur as [Hcur|Hcur]; [|congruence].
    rewrite Hcur in Hi. destruct (Htr i Hi) as (ts0 & E & Hle & Hd & Hin & Hall).
    exists ts0. split; [exact E|]. split; [lia|].
    split; [intros p Hp; apply Hd, Hti, Hp|]. split; [rewrite Ei; exact Hin|].
    intros t' c Hin' Hc Hne. apply In_lookup in Hin' as [n Hn].
    destruct (same_text_lookup _ _ n t' Ei Eu Hn) as (t & Ht & Hit & Hu).
    apply (Hall t c (lookup_In _ _ _ Ht)); congruence.
Qed.

Lemma Coherent_calm w w' : calm w w' -> Coherent w -> Coherent w'.
Proof.
  intros (T & N & C & S) H.
  apply (Coherent_view w w'); try (rewrite T; reflexivity); try lia; try assumption.
  - intros p Hp. destruct S as [[A B]|[A B]].
    + rewrite A in Hp. split; [exact Hp|]. rewrite B. apply (co_timers w H), Hp.
    + destruct (B p Hp) as [Hin Hne]. destruct (Hne (co_timers w H p Hin)).
  - destruct S as [[A B]|[A B]]; [rewrite A; apply (co_single w H)|].
    destruct (timers w') as [|p l]; [simpl; lia|].
    destruct (B p (or_introl eq_refl)) as [Hin Hne].
    destruct (Hne (co_timers w H p Hin)).
Qed.

Lemma Coherent_initial key t0 : Coherent (initial key t0).
Proof.
  constructor; simpl; try tauto; try lia; try discriminate.
Qed.

(** In a state of the invariant a tracked id is a proper one. *)
Lemma Coherent_tracked w :
  Coherent w ->
  truthy_opt (currentTurnIdRef (refs w)) = false -> currentTurnIdRef (refs w) = None.
Proof.
  intros H E. destruct (currentTurnIdRef (refs w)) as [i|] eqn:Hi; [|reflexivity].
  destruct (co_tracked w H i Hi) as (ts0 & -> & _). simpl in E.
  rewrite toString_truthy in E. discriminate E.
Qed.

(** All armed timeouts carry the tracked handle: clearing it leaves none. *)
Lemma Coherent_cleared w :
  Coherent w ->
  timers match silenceTimerRef (refs w) with
         | Some h => clearTimeout h w
         | None => w
         end = [].
Proof.
  intros H. destruct (silenceTimerRef (refs w)) as [h|] eqn:Hs.
  - apply tracked_cleared; [apply (co_timers w H) | exact Hs].
  - destruct (timers w) as [|p l] eqn:E; [reflexivity|].
    pose proof (co_timers w H p) as Hp. rewrite E, Hs in Hp.
    discriminate (Hp (or_introl eq_refl)).
Qed.

Lemma Coherent_onmessage inputTxt rendered w :
  Coherent w -> Coherent (onmessage inputTxt rendered w).
Proof.
  intros H. destruct inputTxt as [[|ch txt]|]; try exact H.
  unfold onmessage. cbn [truthy].
  pose proof (Coherent_cleared w H) as Hti.
  set (wc := match silenceTimerRef (refs w) with
             | Some h => clearTimeout h w
             | None => w
             end) in *.
  assert (refs wc = refs w /\ turns wc = turns w /\ now wc = now w)
    as (Hr & Htu & Hnow)
    by (unfold wc; destruct (silenceTimerRef (refs w)); repeat split; reflexivity).
  clearbody wc. rewrite Hr.
  destruct (truthy_opt (currentTurnIdRef (refs w))) eqn:E; cbn [negb].
  - (* a Turn is tracked: accumulate *)
    destruct H as [Hids Hso Htm Hsi Htr].
    constructor; proj; rewrite ?Hr, ?Htu, ?Hnow, ?Hti; auto.
    + intros p [<-|[]]. reflexivity.
    + intros i Hi. destruct (Htr i Hi) as (ts0 & Ei & Hle & Hd & Hin & Hall).
      exists ts0. repeat split; auto. intros p [<-|[]]. simpl. lia.
  - (* no Turn is tracked: create one *)
    pose proof (Coherent_tracked w H E) as Hcur.
    destruct H as [Hids Hso Htm Hsi Htr].
    constructor; proj; rewrite ?Hr, ?Htu, ?Hnow, ?Hti; unfold createTurn.
    + intros t Hin. apply in_app_iff in Hin as [Hin|[<-|[]]]; [apply Hids, Hin|].
      exists (now w). split; [reflexivity|]. split; [lia|]. simpl. congruence.
    + intros m n a b ca cb Ha Hb Hmn Ia Ib.
      assert (n < length (turns w ++ [mkTurn (toString (now w)) [] [] false rendered]))%nat
        as Hn by (eapply lookup_lt_Some, Hb).
      rewrite length_app in Hn. simpl in Hn.
      rewrite lookup_app_l in Ha by lia.
      destruct (decide (n < length (turns w))%nat) as [Hl|Hl].
      * rewrite lookup_app_l in Hb by lia. exact (Hso m n a b ca cb Ha Hb Hmn Ia Ib).
      * rewrite lookup_app_r in Hb by lia.
        replace (n - length (turns w))%nat with 0%nat in Hb by lia. injection Hb as <-.
        simpl in Ib. apply toString_inj in Ib. subst cb.
        destruct (Hids a (lookup_In _ _ _ Ha)) as (c & Hc & Hle & _).
        rewrite Ia in Hc. apply toString_inj in Hc. lia.
    + intros p [<-|[]]. reflexivity.
    + simpl. lia.
    + intros i [= <-]. exists (now w). split; [reflexivity|]. split; [lia|].
      split; [intros p [<-|[]]; simpl; lia|].
      split; [rewrite map_app; apply in_app_iff; right; left; reflexivity|].
      intros t c Hin Hc Hne. apply in_app_iff in Hin as [Hin|[<-|[]]].
      * destruct (Hids t Hin) as (c' & Hc' & _ & Hlt). rewrite Hc in Hc'.
        apply toString_inj in Hc'. subst c'. apply Hlt, Hne.
      * simpl in Hne. congruence.
Qed.

Lemma Coherent_set_now r w : now w <= r -> Coherent w -> Coherent (set_now r w).
Proof.
  intros Hr H. apply (Coherent_view w); try reflexivity; auto.
  - intros p Hp. split; [exact Hp | apply (co_timers w H), Hp].
  - apply (co_single w H).
Qed.

Lemma Coherent_feedback turnId response w :
  Coherent w -> Coherent (setTurns (updateTurn turnId (feedbackUpdate response)) w).
Proof.
  intros H. apply (Coherent_view w); try reflexivity; auto.
  - apply updateTurn_field. reflexivity.
  - apply updateTurn_field. reflexivity.
  - intros p Hp. split; [exact Hp | apply (co_timers w H), Hp].
  - apply (co_single w H).
Qed.

Lemma Coherent_afterGenerate turnId r w :
  Coherent w -> Coherent (fetchGrammarFeedback_afterGenerate turnId r w).
Proof.
  intros H. unfold fetchGrammarFeedback_afterGenerate.
  destruct r as [[feedback|]|]; auto.
  - destruct (truthy feedback); [|auto]. apply Coherent_feedback, H.
  - apply Coherent_feedback. revert H. apply Coherent_calm. auto with calm.
Qed.

(** The silence timer finalizes the tracked Turn. *)
Lemma Coherent_timer h w : Coherent w -> Coherent (step (EvTimer h) w).
Proof.
  intros H. cbn [step].
  destruct (assoc Pos.eqb h (timers w)) as [d|] eqn:Ha; [|exact H].
  destruct (Z.leb_spec d (now w)) as [Hd|_]; [|exact H].
  apply assoc_In in Ha.
  pose proof (co_timers w H _ Ha) as Hsil. simpl in Hsil.
  pose proof (tracked_cleared h w (co_timers w H) Hsil) as Hnil.
  assert (Coherent (clearTimeout h w)) as Hv.
  { revert H. apply Coherent_view; try reflexivity; auto.
    - rewrite Hnil. intros p [].
    - rewrite Hnil. simpl. lia. }
  unfold silenceTimeout. change (refs (clearTimeout h w)) with (refs w).
  destruct (currentTurnIdRef (refs w)) as [i|] eqn:Hcur; [|exact Hv].
  destruct (truthy i); [|exact Hv].
  destruct (truthy (trim (currentInputTransRef (refs w)))) eqn:Hb; [|exact Hv].
  cbn [andb]. cbv zeta.
  set (buffer := currentInputTransRef (refs w)) in *.
  assert (buffer <> []) as Hne by (intros E; rewrite E in Hb; discriminate Hb).
  destruct (co_tracked w H i Hcur) as (ts0 & -> & Hle & Hdl & Hin0 & Hall).
  pose proof (Hdl _ Ha) as Hlt. simpl in Hlt.
  destruct H as [Hids Hso Htm Hsi Htr].
  assert (forall v,
    turns v = updateTurn (toString ts0) (transcriptUpdate buffer) (turns w) ->
    now v = now w -> timers v = [] -> currentTurnIdRef (refs v) = None ->
    Coherent v) as Hfin.
  { intros v Htu Hnow Hti Hc. constructor; rewrite ?Htu, ?Hnow, ?Hti, ?Hc.
    - intros t' Hin. apply In_lookup in Hin as [n Hn].
      assert (n < length (turns w))%nat as Hlen
        by (rewrite <- (updateTurn_length (toString ts0) (transcriptUpdate buffer));
            eapply lookup_lt_Some, Hn).
      apply lookup_lt_is_Some in Hlen as [t Ht].
      rewrite (updateTurn_lookup _ _ _ _ _ Ht) in Hn. injection Hn as <-.
      destruct (decide _) as [D|D]; [|apply Hids; eapply lookup_In, Ht].
      exists ts0. split; [|split; [lia|intros _; lia]].
      simpl. eapply target_id; eassumption.
    - eapply ascending_ids; [|exact Hso]. apply updateTurn_field. reflexivity.
    - intros p [].
    - simpl. lia.
    - discriminate. }
  apply Hfin; unfold fetchGrammarFeedback; destruct (_ || _); proj;
    first [reflexivity | exact Hnil].
Qed.

Lemma Coherent_step e w : Coherent w -> Coherent (step e w).
Proof.
  intros H. destruct e; cbn [step].
  - apply Coherent_set_now; [lia | exact H].
  - revert H. apply Coherent_calm. auto with calm.
  - revert H. apply Coherent_calm. auto with calm.
  - destruct (pending w !! n) as [k|]; [|exact H].
    assert (Coherent (set_pending (delete n (pending w)) w)) as H'
      by (revert H; apply Coherent_calm; auto with calm).
    destruct k as [c|c|s|s b| |c|turnId];
      try (revert H'; apply Coherent_calm, calm_settle; [discriminate | apply calm_refl]).
    apply Coherent_afterGenerate, H'.
  - destruct (assoc _ _ _); [|exact H]. revert H. apply Coherent_calm. auto with calm.
  - apply Coherent_onmessage, H.
  - revert H. apply Coherent_calm. auto with calm.
  - revert H. apply Coherent_calm. auto with calm.
  - destruct (assoc _ _ _); [|exact H]. revert H. apply Coherent_calm. auto with calm.
  - apply Coherent_timer, H.
  - cbv zeta. apply Coherent_set_now.
    + assert (now (onmessage inputTxt (Z.max (now w) rendered) w) = now w) as ->; [|lia].
      unfold onmessage. repeat case_match; reflexivity.
    + apply Coherent_onmessage, H.
Qed.

Lemma Coherent_run es w : Coherent w -> Coherent (run es w).
Proof.
  revert w. induction es as [|e es IH]; intros w H; [exact H|].
  apply (IH (step e w)), Coherent_step, H.
Qed.

Lemma Coherent_reachable key t0 es : Coherent (run es (initial key t0)).
Proof. apply Coherent_run, Coherent_initial. Qed.

(** ** The Turn that [updateTurn] writes to *)

(** With the id present, [updateTurn] rewrites the first Turn that has it. *)
Lemma updateTurn_first i u l :
  In i (map id l) ->
  exists (n : nat) (t : Turn),
    l !! n = Some t /\ id t = i
    /\ (forall m x, l !! m = Some x -> (m < n)%nat -> id x <> i)
    /\ updateTurn i u l = <[n := spread t u]> l.
Proof.
  intros Hin. unfold updateTurn.
  pose proof (findIndex_range (fun t => jsstring_eqb (id t) i) l) as Hr.
  destruct (Z.eqb_spec (findIndex (fun t => jsstring_eqb (id t) i) l) (-1)) as [E|E].
  - exfalso. apply findIndex_absent in E. apply in_map_iff in Hin as (t & Ht & Hin).
    rewrite Forall_forall in E. apply list_elem_of_In in Hin. specialize (E t Hin).
    apply jsstring_eqb_neq in E. congruence.
  - destruct (findIndex_found _ _ E) as (t & Ht & Hi).
    exists (Z.to_nat (findIndex (fun t => jsstring_eqb (id t) i) l)), t.
    split; [exact Ht|]. split; [apply jsstring_eqb_eq, Hi|]. split.
    + intros m x Hm Hlt. apply jsstring_eqb_neq.
      apply (findIndex_first (fun t => jsstring_eqb (id t) i) l m x Hm). lia.
    + apply list_eq. intros m.
      destruct (decide (m = Z.to_nat (findIndex (fun t => jsstring_eqb (id t) i) l)))
        as [->|Hne].
      * rewrite list_lookup_alter_eq, Ht.
        rewrite list_lookup_insert_eq by (eapply lookup_lt_Some, Ht). reflexivity.
      * rewrite list_lookup_alter_ne, list_lookup_insert_ne by congruence. reflexivity.
Qed.

(** In a state of the invariant the Turn the silence timer writes to has no
    transcript, and no Turn after it has one. *)
Lemma tracked_target w i :
  Coherent w -> currentTurnIdRef (refs w) = Some i ->
  forall u, exists (n : nat) (o : Turn),
    turns w !! n = Some o /\ id o = i /\ userTranscript o = []
    /\ (forall m x, turns w !! m = Some x -> (m < n)%nat -> id x <> i)
    /\ (forall m x, turns w !! m = Some x -> (n < m)%nat -> userTranscript x = [])
    /\ updateTurn i u (turns w) = <[n := spread o u]> (turns w).
Proof.
  intros H Hcur u.
  destruct (co_tracked w H i Hcur) as (ts0 & Ei & _ & _ & Hin & Hall).
  destruct (updateTurn_first i u (turns w) Hin) as (n & o & Hn & Hi & Hfirst & Eu).
  exists n, o. split; [exact Hn|]. split; [exact Hi|].
  assert (forall x, In x (turns w) -> userTranscript x <> [] ->
            forall c, id x = toString c -> c < ts0) as Hlt
    by (intros x Hx Hne c Hc; apply (Hall x c Hx Hc Hne)).
  split.
  { destruct (userTranscript o) eqn:Eo; [reflexivity|]. exfalso.
    assert (ts0 < ts0); [|lia]. apply (Hlt o (lookup_In _ _ _ Hn)); congruence. }
  split; [exact Hfirst|]. split; [|exact Eu].
  intros m x Hm Hnm. destruct (userTranscript x) eqn:Ex; [reflexivity|]. exfalso.
  destruct (co_ids w H x (lookup_In _ _ _ Hm)) as (c & Hc & _).
  assert (c < ts0) by (apply (Hlt x (lookup_In _ _ _ Hm)); congruence).
  assert (ts0 <= c); [|lia].
  apply (co_sorted w H n m o x ts0 c Hn Hm Hnm); congruence.
Qed.

(** ** The order of the ids *)


(** ** A transcript is written once *)

Lemma transcript_kept_step e w (n : nat) (t : Turn) :
  Coherent w -> turns w !! n = Some t -> userTranscript t <> [] ->
  exists t', turns (step e w) !! n = Some t' /\ userTranscript t' = userTranscript t.
Proof.
  intros HS H Hne.
  destruct (step_cases e w)
    as [[E _]|[(F & [ts E] & _)|[(turnId & Hcur & _ & E & _)
       |(turnId & response & _ & E & _)]]];
    rewrite E.
  - eauto.
  - exists t. unfold createTurn. rewrite lookup_app_l by (eapply lookup_lt_Some, H). auto.
  - rewrite (updateTurn_lookup _ _ _ _ _ H). eexists. split; [reflexivity|].
    destruct (decide _) as [D|D]; [|reflexivity]. exfalso.
    destruct (co_tracked w HS turnId Hcur) as (ts0 & Ei & _ & _ & _ & Hall).
    assert (ts0 < ts0); [|lia].
    apply (Hall t ts0 (lookup_In _ _ _ H)); [|exact Hne].
    rewrite <- Ei. eapply target_id; eassumption.
  - rewrite (updateTurn_lookup _ _ _ _ _ H). eexists. split; [reflexivity|].
    destruct (decide _); reflexivity.
Qed.

Lemma transcript_kept_run es w (n : nat) (t : Turn) :
  Coherent w -> turns w !! n = Some t -> userTranscript t <> [] ->
  exists t', turns (run es w) !! n = Some t' /\ userTranscript t' = userTranscript t.
Proof.
  revert w t. induction es as [|e es IH]; intros w t HS H Hne; [eauto|].
  destruct (transcript_kept_step e w n t HS H Hne) as (t1 & H1 & E1).
  destruct (IH (step e w) t1 (Coherent_step e w HS) H1) as (t2 & H2 & E2);
    [congruence|].
  exists t2. split; [exact H2 | congruence].
Qed.



(** ** One analysis request for each finalized Turn *)

Lemma filter_snoc {A} (P : A -> bool) (l : list A) (x : A) :
  List.filter P (l ++ [x]) = List.filter P l ++ (if P x then [x] else []).
Proof. rewrite List.filter_app. reflexivity. Qed.

Lemma filter_none (l : list Turn) :
  (forall x, In x l -> userTranscript x = []) ->
  List.filter truthy (map userTranscript l) = [].
Proof.
  induction l as [|x l IH]; intros H; [reflexivity|]. simpl.
  rewrite (H x (or_introl eq_refl)). simpl. apply IH. intros y Hy. apply H. right. exact Hy.
Qed.

Lemma requests_step e w :
  Coherent w -> apiKey w = true ->
  requests (trace w) = List.filter truthy (map userTranscript (turns w)) ->
  apiKey (step e w) = true
  /\ requests (trace (step e w))
     = List.filter truthy (map userTranscript (turns (step e w))).
Proof.
  intros HS Hk HR.
  destruct (step_cases e w)
    as [[E [K1 K2]]|[(F & [ts E] & [K1 K2])|[(turnId & Hcur & Ht & E & K1 & K2)
       |(turnId & response & _ & E & [K1 K2])]]];
    rewrite E; (split; [congruence|]); rewrite K2.
  - exact HR.
  - unfold createTurn. rewrite map_app. cbn [map userTranscript].
    rewrite filter_snoc. cbn [truthy]. rewrite app_nil_r. exact HR.
  - set (buffer := currentInputTransRef (refs w)) in *.
    destruct (tracked_target w turnId HS Hcur (transcriptUpdate buffer))
      as (n & o & Hn & _ & Hnil & _ & Hafter & ->).
    assert (n < length (turns w))%nat as Hlt by (eapply lookup_lt_Some, Hn).
    rewrite insert_take_drop by exact Hlt.
    rewrite HR, Hk. rewrite <- (take_drop_middle _ _ _ Hn) at 1.
    rewrite !map_app, !List.filter_app. cbn [map List.filter].
    cbn [userTranscript spread transcriptUpdate p_userTranscript default from_option].
    cbv [Datatypes.id]. rewrite Hnil. cbn [truthy].
    assert (truthy buffer = true) as ->
      by (destruct buffer; [discriminate Ht | reflexivity]).
    rewrite (filter_none (drop (S n) (turns w))).
    + rewrite !app_nil_r. reflexivity.
    + intros x Hx. apply In_lookup in Hx as [m Hm]. rewrite lookup_drop in Hm.
      apply (Hafter _ x Hm). lia.
  - rewrite (updateTurn_field userTranscript) by reflexivity. exact HR.
Qed.


(** ** One silence timer *)

(** A fragment leaves exactly one timeout armed, due 3000 ms later, and
    tracks its handle. *)
Lemma onmessage_timers w (txt : jsstring) (rendered : Z) :
  Coherent w -> txt <> [] ->
  timers (onmessage (Some txt) rendered w) = [(nextTimer w, now w + 3000)]
  /\ silenceTimerRef (refs (onmessage (Some txt) rendered w)) = Some (nextTimer w).
Proof.
  intros HS Hne. destruct txt as [|c txt]; [congruence|].
  unfold onmessage. cbn [truthy].
  pose proof (Coherent_cleared w HS) as Hti.
  set (wc := match silenceTimerRef (refs w) with
             | Some h => clearTimeout h w
             | None => w
             end) in *.
  assert (refs wc = refs w /\ now wc = now w /\ nextTimer wc = nextTimer w)
    as (Hr & Hnow & Hnt)
    by (unfold wc; destruct (silenceTimerRef (refs w)); repeat split; reflexivity).
  clearbody wc.
  destruct (negb (truthy_opt (currentTurnIdRef (refs wc)))); proj;
    rewrite Hti, Hnow, Hnt; split; reflexivity.
Qed.

(** X12.  From a freshly mounted hook and over any events, teardowns and
    reconnections included: at most one silence timeout is armed, and its
    handle is the one in [silenceTimerRef]; and a fragment that is not empty
    leaves exactly one timeout armed, due 3000 ms after the reading of the
    handler, whatever was armed before. *)
Theorem single_silence_timer (key : bool) (t0 : Z) (es : list Event) :
  let w := run es (initial key t0) in
  (length (timers w) <= 1)%nat
  /\ (forall p, In p (timers w) -> silenceTimerRef (refs w) = Some (fst p))
  /\ (forall e (txt : jsstring), fragment e = Some txt -> txt <> [] ->
        timers (step e w) = [(nextTimer w, now w + 3000)]
        /\ silenceTimerRef (refs (step e w)) = Some (nextTimer w)).
Proof.
  intros w. pose proof (Coherent_reachable key t0 es) as H. fold w in H.
  split; [apply (co_single w H)|]. split; [apply (co_timers w H)|].
  intros e txt He Hne. destruct e; try discriminate He; simpl in He; subst inputTxt.
  - apply onmessage_timers; assumption.
  - cbn [step]. cbv zeta. apply (onmessage_timers w txt _ H Hne).
Qed.

Lemma single_silence_timer_witness :
  let es := [EvMessage (Some (lit "Ich")); EvAdvance 1000; EvDisconnect;
             EvMessageLate (Some (lit " gehe")) 1002; EvAdvance 1500] in
  timers (step (EvMessage (Some (lit " los"))) (run es (initial true 0)))
  = [(3%positive, 4500)].
Proof.
  intros es.
  destruct (single_silence_timer true 0 es) as (_ & _ & H).
  exact (proj1 (H (EvMessage (Some (lit " los"))) (lit " los") eq_refl
                  ltac:(discriminate))).
Defined.

(** ** Sessions without a teardown *)

Lemma benign_delete n (l : list Task) :
  forallb benign l = true -> forallb benign (delete n l) = true.
Proof. rewrite !forallb_forall. intros H k Hk. apply H, (In_delete _ _ _ Hk). Qed.

Lemma benign_lookup (l : list Task) (n : nat) k :
  forallb benign l = true -> l !! n = Some k -> benign k = true.
Proof. rewrite forallb_forall. intros H Hk. apply H, (lookup_In _ _ _ Hk). Qed.

(** What [onmessage] does to the sequence and to the tracked id. *)
Lemma onmessage_cases inputTxt rendered w :
  pending (onmessage inputTxt rendered w) = pending w
  /\ (steady w (onmessage inputTxt rendered w)
      \/ (truthy_opt (currentTurnIdRef (refs w)) = false
          /\ turns (onmessage inputTxt rendered w)
             = createTurn (toString (now w)) rendered (turns w)
          /\ currentTurnIdRef (refs (onmessage inputTxt rendered w))
             = Some (toString (now w)))).
Proof.
  unfold onmessage, steady.
  destruct inputTxt as [[|c txt]|]; cbn [truthy]; auto.
  destruct (silenceTimerRef (refs w));
    change (refs (clearTimeout _ w)) with (refs w);
    destruct (truthy_opt (currentTurnIdRef (refs w))); cbn [negb]; auto.
Qed.

(** What an event of a session does to the sequence and to the tracked id:
    nothing but possibly write a response; or append a Turn and track it,
    when none was tracked; or write the transcript of the tracked Turn and
    track none. *)
Lemma session_cases e w :
  inSession e = true -> forallb benign (pending w) = true ->
  forallb benign (pending (step e w)) = true
  /\ ((currentTurnIdRef (refs (step e w)) = currentTurnIdRef (refs w)
       /\ (turns (step e w) = turns w
           \/ exists turnId response,
                turns (step e w)
                = updateTurn turnId (feedbackUpdate response) (turns w)))
      \/ (truthy_opt (currentTurnIdRef (refs w)) = false
          /\ (exists ts, turns (step e w)
                         = createTurn (toString (now w)) ts (turns w))
          /\ currentTurnIdRef (refs (step e w)) = Some (toString (now w)))
      \/ (exists turnId,
            currentTurnIdRef (refs w) = Some turnId
            /\ truthy (trim (currentInputTransRef (refs w))) = true
            /\ turns (step e w)
               = updateTurn turnId (transcriptUpdate (currentInputTransRef (refs w)))
                            (turns w)
            /\ currentTurnIdRef (refs (step e w)) = None)).
Proof.
  intros He Hp. destruct e; try discriminate He; cbn [step].
  - auto.
  - destruct (pending w !! n) as [k|] eqn:Hk; [|auto].
    pose proof (benign_lookup _ _ _ Hp Hk) as Hb.
    pose proof (benign_delete n _ Hp) as Hd.
    destruct k as [c|c|s|s b| |c|turnId]; try discriminate Hb; cbn [settle].
    + destruct r; auto.
    + destruct r; [|auto]. unfold sendBlock. repeat case_match; auto.
    + unfold fetchGrammarFeedback_afterGenerate.
      destruct r as [[feedback|]|]; [destruct (truthy feedback)|..]; proj; eauto 8.
  - destruct (assoc _ _ _); auto.
  - destruct (onmessage_cases inputTxt (now w) w) as [-> [[T C]|(F & T & C)]]; eauto 8.
  - destruct (assoc _ _ _); [|auto]. unfold onaudioprocess. repeat case_match; auto.
    proj. rewrite List.forallb_app, Hp. auto.
  - destruct (assoc Pos.eqb h (timers w)) as [deadline|]; [|auto].
    destruct (deadline <=? now w); [|auto].
    unfold silenceTimeout. change (refs (clearTimeout h w)) with (refs w).
    destruct (currentTurnIdRef (refs w)) as [turnId|] eqn:Hcur; [|auto].
    destruct (truthy turnId); [|auto].
    destruct (truthy (trim (currentInputTransRef (refs w)))) eqn:Ht; [|auto].
    cbn [andb]. cbv zeta. unfold fetchGrammarFeedback.
    split; [destruct (_ || _); proj;
            change (pending (clearTimeout h w)) with (pending w);
            rewrite ?List.forallb_app, Hp; reflexivity|].
    right. right. exists turnId. split; [reflexivity|]. split; [reflexivity|].
    destruct (_ || _); auto.
  - cbv zeta. change (pending (set_now ?r ?x)) with (pending x).
    change (refs (set_now ?r ?x)) with (refs x).
    change (turns (set_now ?r ?x)) with (turns x).
    destruct (onmessage_cases inputTxt (Z.max (now w) rendered) w)
      as [-> [[T C]|(F & T & C)]]; eauto 8.
Qed.

(** The three moves keep the open Turn last and tracked. *)
Lemma tidy_moves w w' :
  Coherent w -> tidy w ->
  (currentTurnIdRef (refs w') = currentTurnIdRef (refs w)
   /\ (turns w' = turns w
       \/ exists turnId response,
            turns w' = updateTurn turnId (feedbackUpdate response) (turns w)))
  \/ (truthy_opt (currentTurnIdRef (refs w)) = false
      /\ (exists ts, turns w' = createTurn (toString (now w)) ts (turns w))
      /\ currentTurnIdRef (refs w') = Some (toString (now w)))
  \/ (exists turnId,
        currentTurnIdRef (refs w) = Some turnId
        /\ truthy (trim (currentInputTransRef (refs w))) = true
        /\ turns w'
           = updateTurn turnId (transcriptUpdate (currentInputTransRef (refs w)))
                        (turns w)
        /\ currentTurnIdRef (refs w') = None) ->
  tidy w'.
Proof.
  intros HS Ht
    [[C [T|(turnId & response & T)]]|[(F & [ts T] & C)|(turnId & Hcur & Hb & T & C)]];
    intros n t; rewrite T, ?C.
  - apply Ht.
  - intros Hn Hnil. rewrite updateTurn_length.
    assert (n < length (turns w))%nat as Hlt
      by (rewrite <- (updateTurn_length turnId (feedbackUpdate response));
          eapply lookup_lt_Some, Hn).
    apply lookup_lt_is_Some in Hlt as [o Ho].
    rewrite (updateTurn_lookup _ _ _ _ _ Ho) in Hn. injection Hn as <-.
    assert (id (if decide (target turnId (turns w) = Z.of_nat n)
                then spread o (feedbackUpdate response) else o) = id o
            /\ userTranscript (if decide (target turnId (turns w) = Z.of_nat n)
                               then spread o (feedbackUpdate response) else o)
               = userTranscript o) as [Ei Eu]
      by (destruct (decide _); split; reflexivity).
    rewrite Ei. rewrite Eu in Hnil. apply (Ht n o Ho Hnil).
  - pose proof (Coherent_tracked w HS F) as Hnone.
    unfold createTurn. rewrite length_app. cbn [length]. intros Hn Hnil.
    destruct (decide (n < length (turns w))%nat) as [Hl|Hl].
    + rewrite lookup_app_l in Hn by exact Hl.
      destruct (Ht n t Hn Hnil) as [_ Habs]. congruence.
    + assert (n < length (turns w ++ [mkTurn (toString (now w)) [] [] false ts]))%nat
        as Hlt by (eapply lookup_lt_Some, Hn).
      rewrite length_app in Hlt. cbn [length] in Hlt.
      rewrite lookup_app_r in Hn by lia.
      replace (n - length (turns w))%nat with 0%nat in Hn by lia.
      injection Hn as <-. split; [lia | reflexivity].
  - intros Hn Hnil. exfalso.
    set (buffer := currentInputTransRef (refs w)) in *.
    destruct (tracked_target w turnId HS Hcur (transcriptUpdate buffer))
      as (k & o & Hk & _ & Hopen & _ & _ & Eu).
    rewrite Eu in Hn.
    assert (k < length (turns w))%nat as Hkl by (eapply lookup_lt_Some, Hk).
    destruct (decide (n = k)) as [->|Hne].
    + rewrite list_lookup_insert_eq in Hn by exact Hkl. injection Hn as <-.
      cbn in Hnil. subst buffer. rewrite Hnil in Hb. discriminate Hb.
    + rewrite list_lookup_insert_ne in Hn by congruence.
      destruct (Ht n t Hn Hnil) as [Hlast _].
      destruct (Ht k o Hk Hopen) as [Hlast' _]. lia.
Qed.

(** The only Turn that can be open in a session is the last one, and it is
    the tracked one. *)
Lemma tidy_step e w :
  inSession e = true -> forallb benign (pending w) = true ->
  Coherent w -> tidy w -> tidy (step e w).
Proof.
  intros He Hp HS Ht. apply (tidy_moves w _ HS Ht), (session_cases e w He Hp).
Qed.

(** A fragment keeps it so, whatever is pending. *)
Lemma tidy_fragment e w txt :
  fragment e = Some txt -> Coherent w -> tidy w -> tidy (step e w).
Proof.
  intros He HS Ht. apply (tidy_moves w _ HS Ht).
  destruct e; try discriminate He; cbn [step]; cbv zeta.
  - destruct (onmessage_cases inputTxt (now w) w) as [_ [[T C]|(F & T & C)]]; eauto 8.
  - change (refs (set_now ?r ?x)) with (refs x).
    change (turns (set_now ?r ?x)) with (turns x).
    destruct (onmessage_cases inputTxt (Z.max (now w) rendered) w)
      as [_ [[T C]|(F & T & C)]]; eauto 8.
Qed.

Lemma session_run es w :
  forallb inSession es = true -> forallb benign (pending w) = true ->
  Coherent w -> tidy w ->
  forallb benign (pending (run es w)) = true /\ Coherent (run es w) /\ tidy (run es w).
Proof.
  revert w. induction es as [|e es IH]; intros w Hes Hp HS Ht; [auto|].
  cbn [forallb] in Hes. apply andb_true_iff in Hes as [He Hes].
  apply (IH (step e w) Hes).
  - apply (session_cases e w He Hp).
  - apply Coherent_step, HS.
  - apply tidy_step; assumption.
Qed.

(** In a session a new id differs from the ids there are. *)
Lemma keys_step e w :
  inSession e = true -> forallb benign (pending w) = true ->
  Coherent w -> tidy w ->
  List.NoDup (map id (turns w)) -> List.NoDup (map id (turns (step e w))).
Proof.
  intros He Hp HS Ht Hnd.
  destruct (session_cases e w He Hp)
    as [_ [[_ [T|(turnId & response & T)]]|[(F & [ts T] & _)|(turnId & _ & _ & T & _)]]];
    rewrite T; rewrite ?updateTurn_ids by reflexivity; try exact Hnd.
  pose proof (Coherent_tracked w HS F) as Hnone.
  unfold createTurn. rewrite map_app. apply List.NoDup_app; [exact Hnd| |].
  - constructor; [intros [] | constructor].
  - intros i Hin [<-|[]]. apply in_map_iff in Hin as (t & Hi & Hin).
    destruct (co_ids w HS t Hin) as (c & Hc & _ & Hlt).
    cbn [id] in Hi. rewrite Hc in Hi. apply toString_inj in Hi. subst c.
    destruct (userTranscript t) eqn:Hu; [|specialize (Hlt ltac:(discriminate)); lia].
    apply In_lookup in Hin as [n Hn]. destruct (Ht n t Hn Hu) as [_ Habs]. congruence.
Qed.

Lemma keys_run es w :
  forallb inSession es = true -> forallb benign (pending w) = true ->
  Coherent w -> tidy w ->
  List.NoDup (map id (turns w)) -> List.NoDup (map id (turns (run es w))).
Proof.
  revert w. induction es as [|e es IH]; intros w Hes Hp HS Ht Hnd; [exact Hnd|].
  cbn [forallb] in Hes. apply andb_true_iff in Hes as [He Hes].
  apply (IH (step e w) Hes).
  - apply (session_cases e w He Hp).
  - apply Coherent_step, HS.
  - apply tidy_step; assumption.
  - apply keys_step; assumption.
Qed.

Lemma tidy_one_open w :
  tidy w ->
  (length (List.filter unfinalized (turns w)) <= 1)%nat
  /\ (currentTurnIdRef (refs w) = None -> List.filter unfinalized (turns w) = []).
Proof.
  intros Ht.
  assert (forall l, (forall (n : nat) t, l !! n = Some t -> userTranscript t = [] ->
                       S n = length l) ->
            (length (List.filter unfinalized l) <= 1)%nat) as Hone.
  { induction l as [|x l IH]; intros H; [simpl; lia|].
    destruct l as [|y l].
    - simpl. destruct (unfinalized x); simpl; lia.
    - cbn [List.filter]. destruct (unfinalized x) eqn:Hx.
      + apply unfinalized_spec in Hx. specialize (H 0%nat x eq_refl Hx).
        simpl in H. lia.
      + apply IH. intros n t Hn Hnil. specialize (H (S n) t Hn Hnil).
        simpl in H. simpl. lia. }
  split.
  - apply Hone. intros n t Hn Hnil. apply (Ht n t Hn Hnil).
  - intros Hcur. destruct (List.filter unfinalized (turns w)) as [|y l'] eqn:E;
      [reflexivity|].
    assert (In y (List.filter unfinalized (turns w))) as Hy
      by (rewrite E; left; reflexivity).
    apply filter_In in Hy as [Hy Py]. apply unfinalized_spec in Py.
    apply In_lookup in Hy as [n Hn]. destruct (Ht n y Hn Py) as [_ Habs]. congruence.
Qed.




(** ** Connecting and disconnecting with the button *)

(** The promise awaited last settles: the code after the [await] runs on the
    world without it. *)
Lemma step_settle_last st tu an rf nw ak tms nt no cl ss ps pd tr k r :
  step (EvSettle (length pd) r)
       (mkWorld st tu an rf nw ak tms nt no cl ss ps (pd ++ [k]) tr)
  = settle k r (mkWorld st tu an rf nw ak tms nt no cl ss ps pd tr).
Proof.
  cbn [step pending]. rewrite lookup_snoc, delete_snoc. reflexivity.
Qed.

Lemma assoc_snoc {B} (k : nat) (v : B) (l : list (nat * B)) :
  exists v', assoc Nat.eqb k (l ++ [(k, v)]) = Some v'.
Proof.
  induction l as [|[k' v'] l IH]; simpl.
  - rewrite Nat.eqb_refl. eauto.
  - destruct (Nat.eqb k k'); eauto.
Qed.

(** X13.  From a torn-down hook with the credential, a click on the button
    followed by [resume ()], [getUserMedia ()] and the session promise all
    fulfilling and the session opening leaves the state CONNECTED with every
    ref holding the object made for it; a second click then tears everything
    down again, however the two [close ()] promises settle: state and refs
    are reset, the turns and the other pending promises are untouched, and
    each object the connection made has received its release call. *)
Theorem connect_then_disconnect (w : World) (r1 r2 : Settle) :
  torn_down w -> apiKey w = true -> isClosed (nextObject w) w = false ->
  let n := length (pending w) in
  let c := nextObject w in
  let ok := Fulfilled None in
  let w1 := run [EvSettle n ok; EvSettle n ok; EvSettle n ok; EvOpen (4 + c)]
                (click true w) in
  let w2 := run [EvSettle n r1; EvSettle n r2] (click true w1) in
  (status w1 = CONNECTED
   /\ audioAnalyser w1 = Some (3 + c)%nat
   /\ refs w1 = mkRefs (Some c) (Some (1 + c)%nat) (Some (5 + c)%nat) (Some (2 + c)%nat)
                       (Some (4 + c)%nat) None [] None
   /\ turns w1 = turns w /\ pending w1 = pending w)
  /\ (torn_down w2 /\ turns w2 = turns w /\ pending w2 = pending w
      /\ In (SessionClose (4 + c)) (trace w2)
      /\ In (TrackStop (1 + c)) (trace w2)
      /\ In (NodeDisconnect (5 + c)) (trace w2)
      /\ In (NodeDisconnect (2 + c)) (trace w2)
      /\ In (ContextClose c) (trace w2)).
Proof.
  intros (Hst & Han & Hrf) Hk Hcl n c ok w1 w2.
  assert (status w1 = CONNECTED
          /\ audioAnalyser w1 = Some (3 + c)%nat
          /\ refs w1 = mkRefs (Some c) (Some (1 + c)%nat) (Some (5 + c)%nat)
                              (Some (2 + c)%nat) (Some (4 + c)%nat) None [] None
          /\ turns w1 = turns w /\ pending w1 = pending w
          /\ closedContexts w1 = closedContexts w) as (S1 & A1 & R1 & T1 & P1 & C1).
  { unfold w1, n, c, ok. clear w1 w2.
    destruct w as [st tu an rf nw ak tms nt no cl ss ps pd tr].
    cbn [status audioAnalyser refs apiKey nextObject pending] in *. subst st an rf ak.
    unfold run. cbn [fold_left].
    unfold click, handleToggleConnection, connect.
    cbn [status apiKey negb].
    rewrite step_settle_suspended by reflexivity.
    cbn [settle connect_afterResume].
    rewrite step_settle_suspended by reflexivity.
    cbn [settle connect_afterGetUserMedia]. cbv zeta.
    rewrite step_settle_suspended by reflexivity.
    cbn [settle]. cbn [step].
    match goal with |- context [assoc Nat.eqb ?k (sessions ?x)] =>
      change (sessions x) with (ss ++ [(k, no)]);
      destruct (assoc_snoc k no ss) as [v ->] end.
    repeat split. }
  split; [tauto|].
  assert (w2 = disconnect_completes r1 r2 w1) as ->.
  { unfold w2, disconnect_completes, click, handleToggleConnection.
    rewrite S1, P1. reflexivity. }
  destruct (disconnect_completes_spec r1 r2 w1) as [T Tu P _ Se St Pr So Cx].
  rewrite R1 in *. cbn [activeSessionRef streamRef processorRef sourceRef audioContextRef] in *.
  split; [exact T|]. split; [rewrite Tu; exact T1|]. split; [rewrite P; exact P1|].
  split; [apply Se; reflexivity|]. split; [apply St; reflexivity|].
  split; [apply Pr; reflexivity|]. split; [apply So; reflexivity|].
  apply Cx; [reflexivity|]. unfold isClosed in *. rewrite C1. exact Hcl.
Qed.

Lemma connect_then_disconnect_witness :
  let ok := Fulfilled None in
  let w1 := run [EvSettle 0 ok; EvSettle 0 ok; EvSettle 0 ok; EvOpen 4]
                (click true (initial true 0)) in
  let w2 := run [EvSettle 0 Rejected; EvSettle 0 ok] (click true w1) in
  status w1 = CONNECTED /\ torn_down w2 /\ In (ContextClose 0) (trace w2).
Proof.
  intros ok w1 w2.
  pose proof (connect_then_disconnect (initial true 0) Rejected ok) as H.
  destruct H as ((A & _) & (B & _ & _ & _ & _ & _ & _ & C));
    [repeat split | reflexivity | reflexivity |].
  split; [exact A|]. split; [exact B | exact C].
Defined.

(** ** A teardown entered twice *)

Lemma sessionCloses_app tr tr' :
  sessionCloses (tr ++ tr') = sessionCloses tr ++ sessionCloses tr'.
Proof.
  induction tr as [|e tr IH]; [reflexivity|].
  destruct e; simpl; rewrite IH; reflexivity.
Qed.

Ltac explicit :=
  cbv beta iota zeta delta
    [status turns audioAnalyser refs now apiKey timers nextTimer nextObject
     closedContexts sessions processors pending trace
     setStatus setTurns setAudioAnalyser with_refs set_now set_timers
     set_nextObject set_closedContexts set_sessions set_processors set_pending
     set_trace emit suspend
     audioContextRef streamRef processorRef sourceRef activeSessionRef
     currentTurnIdRef currentInputTransRef silenceTimerRef
     set_audioContextRef set_streamRef set_processorRef set_sourceRef
     set_activeSessionRef set_currentTurnIdRef set_currentInputTransRef
     set_silenceTimerRef effect_of].

(** Of two promises awaited last, the earlier one settles. *)
Lemma step_settle_earlier st tu an rf nw ak tms nt no cl ss ps pd tr k k' r :
  step (EvSettle (length pd) r)
       (mkWorld st tu an rf nw ak tms nt no cl ss ps (pd ++ [k; k']) tr)
  = settle k r (mkWorld st tu an rf nw ak tms nt no cl ss ps (pd ++ [k']) tr).
Proof.
  cbn [step pending]. rewrite list_lookup_middle by reflexivity.
  rewrite delete_middle. reflexivity.
Qed.

(** The code after the first [await] of [disconnect], up to step 5. *)
Lemma afterSessionClose_explicit
    st tu an ac sr pr so se ct bu ti nw ak tms nt no cl ss ps pd tr r :
  disconnect_afterSessionClose r
    (mkWorld st tu an (mkRefs ac sr pr so se ct bu ti) nw ak tms nt no cl ss ps pd tr)
  = disconnect_closeContext
      (mkWorld st tu an (mkRefs ac None None None None ct bu ti) nw ak tms nt no cl ss
               ps pd
               (tr ++ match r with
                      | Fulfilled _ => []
                      | Rejected => [ConsoleError "Error closing Gemini session:"]
                      end
                   ++ effect_of TrackStop sr ++ effect_of NodeDisconnect pr
                   ++ effect_of NodeDisconnect so)).
Proof.
  unfold disconnect_afterSessionClose, disconnect_release, disconnect_source,
    disconnect_processor, disconnect_stopStream.
  destruct r, sr, pr, so; explicit; rewrite ?app_nil_r, <- ?app_assoc; reflexivity.
Qed.

(** The code after the second [await] of [disconnect]. *)
Lemma afterContextClose_explicit
    st tu an ac sr pr so se ct bu ti nw ak tms nt no cl ss ps pd tr c r :
  settle (DisconnectContextClose c) r
    (mkWorld st tu an (mkRefs ac sr pr so se ct bu ti) nw ak tms nt no cl ss ps pd tr)
  = mkWorld DISCONNECTED tu None (mkRefs None sr pr so se None [] ti) nw ak tms nt no
            match r with
            | Fulfilled _ => c :: cl
            | Rejected => cl
            end ss ps pd
            (tr ++ match r with
                   | Fulfilled _ => []
                   | Rejected => [ConsoleError "Error closing audio context:"]
                   end).
Proof.
  unfold settle, disconnect_afterContextClose, disconnect_reset.
  destruct r; explicit; rewrite ?app_nil_r; reflexivity.
Qed.

(** [disconnect ()] on a session, up to its first [await]. *)
Lemma disconnect_explicit
    st tu an ac sr pr so s ct bu ti nw ak tms nt no cl ss ps pd tr :
  disconnect
    (mkWorld st tu an (mkRefs ac sr pr so (Some s) ct bu ti) nw ak tms nt no cl ss ps
             pd tr)
  = mkWorld st tu an (mkRefs ac sr pr so (Some s) ct bu None) nw ak
            match ti with
            | Some h => List.filter (fun p => negb (Pos.eqb (fst p) h)) tms
            | None => tms
            end nt no cl ss ps (pd ++ [DisconnectSessionClose])
            (tr ++ [SessionClose s]).
Proof. unfold disconnect. rewrite clearTimers_eq. reflexivity. Qed.

(** Step 5 of [disconnect], up to the [await] if there is one. *)
Lemma closeContext_explicit
    st tu an ac sr pr so se ct bu ti nw ak tms nt no cl ss ps pd tr :
  disconnect_closeContext
    (mkWorld st tu an (mkRefs ac sr pr so se ct bu ti) nw ak tms nt no cl ss ps pd tr)
  = match ac with
    | Some c =>
        if existsb (Nat.eqb c) cl
        then mkWorld DISCONNECTED tu None (mkRefs None sr pr so se None [] ti) nw ak tms
                     nt no cl ss ps pd tr
        else mkWorld st tu an (mkRefs ac sr pr so se ct bu ti) nw ak tms nt no cl ss ps
                     (pd ++ [DisconnectContextClose c]) (tr ++ [ContextClose c])
    | None =>
        mkWorld DISCONNECTED tu None (mkRefs None sr pr so se None [] ti) nw ak tms nt
                no cl ss ps pd tr
    end.
Proof.
  unfold disconnect_closeContext, isClosed. explicit.
  destruct ac as [c|]; [destruct (existsb (Nat.eqb c) cl)|]; reflexivity.
Qed.

Lemma step_settle_none st tu an rf nw ak tms nt no cl ss ps pd tr r :
  step (EvSettle (length pd) r) (mkWorld st tu an rf nw ak tms nt no cl ss ps pd tr)
  = mkWorld st tu an rf nw ak tms nt no cl ss ps pd tr.
Proof. cbn [step pending]. rewrite lookup_length. reflexivity. Qed.

Lemma onclose_torn_down w : torn_down w -> step EvClose w = w.
Proof.
  intros (_ & _ & Hr). cbn [step]. unfold onclose. rewrite Hr. reflexivity.
Qed.

(** X14.  [onclose] arriving while [disconnect] waits for the session to
    close finds [activeSessionRef] still set and starts a second teardown:
    [close ()] is called on the same session twice.  When the four promises
    have settled in the order they were made, however they settle, state and
    refs are reset, the turns and the other pending promises are as before,
    and a further [onclose] does nothing.  A second click on the button while
    the first teardown waits does the same as that [onclose]: the state is
    still CONNECTED, so the click calls [disconnect] again. *)
Theorem teardown_entered_twice (w : World) (s : nat) (r1 r2 r3 r4 : Settle) :
  activeSessionRef (refs w) = Some s ->
  let n := length (pending w) in
  let w' := run [EvDisconnect; EvClose; EvSettle n r1; EvSettle n r2;
                 EvSettle n r3; EvSettle n r4] w in
  sessionCloses (trace (run [EvDisconnect; EvClose] w))
  = sessionCloses (trace w) ++ [s; s]
  /\ torn_down w' /\ turns w' = turns w /\ pending w' = pending w
  /\ step EvClose w' = w'
  /\ (status w = CONNECTED ->
      forall b, click b (click b w) = run [EvDisconnect; EvClose] w).
Proof.
  intros Hs n w'.
  enough (sessionCloses (trace (run [EvDisconnect; EvClose] w))
          = sessionCloses (trace w) ++ [s; s]
          /\ (torn_down w' /\ turns w' = turns w /\ pending w' = pending w)
          /\ (status w = CONNECTED ->
              forall b, click b (click b w) = run [EvDisconnect; EvClose] w))
    as (A & (B & C & D) & E)
    by (repeat split; try assumption; try apply B; apply onclose_torn_down, B).
  unfold w', n. clear w' n.
  destruct w as [st tu an [ac sr pr so se ct bu ti] nw ak tms nt no cl ss ps pd tr].
  cbn [refs activeSessionRef pending turns trace status] in *. subst se.
  match goal with |- ?A /\ ?B /\ ?C =>
    enough (B) as HB; [enough (A /\ C) as [HA HC]; [auto|]|] end.
  { split.
    - unfold run. cbn [fold_left step]. unfold onclose.
      rewrite disconnect_explicit. cbn [refs activeSessionRef trace].
      rewrite disconnect_explicit. cbn [trace].
      rewrite !sessionCloses_app. rewrite <- app_assoc. reflexivity.
    - intros -> b. unfold run. cbn [fold_left step]. unfold onclose.
      unfold click at 2, handleToggleConnection. cbn [status].
      rewrite disconnect_explicit. reflexivity. }
  unfold run. cbn [fold_left].
  change (step EvDisconnect ?W) with (disconnect W).
  rewrite disconnect_explicit.
  change (step EvClose ?W) with (onclose W).
  unfold onclose. cbn [refs activeSessionRef]. rewrite disconnect_explicit.
  rewrite <- (app_assoc pd). cbn [app].
  rewrite step_settle_earlier. cbn [settle].
  rewrite afterSessionClose_explicit, closeContext_explicit.
  destruct ac as [c|]; [destruct (existsb (Nat.eqb c) cl) eqn:Hc|].
  - rewrite step_settle_last. cbn [settle].
    rewrite afterSessionClose_explicit, closeContext_explicit.
    rewrite !step_settle_none. repeat split.
  - rewrite <- (app_assoc pd). cbn [app].
    rewrite step_settle_earlier. cbn [settle].
    rewrite afterSessionClose_explicit, closeContext_explicit, Hc.
    rewrite <- (app_assoc pd). cbn [app].
    rewrite step_settle_earlier, afterContextClose_explicit.
    rewrite step_settle_last, afterContextClose_explicit.
    repeat split.
  - rewrite step_settle_last. cbn [settle].
    rewrite afterSessionClose_explicit, closeContext_explicit.
    rewrite !step_settle_none. repeat split.
Qed.

Lemma teardown_entered_twice_witness :
  sessionCloses (trace (run [EvDisconnect; EvClose] connected)) = [4%nat; 4%nat]
  /\ torn_down (run [EvDisconnect; EvClose; EvSettle 0 Rejected; EvSettle 0 Rejected;
                     EvSettle 0 Rejected; EvSettle 0 Rejected] connected).
Proof.
  destruct (teardown_entered_twice connected 4 Rejected Rejected Rejected Rejected
              eq_refl) as (A & B & _).
  split; [exact A | exact B].
Defined.

(** ** The cards of the turn sequence *)

Lemma cards_lookup (l : list Turn) (k : nat) (t : Turn) :
  l !! k = Some t ->
  cards l !! k
  = Some (id t, TranscriptCard t (Nat.eqb k (length l - 1) && negb (isComplete t))).
Proof.
  intros H. unfold cards. rewrite list_lookup_imap, H. reflexivity.
Qed.

Lemma cards_keys (l : list Turn) : map fst (cards l) = map id l.
Proof.
  unfold cards. generalize (length l - 1)%nat. intros m.
  change (map fst (imap (fun index turn =>
            (id turn, (fun i t => TranscriptCard t (Nat.eqb i m && negb (isComplete t)))
                        index turn)) l) = map id l).
  generalize (fun i t => TranscriptCard t (Nat.eqb i m && negb (isComplete t))).
  induction l as [|x l IH]; intros g; [reflexivity|].
  simpl. f_equal. apply (IH (fun i => g (S i))).
Qed.

Lemma last_index (l : list Turn) (k : nat) (t : Turn) :
  l !! k = Some t -> Nat.eqb k (length l - 1) = Nat.eqb (S k) (length l).
Proof.
  intros H. apply lookup_lt_Some in H.
  destruct (Nat.eqb_spec k (length l - 1)), (Nat.eqb_spec (S k) (length l)); lia.
Qed.

(** X15.  What the cards show of the feedback, whatever has happened: the
    card of a complete Turn shows the formatted response, does not pulse and
    is not highlighted; the card of a Turn that is not complete shows the
    pulsing dots if the Turn is the last one, and no feedback bubble at all
    otherwise, so a Turn still waiting for its analysis loses the dots as soon
    as a newer Turn exists. *)
Theorem cards_show_feedback (w : World) (es : list Event) (k : nat) (t : Turn) :
  (forall t, In t (turns w) -> isComplete t = truthy (modelResponse t)) ->
  let l := turns (run es w) in
  l !! k = Some t ->
  exists c,
    cards l !! k = Some (id t, c)
    /\ (isComplete t = true ->
        highlighted c = false
        /\ feedbackBubble c
           = Some (mkFeedbackBubble false (Some (formatFeedback (modelResponse t)))))
    /\ (isComplete t = false ->
        highlighted c = Nat.eqb (S k) (length l)
        /\ feedbackBubble c
           = if Nat.eqb (S k) (length l)
             then Some (mkFeedbackBubble true None) else None).
Proof.
  intros H l Hk.
  pose proof (settled_run es w H t (lookup_In _ _ _ Hk)) as Hc. unfold settled in Hc.
  eexists. split; [apply cards_lookup, Hk|].
  rewrite (last_index l k t Hk). unfold TranscriptCard. cbn [highlighted feedbackBubble].
  rewrite <- Hc.
  split; intros ->; cbn [negb andb orb]; rewrite ?andb_false_r, ?andb_true_r, ?orb_false_l;
    split; try reflexivity.
  destruct (Nat.eqb (S k) (length l)); reflexivity.
Qed.

Lemma cards_show_feedback_witness :
  let w := setTurns (fun _ => [mkTurn (lit "1") (lit "eins") [] false 1;
                               mkTurn (lit "2") (lit "zwei") [] false 2])
                    (initial true 5) in
  exists c, cards (turns w) !! 0%nat = Some (lit "1", c)
            /\ highlighted c = false /\ feedbackBubble c = None.
Proof.
  intros w.
  destruct (cards_show_feedback w [] 0 (mkTurn (lit "1") (lit "eins") [] false 1))
    as (c & Hc & _ & H).
  - intros t [<-|[<-|[]]]; reflexivity.
  - reflexivity.
  - exists c. split; [exact Hc|]. exact (H eq_refl).
Defined.



(** ** Three seconds of silence *)

(** What a fragment leaves in the refs and on the clock. *)
Lemma onmessage_tracks w (txt : jsstring) (rendered : Z) :
  Coherent w -> txt <> [] ->
  let w1 := onmessage (Some txt) rendered w in
  now w1 = now w /\ apiKey w1 = apiKey w
  /\ (exists i, currentTurnIdRef (refs w1) = Some i /\ i <> [])
  /\ currentInputTransRef (refs w1)
     = match currentTurnIdRef (refs w) with
       | Some _ => currentInputTransRef (refs w)
       | None => []
       end ++ txt.
Proof.
  intros HS Hne. destruct txt as [|c txt]; [congruence|].
  unfold onmessage. cbn [truthy].
  set (wc := match silenceTimerRef (refs w) with
             | Some h => clearTimeout h w
             | None => w
             end).
  assert (refs wc = refs w /\ now wc = now w /\ apiKey wc = apiKey w)
    as (Hr & Hnow & Hk)
    by (unfold wc; destruct (silenceTimerRef (refs w)); repeat split; reflexivity).
  clearbody wc. rewrite Hr.
  destruct (truthy_opt (currentTurnIdRef (refs w))) eqn:E; cbn [negb]; proj;
    rewrite ?Hr, ?Hnow, ?Hk.
  - destruct (currentTurnIdRef (refs w)) as [i|]; [|discriminate E].
    repeat split. exists i. split; [reflexivity|]. intros ->. discriminate E.
  - rewrite (Coherent_tracked w HS E). repeat split.
    exists (toString (now w)). split; [reflexivity|].
    intros Hnil. pose proof (toString_truthy (now w)) as Ht. rewrite Hnil in Ht.
    discriminate Ht.
Qed.

Lemma fragment_step e w (txt : jsstring) :
  fragment e = Some txt -> txt <> [] -> Coherent w ->
  let w1 := step e w in
  timers w1 = [(nextTimer w, now w + 3000)]
  /\ now w <= now w1 /\ apiKey w1 = apiKey w
  /\ (exists i, currentTurnIdRef (refs w1) = Some i /\ i <> [])
  /\ currentInputTransRef (refs w1)
     = match currentTurnIdRef (refs w) with
       | Some _ => currentInputTransRef (refs w)
       | None => []
       end ++ txt.
Proof.
  intros He Hne HS. destruct e; try discriminate He; cbn [fragment] in He;
    subst inputTxt; cbn [step]; cbv zeta.
  - destruct (onmessage_timers w txt (now w) HS Hne) as [Hti _].
    destruct (onmessage_tracks w txt (now w) HS Hne) as (Hnow & Hk & Hi & Hb).
    split; [exact Hti|]. split; [lia|]. auto.
  - destruct (onmessage_timers w txt (Z.max (now w) rendered) HS Hne) as [Hti _].
    destruct (onmessage_tracks w txt (Z.max (now w) rendered) HS Hne)
      as (Hnow & Hk & Hi & Hb).
    split; [exact Hti|]. split; [cbn [now set_now]; lia|]. auto.
Qed.

(** With one timeout armed and an id tracked, the clock runs to [t]. *)
Lemma silence_run (w1 : World) (h : positive) (d t : Z) (i : jsstring) :
  Coherent w1 -> timers w1 = [(h, d)] ->
  currentTurnIdRef (refs w1) = Some i -> i <> [] ->
  let buffer := currentInputTransRef (refs w1) in
  (t < d -> turns (advanceTo t w1) = turns w1 /\ trace (advanceTo t w1) = trace w1)
  /\ (d <= t -> blank buffer = false ->
      let w2 := advanceTo t w1 in
      (exists (n : nat) (o : Turn),
          turns w1 !! n = Some o /\ id o = i /\ userTranscript o = []
          /\ (forall m x, turns w1 !! m = Some x -> (m < n)%nat -> id x <> i)
          /\ (forall m x, turns w1 !! m = Some x -> (n < m)%nat -> userTranscript x = [])
          /\ turns w2 = <[n := spread o (transcriptUpdate buffer)]> (turns w1))
      /\ currentTurnIdRef (refs w2) = None /\ timers w2 = []
      /\ requests (trace w2)
         = requests (trace w1) ++ (if apiKey w1 then [buffer] else [])).
Proof.
  intros HS Hti Hcur Hi buffer.
  unfold advanceTo. rewrite Hti. cbn [length elapse]. rewrite Hti. cbn [earliest snd].
  split.
  - intros Hlt. destruct (Z.leb_spec d t); [lia|]. split; reflexivity.
  - intros Hle Hb. destruct (Z.leb_spec d t); [|lia]. cbv zeta.
    set (v := step (EvAdvance d) w1).
    assert (step (EvTimer h) v = silenceTimeout (clearTimeout h v)) as Hfire.
    { cbn [step]. change (timers v) with (timers w1). rewrite Hti. cbn [assoc].
      rewrite Pos.eqb_refl. change (now v) with (Z.max (now w1) d).
      destruct (Z.leb_spec d (Z.max (now w1) d)); [reflexivity|lia]. }
    rewrite Hfire.
    set (u := clearTimeout h v).
    assert (refs u = refs w1 /\ turns u = turns w1 /\ trace u = trace w1
            /\ apiKey u = apiKey w1) as (Hru & Htu & Htru & Hku)
      by (repeat split; reflexivity).
    assert (timers u = []) as Htiu.
    { unfold u. cbn [clearTimeout timers set_timers]. change (timers v) with (timers w1).
      rewrite Hti. cbn [List.filter fst]. rewrite Pos.eqb_refl. reflexivity. }
    clearbody u. clear Hfire v.
    rewrite (silenceTimeout_finalizes u i) by (rewrite ?Hru; assumption).
    rewrite Hru. fold buffer.
    destruct (tracked_target w1 i HS Hcur (transcriptUpdate buffer))
      as (n & o & Hn & Hio & Hnil & Hfirst & Hafter & Eu).
    unfold fetchGrammarFeedback. rewrite truthy_trim, Hb. cbn [negb orb].
    cbn [apiKey setTurns emit set_trace]. rewrite Hku.
    destruct (apiKey w1); cbn [negb orb step]; proj; rewrite ?Htu, ?Htru, ?Htiu;
      (split; [exists n, o; rewrite Eu; auto 10|]); (split; [reflexivity|]);
      (split; [reflexivity|]);
      rewrite !requests_app; cbn [requests]; rewrite ?app_nil_r; reflexivity.
Qed.



(** ** Audio on a session that has been torn down *)

Lemma sentOn_app s tr tr' : sentOn s (tr ++ tr') = sentOn s tr ++ sentOn s tr'.
Proof.
  induction tr as [|e tr IH]; [reflexivity|].
  destruct e; cbn [sentOn app]; try exact IH.
  destruct (Nat.eqb session s); [cbn [app]; f_equal|]; exact IH.
Qed.

Lemma stale_refl s w : stale s w w.
Proof. intros H. auto. Qed.

Section Stale.
Variables (s : nat) (w x : World).
Hypothesis H : stale s w x.

Lemma stale_setStatus v : stale s w (setStatus v x).
Proof. exact H. Qed.
Lemma stale_setAudioAnalyser v : stale s w (setAudioAnalyser v x).
Proof. exact H. Qed.
Lemma stale_setTurns f : stale s w (setTurns f x).
Proof. exact H. Qed.
Lemma stale_set_now v : stale s w (set_now v x).
Proof. exact H. Qed.
Lemma stale_set_timers v n : stale s w (set_timers v n x).
Proof. exact H. Qed.
Lemma stale_setTimeout d : stale s w (setTimeout d x).
Proof. exact H. Qed.
Lemma stale_clearTimeout h : stale s w (clearTimeout h x).
Proof. exact H. Qed.
Lemma stale_set_closedContexts v : stale s w (set_closedContexts v x).
Proof. exact H. Qed.
Lemma stale_set_sessions v : stale s w (set_sessions v x).
Proof. exact H. Qed.
Lemma stale_set_processors v : stale s w (set_processors v x).
Proof. exact H. Qed.
Lemma stale_audioContextRef v : stale s w (with_refs (set_audioContextRef v) x).
Proof. exact H. Qed.
Lemma stale_streamRef v : stale s w (with_refs (set_streamRef v) x).
Proof. exact H. Qed.
Lemma stale_processorRef v : stale s w (with_refs (set_processorRef v) x).
Proof. exact H. Qed.
Lemma stale_sourceRef v : stale s w (with_refs (set_sourceRef v) x).
Proof. exact H. Qed.
Lemma stale_currentTurnIdRef v : stale s w (with_refs (set_currentTurnIdRef v) x).
Proof. exact H. Qed.
Lemma stale_currentInputTransRef v : stale s w (with_refs (set_currentInputTransRef v) x).
Proof. exact H. Qed.
Lemma stale_accumulate g :
  stale s w (with_refs (fun r => set_currentInputTransRef (g r) r) x).
Proof. exact H. Qed.
Lemma stale_silenceTimerRef v : stale s w (with_refs (set_silenceTimerRef v) x).
Proof. exact H. Qed.

Lemma stale_clearSession : stale s w (with_refs (set_activeSessionRef None) x).
Proof.
  intros Ha. destruct (H Ha) as [A B]. split; [exact A|].
  intros Hn. split; [discriminate | apply (B Hn)].
Qed.

Lemma stale_emit e : sentOn s [e] = [] -> stale s w (emit e x).
Proof.
  intros He Ha. destruct (H Ha) as [A B]. split; [exact A|].
  intros Hn. destruct (B Hn) as [B1 B2]. split; [exact B1|].
  cbn [emit trace set_trace]. rewrite sentOn_app, He, app_nil_r. exact B2.
Qed.

Lemma stale_suspend k : k <> SessionThen s -> stale s w (suspend k x).
Proof.
  intros Hk Ha. destruct (H Ha) as [[A1 A2] B]. split; [|exact B].
  split; [|exact A2]. cbn [suspend pending set_pending]. rewrite in_app_iff.
  intros [Hin|[Hin|[]]]; [exact (A1 Hin) | congruence].
Qed.

Lemma stale_settled n : stale s w (set_pending (delete n (pending x)) x).
Proof.
  intros Ha. destruct (H Ha) as [[A1 A2] B]. split; [|exact B].
  split; [|exact A2]. cbn [pending set_pending]. intros Hin.
  apply A1, (In_delete _ _ _ Hin).
Qed.

Lemma stale_set_nextObject v : (nextObject x <= v)%nat -> stale s w (set_nextObject v x).
Proof.
  intros Hv Ha. destruct (H Ha) as [[A1 A2] B]. split; [|exact B].
  split; [exact A1|]. cbn [nextObject set_nextObject]. lia.
Qed.

Lemma stale_clearTimers : stale s w (disconnect_clearTimers x).
Proof. unfold disconnect_clearTimers. destruct (silenceTimerRef (refs x)); exact H. Qed.
End Stale.

Create HintDb stale.
#[local] Hint Resolve stale_refl stale_setStatus stale_setAudioAnalyser stale_setTurns
  stale_set_now stale_set_timers stale_setTimeout stale_clearTimeout
  stale_set_closedContexts stale_set_sessions stale_set_processors
  stale_audioContextRef stale_streamRef stale_processorRef stale_sourceRef
  stale_currentTurnIdRef stale_currentInputTransRef stale_accumulate
  stale_silenceTimerRef stale_clearSession stale_emit stale_suspend stale_settled
  stale_set_nextObject stale_clearTimers : stale.
#[local] Hint Extern 1 (sentOn _ [_] = []) => reflexivity : stale.
#[local] Hint Extern 1 (_ <> SessionThen _) => discriminate : stale.
#[local] Hint Extern 1 (_ <= _)%nat => proj; lia : stale.

Ltac stale_tac := intros; cbv zeta; repeat case_match; auto 30 with stale.

Lemma stale_disconnect_reset s w x : stale s w x -> stale s w (disconnect_reset x).
Proof. unfold disconnect_reset. stale_tac. Qed.
#[local] Hint Resolve stale_disconnect_reset : stale.

Lemma stale_disconnect_afterContextClose s w r x :
  stale s w x -> stale s w (disconnect_afterContextClose r x).
Proof. unfold disconnect_afterContextClose. stale_tac. Qed.

Lemma stale_disconnect_release s w x : stale s w x -> stale s w (disconnect_release x).
Proof.
  intros H. unfold disconnect_release.
  assert (forall y, stale s w y -> stale s w (disconnect_stopStream y)) as H1
    by (unfold disconnect_stopStream; stale_tac).
  assert (forall y, stale s w y -> stale s w (disconnect_processor y)) as H2
    by (unfold disconnect_processor; stale_tac).
  assert (forall y, stale s w y -> stale s w (disconnect_source y)) as H3
    by (unfold disconnect_source; stale_tac).
  assert (forall y, stale s w y -> stale s w (disconnect_closeContext y)) as H4
    by (unfold disconnect_closeContext; stale_tac).
  auto.
Qed.
#[local] Hint Resolve stale_disconnect_afterContextClose stale_disconnect_release : stale.

Lemma stale_disconnect_afterSessionClose s w r x :
  stale s w x -> stale s w (disconnect_afterSessionClose r x).
Proof. unfold disconnect_afterSessionClose. stale_tac. Qed.

Lemma stale_disconnect s w x : stale s w x -> stale s w (disconnect x).
Proof. unfold disconnect. stale_tac. Qed.
#[local] Hint Resolve stale_disconnect_afterSessionClose stale_disconnect : stale.

Lemma stale_connect_catch s w x : stale s w x -> stale s w (connect_catch x).
Proof. unfold connect_catch. stale_tac. Qed.
#[local] Hint Resolve stale_connect_catch : stale.

Lemma stale_connect s w b x : stale s w x -> stale s w (connect b x).
Proof. unfold connect. stale_tac. Qed.

Lemma stale_connect_afterResume s w c r x :
  stale s w x -> stale s w (connect_afterResume c r x).
Proof. unfold connect_afterResume. stale_tac. Qed.

(** The session that [connect] creates is a new object. *)
Lemma stale_connect_afterGetUserMedia s w c r x :
  stale s w x -> stale s w (connect_afterGetUserMedia c r x).
Proof.
  intros H. unfold connect_afterGetUserMedia. destruct r; [|auto with stale].
  intros Ha. destruct (H Ha) as [[A1 A2] B]. split; [|exact B]. split.
  - proj. rewrite in_app_iff. intros [Hin|[[= E]|[]]]; [exact (A1 Hin) | lia].
  - proj. lia.
Qed.

(** A block is sent on the active session only. *)
Lemma stale_sendBlock s w s' b x : stale s w x -> stale s w (sendBlock s' b x).
Proof.
  intros H. unfold sendBlock.
  destruct (activeSessionRef (refs x)) as [a|] eqn:Ea; [|exact H].
  destruct (Nat.eqb_spec a s') as [->|_]; [|exact H].
  intros Ha. destruct (H Ha) as [A B]. split; [exact A|].
  intros Hn. destruct (B Hn) as [B1 B2]. split; [exact B1|].
  cbn [emit trace set_trace]. rewrite sentOn_app. cbn [sentOn].
  destruct (Nat.eqb_spec s' s) as [->|_]; [congruence|].
  rewrite app_nil_r. exact B2.
Qed.

Lemma stale_storeSession s w s' x : s' <> s -> stale s w x -> stale s w (storeSession s' x).
Proof.
  intros Hs H Ha. destruct (H Ha) as [A B]. split; [exact A|].
  intros Hn. destruct (B Hn) as [B1 B2]. split; [|exact B2].
  cbn. congruence.
Qed.

Lemma stale_onaudioprocess s w s' b x : stale s w x -> stale s w (onaudioprocess s' b x).
Proof. unfold onaudioprocess. stale_tac. Qed.

Lemma stale_onopen s w s' x : stale s w x -> stale s w (onopen s' x).
Proof. unfold onopen. stale_tac. Qed.

Lemma stale_onclose s w x : stale s w x -> stale s w (onclose x).
Proof. unfold onclose. stale_tac. Qed.

Lemma stale_onerror s w x : stale s w x -> stale s w (onerror x).
Proof. unfold onerror. stale_tac. Qed.

Lemma stale_onmessage s w inputTxt rendered x :
  stale s w x -> stale s w (onmessage inputTxt rendered x).
Proof. unfold onmessage. stale_tac. Qed.

Lemma stale_fetchGrammarFeedback s w text turnId x :
  stale s w x -> stale s w (fetchGrammarFeedback text turnId x).
Proof. unfold fetchGrammarFeedback. stale_tac. Qed.
#[local] Hint Resolve stale_fetchGrammarFeedback : stale.

Lemma stale_silenceTimeout s w x : stale s w x -> stale s w (silenceTimeout x).
Proof. unfold silenceTimeout. stale_tac. Qed.

Lemma stale_afterGenerate s w turnId r x :
  stale s w x -> stale s w (fetchGrammarFeedback_afterGenerate turnId r x).
Proof. unfold fetchGrammarFeedback_afterGenerate. stale_tac. Qed.
#[local] Hint Resolve stale_connect stale_connect_afterResume
  stale_connect_afterGetUserMedia stale_sendBlock stale_onaudioprocess stale_onopen
  stale_onclose stale_onerror stale_onmessage stale_silenceTimeout
  stale_afterGenerate : stale.

Lemma stale_step s e w : stale s w (step e w).
Proof.
  destruct e; cbn [step]; try solve [stale_tac].
  destruct (pending w !! n) as [k|] eqn:Hk; [|apply stale_refl].
  assert (stale s w (set_pending (delete n (pending w)) w)) as Hd by auto with stale.
  destruct k as [c|c|s'|s' b| |c|turnId]; cbn [settle]; try solve [stale_tac].
  destruct r; [|exact Hd].
  intros Ha. apply stale_storeSession; [|exact Hd|exact Ha].
  intros ->. apply (proj1 Ha), (lookup_In _ _ _ Hk).
Qed.

Lemma stale_trans s w1 w2 w3 : stale s w1 w2 -> stale s w2 w3 -> stale s w1 w3.
Proof.
  intros H1 H2 Ha. destruct (H1 Ha) as [A B]. destruct (H2 A) as [A' B'].
  split; [exact A'|]. intros Hn. destruct (B Hn) as [B1 B2].
  destruct (B' B1) as [C1 C2]. split; [exact C1 | congruence].
Qed.

Lemma stale_run s es w : stale s w (run es w).
Proof.
  revert w. induction es as [|e es IH]; intros w; [apply stale_refl|].
  apply (stale_trans s w (step e w)); [apply stale_step | apply IH].
Qed.



